(** * shady: frame encoders, resource providers and the animation pipeline

    A shallow embedding of the Go sources of the repository:

    - [encode] (PNG, JPEG, raw RGB24 / RGBA32, GIF and the ANSI terminal
    display), as functions over an abstract [io.Writer];
  - the IMU and Kinect resource providers, whose background loops and
    [Close] methods are goroutines, as thread-indexed step functions run
    under an arbitrary schedule;
  - the goroutines started by [main] in animation mode.

    Conventions.  Go's [int] is the 64-bit two's complement integer and is
  written as [Z] with its wrap-around ([wrap]).  A byte is a [Z] in
  [0, 256).  A Go [error] result is an [option error]; a run-time panic
  (index or slice bounds out of range, [make] with a negative length) is
  the [None] of an outer [option]. *)

From Stdlib Require Import ZArith Lia String Ascii DecimalString.
From Stdlib Require DecimalPos DecimalN.
From stdpp Require Import base tactics option numbers list list_numbers strings.

Open Scope Z_scope.

(** ** Go integers *)

Module GoInt.

Definition int_min : Z := - 2 ^ 63.
Definition int_max : Z := 2 ^ 63 - 1.

(** Two's complement reduction of a mathematical integer to [int]. *)
Definition wrap (z : Z) : Z := (z + 2 ^ 63) mod 2 ^ 64 - 2 ^ 63.

Definition add (a b : Z) : Z := wrap (a + b).
Definition sub (a b : Z) : Z := wrap (a - b).
Definition mul (a b : Z) : Z := wrap (a * b).
(** Go's [/] truncates toward zero. *)
Definition div (a b : Z) : Z := wrap (Z.quot a b).

Definition in_int (z : Z) : Prop := int_min <= z <= int_max.

(** [uint8(v)] for a non-negative [v]. *)
Definition to_byte (v : Z) : Z := v mod 256.

Lemma wrap_small z : int_min <= z <= int_max -> wrap z = z.
Proof.
  unfold wrap, int_min, int_max. intros Hz.
  rewrite Z.mod_small by lia. lia.
Qed.

Lemma wrap_range (z : Z) : int_min <= wrap z <= int_max.
Proof.
  unfold wrap, int_min, int_max.
  pose proof (Z.mod_pos_bound (z + 2 ^ 63) (2 ^ 64) ltac:(lia)). lia.
Qed.

Lemma add_small a b : int_min <= a + b <= int_max -> add a b = a + b.
Proof. apply wrap_small. Qed.

Lemma sub_small a b : int_min <= a - b <= int_max -> sub a b = a - b.
Proof. apply wrap_small. Qed.

Lemma mul_small a b : int_min <= a * b <= int_max -> mul a b = a * b.
Proof. apply wrap_small. Qed.

End GoInt.

(** ** The [image] package: the parts the encoders touch *)

Module GoImage.
Import GoInt.

Record Point := mkPoint { X : Z; Y : Z }.
Record Rectangle := mkRect { Min : Point; Max : Point }.

Definition Dx (r : Rectangle) : Z := sub (X (Max r)) (X (Min r)).
Definition Dy (r : Rectangle) : Z := sub (Y (Max r)) (Y (Min r)).

(** [image.Rect(x0, y0, x1, y1)] for already ordered corners. *)
Definition Rect (x0 y0 x1 y1 : Z) : Rectangle :=
  mkRect (mkPoint x0 y0) (mkPoint x1 y1).

(** [Point.In]. *)
Definition In_rect (x y : Z) (r : Rectangle) : bool :=
  (X (Min r) <=? x) && (x <? X (Max r)) && (Y (Min r) <=? y) && (y <? Y (Max r)).

(** What [color.Color.RGBA()] returns: four alpha-premultiplied 16 bit
    channels held in [uint32]. *)
Record Color := mkColor { cR : Z; cG : Z; cB : Z; cA : Z }.

(** [color.RGBA{r, g, b, a}.RGBA()]: each 8 bit channel [c] becomes
    [c | c << 8]. *)
Definition widen (c : Z) : Z := Z.lor c (Z.shiftl c 8).
Definition color_RGBA (r g b a : Z) : Color :=
  mkColor (widen r) (widen g) (widen b) (widen a).

(** [image.RGBA]. *)
Record RGBA := mkRGBA { Pix : list Z; Stride : Z; RGBA_Rect : Rectangle }.

Definition PixOffset (p : RGBA) (x y : Z) : Z :=
  (y - Y (Min (RGBA_Rect p))) * Stride p + (x - X (Min (RGBA_Rect p))) * 4.

(** The [At] method of [image.RGBA]: the zero colour outside [Rect]; inside, the four
    bytes at [PixOffset].  A [Pix] too short for its [Rect] makes Go panic;
    the lookup then reads [0], a case [RGBA_wf] excludes. *)
Definition RGBA_At (p : RGBA) (x y : Z) : Color :=
  if In_rect x y (RGBA_Rect p) then
    let i := Z.to_nat (PixOffset p x y) in
    color_RGBA (default 0 (Pix p !! i)) (default 0 (Pix p !! S i))
               (default 0 (Pix p !! S (S i))) (default 0 (Pix p !! S (S (S i))))
  else mkColor 0 0 0 0.

(** [image.NewRGBA(r)]. *)
Definition NewRGBA (r : Rectangle) : RGBA :=
  mkRGBA (replicate (Z.to_nat (4 * Dx r * Dy r)) 0) (4 * Dx r) r.

(** A value of interface type [image.Image]: either the concrete type
    [*image.RGBA], which the encoders test for, or any other
    implementation, given by its [Bounds] and [At] methods. *)
Inductive Image :=
  | ImageRGBA (p : RGBA)
  | ImageOther (bounds : Rectangle) (at_ : Z -> Z -> Color).

Definition Bounds (img : Image) : Rectangle :=
  match img with
  | ImageRGBA p => RGBA_Rect p
  | ImageOther b _ => b
  end.

Definition At (img : Image) (x y : Z) : Color :=
  match img with
  | ImageRGBA p => RGBA_At p x y
  | ImageOther _ f => f x y
  end.

(** The layout invariant of [image.RGBA] ("the pixel at (x, y) starts at
    [Pix[(y-Rect.Min.Y)*Stride + (x-Rect.Min.X)*4]]"), for a canonical
    rectangle whose coordinates and pixel count fit [int]. *)
Record Rect_wf (r : Rectangle) : Prop := {
    wf_x : X (Min r) <= X (Max r);
    wf_y : Y (Min r) <= Y (Max r);
    wf_coord : in_int (X (Min r)) /\ in_int (X (Max r)) /\
               in_int (Y (Min r)) /\ in_int (Y (Max r));
    wf_width : X (Max r) - X (Min r) <= int_max;
    wf_height : Y (Max r) - Y (Min r) <= int_max;
    wf_area : 4 * ((X (Max r) - X (Min r)) * (Y (Max r) - Y (Min r))) <= int_max
  }.

Record RGBA_wf (p : RGBA) : Prop := {
    wf_rect : Rect_wf (RGBA_Rect p);
    wf_stride : 4 * (X (Max (RGBA_Rect p)) - X (Min (RGBA_Rect p))) <= Stride p;
    wf_pix :
      0 < X (Max (RGBA_Rect p)) - X (Min (RGBA_Rect p)) ->
      0 < Y (Max (RGBA_Rect p)) - Y (Min (RGBA_Rect p)) ->
      (Y (Max (RGBA_Rect p)) - Y (Min (RGBA_Rect p)) - 1) * Stride p
        + 4 * (X (Max (RGBA_Rect p)) - X (Min (RGBA_Rect p)))
      <= Z.of_nat (length (Pix p))
  }.

Definition Image_wf (img : Image) : Prop :=
  match img with
  | ImageRGBA p => RGBA_wf p
  | ImageOther b _ => Rect_wf b
  end.

End GoImage.

(** ** Package [encode] *)

Module Encode.
Import GoInt GoImage.

Definition error := string.

(** [time.Duration]: nanoseconds in an [int64]. *)
Definition Duration := Z.
Definition Millisecond : Duration := 1000000.
Definition Second : Duration := 1000000000.

(** [make([]byte, n)]: panics for a negative length (a length beyond what
    the runtime can allocate is outside the model). *)
Definition make_bytes (n : Z) : option (list Z) :=
  if decide (0 <= n) then Some (replicate (Z.to_nat n) 0) else None.

(** The slice expression [s[lo:hi]] (capacity and length coincide for the
    slices built by [make] and by the [image] package). *)
Definition slice (s : list Z) (lo hi : Z) : option (list Z) :=
  if decide (0 <= lo /\ lo <= hi /\ hi <= Z.of_nat (length s))
  then Some (take (Z.to_nat (hi - lo)) (drop (Z.to_nat lo) s))
  else None.

(** [copy(dst[lo:hi], src)] as a change of [dst]: the first
    [min(hi-lo, len(src))] bytes of [src] land at offset [lo]. *)
Definition copy_into (dst : list Z) (lo hi : Z) (src : list Z) : option (list Z) :=
  window ← slice dst lo hi;
  Some (list_inserts (Z.to_nat lo) (take (length window) src) dst).

(** The indexed store [s[i] = v]. *)
Definition store (s : list Z) (i v : Z) : option (list Z) :=
  if decide (0 <= i /\ i < Z.of_nat (length s))
  then Some (<[Z.to_nat i := v]> s)
  else None.

(** A loop body run over the successive values of the loop variable,
    stopping at the first panic. *)
Fixpoint loopM {A S : Type} (body : A -> S -> option S) (xs : list A) (s : S)
  : option S :=
  match xs with
  | [] => Some s
  | x :: xs' => s' ← body x s; loopM body xs' s'
  end.

(** [for v := lo; v < hi; v++ { body }]. *)
Definition for_int {S : Type} (lo hi : Z) (body : Z -> S -> option S) (s : S)
  : option S :=
  loopM body (seqZ lo (hi - lo)) s.

(** [bytes.Buffer] as a sink: [Write] appends and never fails. *)
Definition Buffer := list Z.
Definition Buffer_Write (b : Buffer) (p : list Z) : Buffer * option error :=
  (b ++ p, None).

Section Formats.

(** The [io.Writer] the encoders are handed: a state and its [Write]
    method, which reports an error or none.  The byte count [Write] also
    returns is dropped by every caller in the package. *)
Context {Sink : Type}.
Variable Writer_Write : Sink -> list Z -> Sink * option error.

(** The codecs of the Go standard library are outside the repository.
    [png.Encode] and [jpeg.Encode] are taken as the sequence of [Write]
    calls they issue for an image, cut at the first failing one, and the
    error, if any, they report themselves once everything is written. *)
Variable png_chunks : Image -> list (list Z) * option error.
Variable jpeg_chunks : Image -> list (list Z) * option error.

(** [draw.Draw(dst, r, src, sp, draw.Over)] mutates [dst.Pix] in place:
    it is given by the byte it leaves at each offset of [dst.Pix]. *)
Variable draw_Over : RGBA -> Rectangle -> Image -> Point -> nat -> Z.

Fixpoint write_chunks (w : Sink) (chunks : list (list Z)) : Sink * option error :=
  match chunks with
  | [] => (w, None)
  | c :: cs =>
      match Writer_Write w c with
      | (w', Some e) => (w', Some e)
      | (w', None) => write_chunks w' cs
      end
  end.

Definition lib_Encode (codec : Image -> list (list Z) * option error)
    (w : Sink) (img : Image) : Sink * option error :=
  match write_chunks w (fst (codec img)) with
  | (w', Some e) => (w', Some e)
  | (w', None) => (w', snd (codec img))
  end.

Definition draw_Draw (dst : RGBA) (r : Rectangle) (src : Image) (sp : Point) : RGBA :=
  mkRGBA (imap (fun k _ => draw_Over dst r src sp k) (Pix dst))
         (Stride dst) (RGBA_Rect dst).

(** [for img := range stream { if err := f.Encode(w, img); err != nil
    { return err } }; return nil], the body shared word for word by the
    [EncodeAnimation] of PNG, JPEG, RGB24 and RGBA32.  The stream is the
    list of frames the channel delivers before it is closed; the second
    component of the result is what was not received. *)
Fixpoint range_Encode (enc : Sink -> Image -> option (Sink * option error))
    (w : Sink) (stream : list Image)
  : option (Sink * list Image * option error) :=
  match stream with
  | [] => Some (w, [], None)
  | img :: rest =>
      r ← enc w img;
      match r with
      | (w', Some e) => Some (w', rest, Some e)
      | (w', None) => range_Encode enc w' rest
      end
  end.

(** *** PNG *)
Inductive PNGFormat := mkPNGFormat.

Definition PNGFormat_Extensions (f : PNGFormat) : list string := ["png"%string].

Definition PNGFormat_Encode (f : PNGFormat) (w : Sink) (img : Image)
  : option (Sink * option error) :=
  Some (lib_Encode png_chunks w img).

Definition PNGFormat_EncodeAnimation (f : PNGFormat) (w : Sink)
    (stream : list Image) (interval : Duration) :=
  range_Encode (PNGFormat_Encode f) w stream.

(** *** JPEG *)
Inductive JPGFormat := mkJPGFormat.

Definition JPGFormat_Extensions (f : JPGFormat) : list string :=
  ["jpg"%string; "jpeg"%string].

Definition JPGFormat_Encode (f : JPGFormat) (w : Sink) (img : Image)
  : option (Sink * option error) :=
  Some (lib_Encode jpeg_chunks w img).

Definition JPGFormat_EncodeAnimation (f : JPGFormat) (w : Sink)
    (stream : list Image) (interval : Duration) :=
  range_Encode (JPGFormat_Encode f) w stream.

(** *** Raw RGB24 *)
Inductive RGB24Format := mkRGB24Format.

Definition RGB24Format_Extensions (f : RGB24Format) : list string := [].

(** [i := y*bounds.Dx() + x]. *)
Definition RGB24_index (bounds : Rectangle) (x y : Z) : Z :=
  add (mul y (Dx bounds)) x.

(** [copy(buf[i*3:i*3+3], rgba.Pix[i*4:i*4+3])]. *)
Definition RGB24_copy_pixel (bounds : Rectangle) (rgba : RGBA)
    (y x : Z) (buf : list Z) : option (list Z) :=
  let i := RGB24_index bounds x y in
  src ← slice (Pix rgba) (mul i 4) (add (mul i 4) 3);
  copy_into buf (mul i 3) (add (mul i 3) 3) src.

(** [r, g, b, _ := img.At(x, y).RGBA(); buf[i*3] = byte(r >> 8); ...]. *)
Definition RGB24_store_pixel (bounds : Rectangle) (img : Image)
    (y x : Z) (buf : list Z) : option (list Z) :=
  let i := RGB24_index bounds x y in
  let c := At img x y in
  buf1 ← store buf (mul i 3) (to_byte (Z.shiftr (cR c) 8));
  buf2 ← store buf1 (add (mul i 3) 1) (to_byte (Z.shiftr (cG c) 8));
  store buf2 (add (mul i 3) 2) (to_byte (Z.shiftr (cB c) 8)).

(** The pixel loops of [RGB24Format.Encode], up to the filled [buf]. *)
Definition RGB24_fill (img : Image) : option (list Z) :=
  let bounds := Bounds img in
  buf ← make_bytes (mul (mul (Dx bounds) (Dy bounds)) 3);
  let pixel :=
    match img with
    | ImageRGBA rgba => RGB24_copy_pixel bounds rgba
    | ImageOther _ _ => RGB24_store_pixel bounds img
    end in
  for_int (Y (Min bounds)) (Y (Max bounds))
    (fun y => for_int (X (Min bounds)) (X (Max bounds)) (pixel y)) buf.

Definition RGB24Format_Encode (f : RGB24Format) (w : Sink) (img : Image)
  : option (Sink * option error) :=
  buf ← RGB24_fill img;
  Some (Writer_Write w buf).

Definition RGB24Format_EncodeAnimation (f : RGB24Format) (w : Sink)
    (stream : list Image) (interval : Duration) :=
  range_Encode (RGB24Format_Encode f) w stream.

(** *** Raw RGBA32 *)
Inductive RGBA32Format := mkRGBA32Format.

Definition RGBA32Format_Extensions (f : RGBA32Format) : list string := [].

Definition RGBA32_flatten (img : Image) : RGBA :=
  match img with
  | ImageRGBA i => i
  | ImageOther _ _ =>
      draw_Draw (NewRGBA (Bounds img)) (Bounds img) img (mkPoint 0 0)
  end.

Definition RGBA32Format_Encode (f : RGBA32Format) (w : Sink) (img : Image)
  : option (Sink * option error) :=
  Some (Writer_Write w (Pix (RGBA32_flatten img))).

Definition RGBA32Format_EncodeAnimation (f : RGBA32Format) (w : Sink)
    (stream : list Image) (interval : Duration) :=
  range_Encode (RGBA32Format_Encode f) w stream.

(** *** GIF *)

(** [image.Paletted], [image.NewPaletted] and the part of [gif.GIF] the
    encoder fills in. *)
Record Paletted := mkPaletted {
  P_Pix : list Z; P_Stride : Z; P_Rect : Rectangle; P_Palette : list Color }.

Definition NewPaletted (r : Rectangle) (p : list Color) : Paletted :=
  mkPaletted (replicate (Z.to_nat (Dx r * Dy r)) 0) (Dx r) r p.

Record GIF := mkGIF {
  GIF_Image : list Paletted;
  GIF_Delay : list Z;
  GIF_LoopCount : Z;
  GIF_Disposal : list Z;
  GIF_BackgroundIndex : Z }.

(** [gif.DisposalBackground]. *)
Definition DisposalBackground : Z := 2.

(** How package [image/gif] documents [LoopCount]: 0 loops forever, -1 shows
    each frame once, any other value restarts the animation that many
    times. *)
Inductive Looping := LoopForever | ShowOnce | Restarts (n : Z).

Definition gif_looping (loopCount : Z) : Looping :=
  if decide (loopCount = 0) then LoopForever
  else if decide (loopCount = -1) then ShowOnce
  else Restarts loopCount.

(** [palette.Plan9], [draw.Draw] onto a paletted destination and
    [gif.EncodeAll], from the standard library like the codecs above. *)
Variable Plan9 : list Color.
Variable draw_Over_paletted : Paletted -> Rectangle -> Image -> Point -> nat -> Z.
Variable gif_chunks : GIF -> list (list Z) * option error.

Definition draw_Draw_paletted (dst : Paletted) (r : Rectangle) (src : Image)
    (sp : Point) : Paletted :=
  mkPaletted (imap (fun k _ => draw_Over_paletted dst r src sp k) (P_Pix dst))
             (P_Stride dst) (P_Rect dst) (P_Palette dst).

Inductive GIFFormat := mkGIFFormat.

Definition GIFFormat_Extensions (f : GIFFormat) : list string := ["gif"%string].

(** [int(interval/(time.Second/100))]; the conversion from [int64] to the
    64 bit [int] changes nothing. *)
Definition GIF_delay (interval : Duration) : Z := div interval (Second / 100).

(** One turn of [for img := range stream]: the three [append]s. *)
Definition GIF_append (interval : Duration) (gifImg : GIF) (img : Image) : GIF :=
  let frame :=
    draw_Draw_paletted (NewPaletted (Bounds img) Plan9) (Bounds img) img (mkPoint 0 0) in
  mkGIF (GIF_Image gifImg ++ [frame])
        (GIF_Delay gifImg ++ [GIF_delay interval])
        (GIF_LoopCount gifImg)
        (GIF_Disposal gifImg ++ [DisposalBackground])
        (GIF_BackgroundIndex gifImg).

(** The [gif.GIF] handed to [gif.EncodeAll] once the stream is closed. *)
Definition GIF_collect (stream : list Image) (interval : Duration) : GIF :=
  foldl (GIF_append interval) (mkGIF [] [] 0 [] 0) stream.

Definition GIFFormat_EncodeAnimation (f : GIFFormat) (w : Sink)
    (stream : list Image) (interval : Duration)
  : option (Sink * list Image * option error) :=
  let gifImg := GIF_collect stream interval in
  match write_chunks w (fst (gif_chunks gifImg)) with
  | (w', Some e) => Some (w', [], Some e)
  | (w', None) => Some (w', [], snd (gif_chunks gifImg))
  end.

(** [stream := make(chan image.Image, 1); stream <- img; close(stream)]. *)
Definition GIFFormat_Encode (f : GIFFormat) (w : Sink) (img : Image)
  : option (Sink * option error) :=
  r ← GIFFormat_EncodeAnimation f w [img] 0;
  Some (fst (fst r), snd r).

(** *** The ANSI terminal display *)

Record AnsiDisplay := mkAnsiDisplay { initDone : bool }.

Definition AnsiDisplay_Extensions (f : AnsiDisplay) : list string := [].

Definition ESC : string := String (ascii_of_nat 27) EmptyString.
Definition LF : string := String (ascii_of_nat 10) EmptyString.
(** U+2580, upper half block, in UTF-8. *)
Definition upper_half_block : string :=
  String (ascii_of_nat 226) (String (ascii_of_nat 150)
    (String (ascii_of_nat 128) EmptyString)).

(** The verb [%d] of [fmt.Fprintf] on a [uint32]. *)
Definition fmt_d (v : Z) : string := NilZero.string_of_uint (N.to_uint (Z.to_N v)).

Definition ansi_clear : string := ESC +:+ "[3J" +:+ ESC +:+ "[H" +:+ ESC +:+ "[2J".
Definition ansi_home : string := ESC +:+ "[1;1H".
Definition ansi_reset : string := ESC +:+ "[0m" +:+ LF.
(** ["\x1b[38;2;%d;%d;%dm"] and ["\x1b[48;2;%d;%d;%dm"]. *)
Definition ansi_fg (r g b : Z) : string :=
  ESC +:+ "[38;2;" +:+ fmt_d r +:+ ";" +:+ fmt_d g +:+ ";" +:+ fmt_d b +:+ "m".
Definition ansi_bg (r g b : Z) : string :=
  ESC +:+ "[48;2;" +:+ fmt_d r +:+ ";" +:+ fmt_d g +:+ ";" +:+ fmt_d b +:+ "m".
(** The literal written when row [y*2+1] does not exist. *)
Definition ansi_bg_missing : string := ESC +:+ "[48;2;0m".

Definition bytes_of_string (s : string) : list Z :=
  (fun a => Z.of_nat (nat_of_ascii a)) <$> list_ascii_of_string s.

(** The background escape of the cell in column [x] of output row [y]. *)
Definition Ansi_background (img : Image) (y x : Z) : string :=
  if decide (add (mul y 2) 1 < Dy (Bounds img)) then
    let c := At img x (add (mul y 2) 1) in
    ansi_bg (cR c `quot` 256) (cG c `quot` 256) (cB c `quot` 256)
  else ansi_bg_missing.

(** The body of [for x := 0; x < width; x++]. *)
Definition Ansi_cell (img : Image) (y x : Z) (buf : string) : string :=
  let c := At img x (mul y 2) in
  buf +:+ ansi_fg (cR c `quot` 256) (cG c `quot` 256) (cB c `quot` 256)
      +:+ Ansi_background img y x
      +:+ upper_half_block.

(** The body of [for y := 0; y < height/2+(height&1); y++]. *)
Definition Ansi_row (img : Image) (width : Z) (y : Z) (buf : string) : string :=
  foldl (fun b x => Ansi_cell img y x b) buf (seqZ 0 width) +:+ ansi_reset.

Definition Ansi_rows (img : Image) (width height : Z) (buf : string) : string :=
  foldl (fun b y => Ansi_row img width y b) buf
        (seqZ 0 (add (div height 2) (Z.land height 1))).

(** What one turn of [for img := range stream] puts in [buf], and the
    receiver after it. *)
Definition Ansi_frame (f : AnsiDisplay) (img : Image) : AnsiDisplay * string :=
  let width := Dx (Bounds img) in
  let height := Dy (Bounds img) in
  if negb (initDone f)
  then (mkAnsiDisplay true, Ansi_rows img width height ansi_clear)
  else (f, Ansi_rows img width height ansi_home).

(** [EncodeAnimation] has a pointer receiver: the result carries the
    receiver as the call leaves it.  [io.Copy(w, &buf)] is one [Write] of the
    whole buffer, which is never empty.  The [time.Sleep] between frames
    touches neither the sink nor the receiver and is left out. *)
Fixpoint AnsiDisplay_EncodeAnimation (f : AnsiDisplay) (w : Sink)
    (stream : list Image) (interval : Duration)
  : option (AnsiDisplay * Sink * list Image * option error) :=
  match stream with
  | [] => Some (f, w, [], None)
  | img :: rest =>
      let fb := Ansi_frame f img in
      match Writer_Write w (bytes_of_string (snd fb)) with
      | (w', Some e) => Some (fst fb, w', rest, Some e)
      | (w', None) => AnsiDisplay_EncodeAnimation (fst fb) w' rest interval
      end
  end.

(** [Encode] has a value receiver: [f] is the method's own copy of the
    display, [f.EncodeAnimation] updates that copy, and the caller's display
    is what it was. *)
Definition AnsiDisplay_Encode (f : AnsiDisplay) (w : Sink) (img : Image)
  : option (AnsiDisplay * Sink * option error) :=
  let copy := f in
  r ← AnsiDisplay_EncodeAnimation copy w [img] 0;
  Some (f, snd (fst (fst r)), snd r).

(** *** The [Format] interface *)

(** A value of interface type [Format], by its dynamic type. *)
Inductive Format :=
| FormatPNG (f : PNGFormat)
| FormatJPG (f : JPGFormat)
| FormatRGB24 (f : RGB24Format)
| FormatRGBA32 (f : RGBA32Format)
| FormatGIF (f : GIFFormat)
| FormatAnsi (f : AnsiDisplay).

Definition stateless (fmt : Format) (r : option (Sink * option error))
  : option (Format * Sink * option error) :=
  x ← r; Some (fmt, fst x, snd x).

Definition stateless_anim (fmt : Format) (r : option (Sink * list Image * option error))
  : option (Format * Sink * list Image * option error) :=
  x ← r; Some (fmt, fst (fst x), snd (fst x), snd x).

Definition Format_Encode (fmt : Format) (w : Sink) (img : Image)
  : option (Format * Sink * option error) :=
  match fmt with
  | FormatPNG f => stateless fmt (PNGFormat_Encode f w img)
  | FormatJPG f => stateless fmt (JPGFormat_Encode f w img)
  | FormatRGB24 f => stateless fmt (RGB24Format_Encode f w img)
  | FormatRGBA32 f => stateless fmt (RGBA32Format_Encode f w img)
  | FormatGIF f => stateless fmt (GIFFormat_Encode f w img)
  | FormatAnsi f =>
      r ← AnsiDisplay_Encode f w img;
      Some (FormatAnsi (fst (fst r)), snd (fst r), snd r)
  end.

Definition Format_EncodeAnimation (fmt : Format) (w : Sink)
    (stream : list Image) (interval : Duration)
  : option (Format * Sink * list Image * option error) :=
  match fmt with
  | FormatPNG f => stateless_anim fmt (PNGFormat_EncodeAnimation f w stream interval)
  | FormatJPG f => stateless_anim fmt (JPGFormat_EncodeAnimation f w stream interval)
  | FormatRGB24 f => stateless_anim fmt (RGB24Format_EncodeAnimation f w stream interval)
  | FormatRGBA32 f => stateless_anim fmt (RGBA32Format_EncodeAnimation f w stream interval)
  | FormatGIF f => stateless_anim fmt (GIFFormat_EncodeAnimation f w stream interval)
  | FormatAnsi f =>
      r ← AnsiDisplay_EncodeAnimation f w stream interval;
      Some (FormatAnsi (fst (fst (fst r))), snd (fst (fst r)), snd (fst r), snd r)
  end.

(** *** Frames the statements below are about *)

(** The frame's bounds start at the origin. *)
Definition at_origin (img : Image) : Prop := Min (Bounds img) = mkPoint 0 0.

(** [image.NewRGBA(image.Rect(0, 0, W, H))] with every pixel set to the
    colour [color.RGBA{r, g, b, a}], and a frame of any other type whose [At]
    is one colour everywhere. *)
Definition solid_RGBA (W H r g b a : Z) : Image :=
  ImageRGBA (mkRGBA (mjoin (replicate (Z.to_nat (W * H)) [r; g; b; a]))
                    (4 * W) (Rect 0 0 W H)).

Definition solid_Other (W H : Z) (c : Color) : Image :=
  ImageOther (Rect 0 0 W H) (fun _ _ => c).

Inductive solid_frame (W H : Z) : Image -> Prop :=
| solid_frame_RGBA r g b a : solid_frame W H (solid_RGBA W H r g b a)
| solid_frame_Other c : solid_frame W H (solid_Other W H c).

(** A one pixel [image.NewRGBA(image.Rect(1, 1, 2, 2))]. *)
Definition off_origin_frame : Image :=
  ImageRGBA (mkRGBA [10; 20; 30; 255] 4 (Rect 1 1 2 2)).

(** The frames an encoder can be handed: well-formed images (an
    [*image.RGBA] whose [Pix] is too short for its [Rect] makes [At], and so
    the encoders that read pixels, panic); raw RGB24 indexes without a panic
    only with the bounds at the origin. *)
Definition frames_encodable (fmt : Format) (stream : list Image) : Prop :=
  Forall Image_wf stream /\
  match fmt with
  | FormatRGB24 _ => Forall at_origin stream
  | _ => True
  end.

(** How [gif.EncodeAll] on [g] fails with [e], leaving the sink [w] as
    [w']: at its first failing [Write], or by an error of its own after
    every [Write] went through. *)
Definition gif_failure (w : Sink) (g : GIF) (w' : Sink) (e : error) : Prop :=
  (exists pre c post w1,
      fst (gif_chunks g) = pre ++ c :: post /\
      write_chunks w pre = (w1, None) /\
      Writer_Write w1 c = (w', Some e)) \/
  (write_chunks w (fst (gif_chunks g)) = (w', None) /\
   snd (gif_chunks g) = Some e).

(** Where [EncodeAnimation] stops.  With no error the stream is used up.
    With an error [e]: GIF has read the whole stream and [e] is the failure
    of [gif.EncodeAll]; every other format has encoded the frames [pre]
    without error, failed with [e] on the next frame [img], and left the
    frames after [img] in the stream. *)
Definition stops_at_first_failure (fmt : Format) (w : Sink) (stream : list Image)
    (interval : Duration) (fmt' : Format) (w' : Sink) (rest : list Image)
    (err : option error) : Prop :=
  match err with
  | None => rest = []
  | Some e =>
      match fmt with
      | FormatGIF _ =>
          rest = [] /\ gif_failure w (GIF_collect stream interval) w' e
      | _ =>
          exists pre img fmt1 w1,
            stream = pre ++ img :: rest /\
            Format_EncodeAnimation fmt w pre interval = Some (fmt1, w1, [], None) /\
            Format_EncodeAnimation fmt1 w1 [img] interval = Some (fmt', w', [], Some e)
      end
  end.

(** What a frame costs in [Write]s when it goes through: every [Write] of
    the codec succeeds and the codec reports no error of its own (PNG,
    JPEG); the one [Write] of the buffer succeeds (raw formats, terminal
    display, which is initialised after it).  GIF writes nothing per
    frame. *)
Definition frame_passes (fmt : Format) (w : Sink) (img : Image)
    (fmt' : Format) (w' : Sink) : Prop :=
  match fmt with
  | FormatPNG _ =>
      fmt' = fmt /\ write_chunks w (fst (png_chunks img)) = (w', None) /\
      snd (png_chunks img) = None
  | FormatJPG _ =>
      fmt' = fmt /\ write_chunks w (fst (jpeg_chunks img)) = (w', None) /\
      snd (jpeg_chunks img) = None
  | FormatRGB24 _ =>
      fmt' = fmt /\
      exists buf, RGB24_fill img = Some buf /\ Writer_Write w buf = (w', None)
  | FormatRGBA32 _ =>
      fmt' = fmt /\ Writer_Write w (Pix (RGBA32_flatten img)) = (w', None)
  | FormatGIF _ => False
  | FormatAnsi f =>
      fmt' = FormatAnsi (fst (Ansi_frame f img)) /\
      Writer_Write w (bytes_of_string (snd (Ansi_frame f img))) = (w', None)
  end.

(** How a codec's writes on [w] fail with [e], leaving the sink as [w']:
    at the first failing [Write], or by the codec's own error after every
    [Write] went through. *)
Definition codec_failure (w : Sink) (out : list (list Z) * option error)
    (w' : Sink) (e : error) : Prop :=
  (exists pre c post w1,
      fst out = pre ++ c :: post /\
      write_chunks w pre = (w1, None) /\
      Writer_Write w1 c = (w', Some e)) \/
  (write_chunks w (fst out) = (w', None) /\ snd out = Some e).

(** The frame fails with [e]: a [Write] made for it returns [e]. *)
Definition frame_fails (fmt : Format) (w : Sink) (img : Image)
    (w' : Sink) (e : error) : Prop :=
  match fmt with
  | FormatPNG _ => codec_failure w (png_chunks img) w' e
  | FormatJPG _ => codec_failure w (jpeg_chunks img) w' e
  | FormatRGB24 _ =>
      exists buf, RGB24_fill img = Some buf /\ Writer_Write w buf = (w', Some e)
  | FormatRGBA32 _ => Writer_Write w (Pix (RGBA32_flatten img)) = (w', Some e)
  | FormatGIF _ => False
  | FormatAnsi f =>
      Writer_Write w (bytes_of_string (snd (Ansi_frame f img))) = (w', Some e)
  end.

(** The frames of [pre] go through one after the other, from the sink [w]
    to the sink [w']. *)
Fixpoint frames_pass (fmt : Format) (w : Sink) (pre : list Image)
    (fmt' : Format) (w' : Sink) : Prop :=
  match pre with
  | [] => fmt' = fmt /\ w' = w
  | img :: rest =>
      exists fmt1 w1,
        frame_passes fmt w img fmt1 w1 /\ frames_pass fmt1 w1 rest fmt' w'
  end.

(** The text of a frame after its first escape sequence. *)
Definition Ansi_body (img : Image) : string :=
  Ansi_rows img (Dx (Bounds img)) (Dy (Bounds img)) EmptyString.

(** ** Facts about the encoders *)

(** *** Loops *)

Lemma loopM_seqZ_rule {St : Type} (I : Z -> St -> Prop) (body : Z -> St -> option St)
    (n : nat) :
  forall (lo : Z) (s : St),
    I lo s ->
    (forall v t, lo <= v < lo + Z.of_nat n -> I v t ->
                 exists t', body v t = Some t' /\ I (v + 1) t') ->
    exists t, loopM body (seqZ lo (Z.of_nat n)) s = Some t /\ I (lo + Z.of_nat n) t.
Proof.
  induction n as [|n IH]; intros lo s Hs Hbody.
  - exists s. rewrite Z.add_0_r. split; [reflexivity | exact Hs].
  - rewrite seqZ_cons by lia. cbn [loopM].
    destruct (Hbody lo s) as (t' & Ht' & HI'); [lia | exact Hs |].
    rewrite Ht'. cbn.
    replace (Z.pred (Z.of_nat (S n))) with (Z.of_nat n) by lia.
    destruct (IH (Z.succ lo) t') as (t & Ht & HI).
    + replace (Z.succ lo) with (lo + 1) by lia. exact HI'.
    + intros v u Hv Hu. apply Hbody; [lia | exact Hu].
    + exists t. split; [exact Ht |].
      replace (lo + Z.of_nat (S n)) with (Z.succ lo + Z.of_nat n) by lia. exact HI.
Qed.

(** The rule of a counted loop: an invariant indexed by the loop variable,
    kept by every turn that does not panic, holds at the upper bound. *)
Lemma for_int_rule {St : Type} (I : Z -> St -> Prop) (lo hi : Z)
    (body : Z -> St -> option St) (s : St) :
  lo <= hi ->
  I lo s ->
  (forall v t, lo <= v < hi -> I v t -> exists t', body v t = Some t' /\ I (v + 1) t') ->
  exists t, for_int lo hi body s = Some t /\ I hi t.
Proof.
  intros Hle Hs Hbody. unfold for_int.
  destruct (loopM_seqZ_rule I body (Z.to_nat (hi - lo)) lo s Hs) as (t & Ht & HI).
  - intros v u Hv Hu. apply Hbody; [lia | exact Hu].
  - exists t. rewrite Z2Nat.id in Ht, HI by lia.
    split; [exact Ht |]. replace hi with (lo + (hi - lo)) by lia. exact HI.
Qed.

Lemma slice_Some (s : list Z) (lo hi : Z) :
  0 <= lo -> lo <= hi -> hi <= Z.of_nat (length s) ->
  exists t, slice s lo hi = Some t /\ Z.of_nat (length t) = hi - lo.
Proof.
  intros H1 H2 H3. unfold slice. rewrite decide_True by lia.
  eexists. split; [reflexivity |].
  rewrite length_take, length_drop. lia.
Qed.

Lemma copy_into_Some (dst src : list Z) (lo hi : Z) :
  0 <= lo -> lo <= hi -> hi <= Z.of_nat (length dst) ->
  exists t, copy_into dst lo hi src = Some t /\ length t = length dst.
Proof.
  intros H1 H2 H3. unfold copy_into.
  destruct (slice_Some dst lo hi H1 H2 H3) as (win & -> & _). cbn.
  eexists. split; [reflexivity |]. apply length_inserts.
Qed.

Lemma store_Some (s : list Z) (i v : Z) :
  0 <= i < Z.of_nat (length s) ->
  exists t, store s i v = Some t /\ length t = length s.
Proof.
  intros Hi. unfold store. rewrite decide_True by lia.
  eexists. split; [reflexivity |]. apply length_insert.
Qed.

(** *** Raw RGB24: index arithmetic *)

Lemma origin_dims (r : Rectangle) :
  Rect_wf r -> Min r = mkPoint 0 0 ->
  Dx r = X (Max r) /\ Dy r = Y (Max r) /\
  0 <= X (Max r) /\ 0 <= Y (Max r) /\
  4 * (X (Max r) * Y (Max r)) <= int_max.
Proof.
  intros [Hx Hy Hc Hw Hh Ha] Hmin. unfold Dx, Dy, sub.
  rewrite Hmin in *. cbn [X Y] in *.
  rewrite !Z.sub_0_r in *. unfold in_int, int_min, int_max in *.
  rewrite !wrap_small by (unfold int_min, int_max; lia). lia.
Qed.

Lemma index_bounds (W H x y : Z) :
  0 <= x < W -> 0 <= y < H -> 0 <= y * W + x < W * H.
Proof. intros Hx Hy. nia. Qed.

Lemma RGB24_index_origin (r : Rectangle) (x y : Z) :
  Rect_wf r -> Min r = mkPoint 0 0 ->
  0 <= x < X (Max r) -> 0 <= y < Y (Max r) ->
  RGB24_index r x y = y * X (Max r) + x /\
  0 <= RGB24_index r x y < X (Max r) * Y (Max r).
Proof.
  intros Hwf Hmin Hx Hy.
  destruct (origin_dims r Hwf Hmin) as (HDx & HDy & HW & HH & Harea).
  pose proof (index_bounds _ _ x y Hx Hy) as Hi.
  unfold RGB24_index. rewrite HDx.
  assert (0 <= y * X (Max r) <= X (Max r) * Y (Max r)) by nia.
  unfold int_max in Harea.
  rewrite mul_small by (unfold int_min, int_max; lia).
  rewrite add_small by (unfold int_min, int_max; lia).
  lia.
Qed.

Lemma RGBA_wf_pix_length (p : RGBA) :
  RGBA_wf p ->
  0 < X (Max (RGBA_Rect p)) - X (Min (RGBA_Rect p)) ->
  0 < Y (Max (RGBA_Rect p)) - Y (Min (RGBA_Rect p)) ->
  4 * ((X (Max (RGBA_Rect p)) - X (Min (RGBA_Rect p)))
       * (Y (Max (RGBA_Rect p)) - Y (Min (RGBA_Rect p))))
  <= Z.of_nat (length (Pix p)).
Proof.
  intros [Hr Hs Hp] HW HH. specialize (Hp HW HH). nia.
Qed.

Lemma RGB24_copy_pixel_ok (p : RGBA) (x y : Z) (buf : list Z) :
  RGBA_wf p -> Min (RGBA_Rect p) = mkPoint 0 0 ->
  0 <= x < X (Max (RGBA_Rect p)) -> 0 <= y < Y (Max (RGBA_Rect p)) ->
  Z.of_nat (length buf) = X (Max (RGBA_Rect p)) * Y (Max (RGBA_Rect p)) * 3 ->
  exists buf', RGB24_copy_pixel (RGBA_Rect p) p y x buf = Some buf' /\
               length buf' = length buf.
Proof.
  intros Hwf Hmin Hx Hy Hlen.
  pose proof (wf_rect _ Hwf) as Hr.
  destruct (origin_dims _ Hr Hmin) as (HDx & HDy & HW & HH & Harea).
  destruct (RGB24_index_origin _ x y Hr Hmin Hx Hy) as (Hi & Hib).
  pose proof (RGBA_wf_pix_length p Hwf) as Hpix. rewrite Hmin in Hpix. cbn in Hpix.
  rewrite !Z.sub_0_r in Hpix. specialize (Hpix ltac:(lia) ltac:(lia)).
  unfold RGB24_copy_pixel. set (i := RGB24_index (RGBA_Rect p) x y) in *.
  unfold int_max in Harea.
  rewrite !(mul_small i) by (unfold int_min, int_max; lia).
  rewrite !add_small by (unfold int_min, int_max; lia).
  destruct (slice_Some (Pix p) (i * 4) (i * 4 + 3)) as (src & -> & _); [lia .. |].
  cbn. apply copy_into_Some; lia.
Qed.

Lemma RGB24_store_pixel_ok (img : Image) (x y : Z) (buf : list Z) :
  Rect_wf (Bounds img) -> Min (Bounds img) = mkPoint 0 0 ->
  0 <= x < X (Max (Bounds img)) -> 0 <= y < Y (Max (Bounds img)) ->
  Z.of_nat (length buf) = X (Max (Bounds img)) * Y (Max (Bounds img)) * 3 ->
  exists buf', RGB24_store_pixel (Bounds img) img y x buf = Some buf' /\
               length buf' = length buf.
Proof.
  intros Hr Hmin Hx Hy Hlen.
  destruct (origin_dims _ Hr Hmin) as (HDx & HDy & HW & HH & Harea).
  destruct (RGB24_index_origin _ x y Hr Hmin Hx Hy) as (Hi & Hib).
  unfold RGB24_store_pixel. set (i := RGB24_index (Bounds img) x y) in *.
  unfold int_max in Harea.
  rewrite !(mul_small i) by (unfold int_min, int_max; lia).
  rewrite !add_small by (unfold int_min, int_max; lia).
  destruct (store_Some buf (i * 3) (to_byte (cR (At img x y) ≫ 8)))
    as (b1 & -> & Hl1); [lia |]. cbn.
  destruct (store_Some b1 (i * 3 + 1) (to_byte (cG (At img x y) ≫ 8)))
    as (b2 & -> & Hl2); [lia |]. cbn.
  destruct (store_Some b2 (i * 3 + 2) (to_byte (cB (At img x y) ≫ 8)))
    as (b3 & -> & Hl3); [lia |].
  exists b3. split; [reflexivity | congruence].
Qed.

Lemma Image_wf_bounds (img : Image) : Image_wf img -> Rect_wf (Bounds img).
Proof. destruct img; cbn; [apply wf_rect | trivial]. Qed.

(** With well-formed bounds at the origin the two pixel loops run to the end
    and leave a buffer of [Dx * Dy * 3] bytes. *)
Lemma RGB24_fill_ok (img : Image) :
  Image_wf img -> at_origin img ->
  exists buf, RGB24_fill img = Some buf /\
    Z.of_nat (length buf) = Dx (Bounds img) * Dy (Bounds img) * 3.
Proof.
  intros Hwf Hmin. unfold at_origin in Hmin.
  pose proof (Image_wf_bounds img Hwf) as Hr.
  destruct (origin_dims _ Hr Hmin) as (HDx & HDy & HW & HH & Harea).
  unfold RGB24_fill. rewrite HDx, HDy, Hmin. cbn [X Y].
  unfold int_max in Harea.
  assert (0 <= X (Max (Bounds img)) * Y (Max (Bounds img))) by nia.
  rewrite (mul_small (X (Max (Bounds img)))) by (unfold int_min, int_max; lia).
  rewrite mul_small by (unfold int_min, int_max; lia).
  unfold make_bytes. rewrite decide_True by lia. cbn.
  set (N := X (Max (Bounds img)) * Y (Max (Bounds img)) * 3).
  apply (for_int_rule (fun _ buf => Z.of_nat (length buf) = N)); [lia | |].
  { rewrite length_replicate. lia. }
  intros y buf Hy Hbuf.
  apply (for_int_rule (fun _ buf => Z.of_nat (length buf) = N)); [lia | exact Hbuf |].
  intros x buf' Hx Hbuf'.
  destruct img as [p | b f]; cbn [Bounds] in *.
  - destruct (RGB24_copy_pixel_ok p x y buf' Hwf Hmin Hx Hy Hbuf') as (b' & -> & Hl).
    exists b'. split; [reflexivity | lia].
  - destruct (RGB24_store_pixel_ok (ImageOther b f) x y buf' Hr Hmin Hx Hy Hbuf')
      as (b' & Hb' & Hl).
    cbn [Bounds] in Hb'. rewrite Hb'. exists b'. split; [reflexivity | lia].
Qed.

Lemma Rect_wf_origin (W H : Z) :
  0 <= W <= int_max -> 0 <= H <= int_max -> 4 * (W * H) <= int_max ->
  Rect_wf (Rect 0 0 W H).
Proof.
  intros HW HH Ha. unfold int_max in *.
  split; cbn; unfold in_int, int_min, int_max; rewrite ?Z.sub_0_r; lia.
Qed.

Lemma length_join_replicate {A : Type} (n : nat) (l : list A) :
  length (mjoin (replicate n l)) = (n * length l)%nat.
Proof.
  induction n as [|n IH]; [reflexivity |].
  change (mjoin (replicate (S n) l)) with (l ++ mjoin (replicate n l)).
  rewrite length_app, IH. reflexivity.
Qed.

Lemma solid_frame_wf (W H : Z) (img : Image) :
  0 <= W <= int_max -> 0 <= H <= int_max -> 4 * (W * H) <= int_max ->
  solid_frame W H img ->
  Image_wf img /\ at_origin img /\ Bounds img = Rect 0 0 W H.
Proof.
  intros HW HH Ha Hs. pose proof (Rect_wf_origin W H HW HH Ha) as Hr.
  destruct Hs as [r g b a | c]; (split; [| split; reflexivity]).
  - split; cbn; [exact Hr | rewrite Z.sub_0_r; lia |].
    rewrite !Z.sub_0_r. intros HW' HH'.
    rewrite length_join_replicate. cbn [length]. nia.
  - exact Hr.
Qed.

(** *** C10: the index [y*width + x] of raw RGB24 *)

Lemma off_origin_frame_wf : Image_wf off_origin_frame.
Proof.
  split; [split |..]; cbn; unfold in_int, int_min, int_max; lia.
Qed.

(** C10.  For a well-formed frame whose bounds start at (0,0), every index
    [RGB24Format.Encode] computes from [i := y*bounds.Dx() + x] is in range:
    the window [buf[i*3:i*3+3]] lies inside the buffer of [Dx*Dy*3] bytes and,
    for an [*image.RGBA], the window [Pix[i*4:i*4+3]] lies inside the pixel
    data; so the loops run without a panic and hand [Write] that buffer.
    The origin is needed: on the well-formed one pixel frame with bounds
    (1,1)-(2,2) the same loops index out of range. *)
Theorem RGB24_Encode_in_range (img : Image)
    (Hwf : Image_wf img) (Horigin : at_origin img) :
  (forall x y,
      X (Min (Bounds img)) <= x < X (Max (Bounds img)) ->
      Y (Min (Bounds img)) <= y < Y (Max (Bounds img)) ->
      (0 <= mul (RGB24_index (Bounds img) x y) 3 /\
       add (mul (RGB24_index (Bounds img) x y) 3) 3
         <= mul (mul (Dx (Bounds img)) (Dy (Bounds img))) 3) /\
      (forall rgba, img = ImageRGBA rgba ->
         0 <= mul (RGB24_index (Bounds img) x y) 4 /\
         add (mul (RGB24_index (Bounds img) x y) 4) 3 <= Z.of_nat (length (Pix rgba)))) /\
  (forall f w, exists buf,
      RGB24Format_Encode f w img = Some (Writer_Write w buf) /\
      Z.of_nat (length buf) = mul (mul (Dx (Bounds img)) (Dy (Bounds img))) 3) /\
  (Image_wf off_origin_frame /\ ~ at_origin off_origin_frame /\
   forall f w, RGB24Format_Encode f w off_origin_frame = None).
Proof.
  pose proof (Image_wf_bounds img Hwf) as Hr.
  pose proof Horigin as Hmin. unfold at_origin in Hmin.
  destruct (origin_dims _ Hr Hmin) as (HDx & HDy & HW & HH & Harea).
  assert (Hsize : mul (mul (Dx (Bounds img)) (Dy (Bounds img))) 3
                  = X (Max (Bounds img)) * Y (Max (Bounds img)) * 3).
  { rewrite HDx, HDy. unfold int_max in Harea.
    assert (0 <= X (Max (Bounds img)) * Y (Max (Bounds img))) by nia.
    rewrite (mul_small (X (Max (Bounds img)))) by (unfold int_min, int_max; lia).
    rewrite mul_small by (unfold int_min, int_max; lia). reflexivity. }
  split; [| split].
  - intros x y Hx Hy. rewrite Hmin in Hx, Hy. cbn [X Y] in Hx, Hy.
    destruct (RGB24_index_origin _ x y Hr Hmin Hx Hy) as (Hi & Hib).
    rewrite Hsize. set (i := RGB24_index (Bounds img) x y) in *.
    unfold int_max in Harea.
    rewrite !(mul_small i) by (unfold int_min, int_max; lia).
    rewrite !add_small by (unfold int_min, int_max; lia).
    split; [lia |]. intros rgba ->. cbn [Bounds] in *.
    pose proof (RGBA_wf_pix_length rgba Hwf) as Hpix.
    rewrite Hmin in Hpix. cbn [X Y] in Hpix. rewrite !Z.sub_0_r in Hpix.
    specialize (Hpix ltac:(lia) ltac:(lia)). lia.
  - intros f w. destruct (RGB24_fill_ok img Hwf Horigin) as (buf & Hbuf & Hlen).
    exists buf. unfold RGB24Format_Encode. rewrite Hbuf. cbn.
    split; [reflexivity |]. rewrite Hsize, Hlen, HDx, HDy. reflexivity.
  - split; [exact off_origin_frame_wf |]. split; [discriminate |].
    intros f w. reflexivity.
Qed.

(** *** C8: the size of a raw dump *)

(** C8.  For a solid-colour frame of [W] by [H] pixels, [RGB24Format.Encode]
    reaches the sink through one [Write] of exactly [W*H*3] bytes and
    [RGBA32Format.Encode] through one [Write] of exactly [W*H*4] bytes;
    nothing else is written, so there is no header. *)
Theorem raw_Encode_solid_size (W H : Z) (img : Image)
    (f24 : RGB24Format) (f32 : RGBA32Format) (w : Sink) :
  0 <= W <= int_max -> 0 <= H <= int_max -> 4 * (W * H) <= int_max ->
  solid_frame W H img ->
  (exists buf, RGB24Format_Encode f24 w img = Some (Writer_Write w buf) /\
               Z.of_nat (length buf) = W * H * 3) /\
  (exists buf, RGBA32Format_Encode f32 w img = Some (Writer_Write w buf) /\
               Z.of_nat (length buf) = W * H * 4).
Proof.
  intros HW HH Ha Hs.
  destruct (solid_frame_wf W H img HW HH Ha Hs) as (Hwf & Ho & Hb).
  pose proof (Image_wf_bounds img Hwf) as Hr.
  destruct (origin_dims _ Hr Ho) as (HDx & HDy & _).
  rewrite Hb in HDx, HDy. change (Dx (Rect 0 0 W H) = W) in HDx.
  change (Dy (Rect 0 0 W H) = H) in HDy.
  split.
  - destruct (RGB24_fill_ok img Hwf Ho) as (buf & Hbuf & Hlen).
    exists buf. unfold RGB24Format_Encode. rewrite Hbuf. cbn.
    split; [reflexivity |]. rewrite Hlen, Hb, HDx, HDy. reflexivity.
  - unfold RGBA32Format_Encode. eexists. split; [reflexivity |].
    destruct Hs as [r g b a | c]; cbn [RGBA32_flatten solid_RGBA solid_Other Pix].
    + rewrite length_join_replicate. cbn [length]. nia.
    + unfold draw_Draw, NewRGBA. cbn [Pix Bounds].
      rewrite length_imap, length_replicate, Hb, HDx, HDy. nia.
Qed.

(** *** C5: the end of [EncodeAnimation] *)

Lemma write_chunks_stops (w w' : Sink) (chunks : list (list Z)) (e : error) :
  write_chunks w chunks = (w', Some e) ->
  exists pre c post w1,
    chunks = pre ++ c :: post /\
    write_chunks w pre = (w1, None) /\
    Writer_Write w1 c = (w', Some e).
Proof.
  revert w. induction chunks as [|c cs IH]; intros w Hw; cbn in Hw; [discriminate |].
  destruct (Writer_Write w c) as [w1 [e1|]] eqn:Hc.
  - inversion Hw; subst. exists [], c, cs, w. repeat split; [exact Hc].
  - destruct (IH w1 Hw) as (pre & c' & post & w2 & -> & Hpre & Hfail).
    exists (c :: pre), c', post, w2. cbn. rewrite Hc. repeat split; assumption.
Qed.

(** The shared loop returns [nil] only with the stream used up, and an error
    only as the result of encoding the last frame it received, every frame
    before that one having been encoded without error. *)
Lemma range_Encode_ends (enc : Sink -> Image -> option (Sink * option error))
    (stream : list Image) :
  forall w,
    Forall (fun img => forall w0, is_Some (enc w0 img)) stream ->
    exists w' rest err,
      range_Encode enc w stream = Some (w', rest, err) /\
      match err with
      | None => rest = []
      | Some e =>
          exists pre img w1,
            stream = pre ++ img :: rest /\
            range_Encode enc w pre = Some (w1, [], None) /\
            enc w1 img = Some (w', Some e)
      end.
Proof.
  induction stream as [|img rest IH]; intros w Hsafe.
  - exists w, [], None. split; reflexivity.
  - inversion Hsafe as [|? ? Himg Hrest]; subst.
    destruct (Himg w) as [[w1 [e|]] Henc].
    + exists w1, rest, (Some e). cbn. rewrite Henc. cbn. split; [reflexivity |].
      exists [], img, w. repeat split; [exact Henc].
    + destruct (IH w1 Hrest) as (w' & rest' & err & Hrun & Hend).
      exists w', rest', err. cbn. rewrite Henc. cbn. split; [exact Hrun |].
      destruct err as [e|]; [| exact Hend].
      destruct Hend as (pre & img' & w2 & -> & Hpre & Hfail).
      exists (img :: pre), img', w2. cbn. rewrite Henc. cbn.
      repeat split; assumption.
Qed.

Lemma AnsiDisplay_EncodeAnimation_ends (stream : list Image) (interval : Duration) :
  forall f w,
    exists f' w' rest err,
      AnsiDisplay_EncodeAnimation f w stream interval = Some (f', w', rest, err) /\
      match err with
      | None => rest = []
      | Some e =>
          exists pre img f1 w1,
            stream = pre ++ img :: rest /\
            AnsiDisplay_EncodeAnimation f w pre interval = Some (f1, w1, [], None) /\
            AnsiDisplay_EncodeAnimation f1 w1 [img] interval = Some (f', w', [], Some e)
      end.
Proof.
  induction stream as [|img rest IH]; intros f w.
  - exists f, w, [], None. split; reflexivity.
  - cbn [AnsiDisplay_EncodeAnimation].
    destruct (Writer_Write w (bytes_of_string (snd (Ansi_frame f img))))
      as [w1 [e|]] eqn:Hw.
    + exists (fst (Ansi_frame f img)), w1, rest, (Some e). split; [reflexivity |].
      exists [], img, f, w. cbn. rewrite Hw. repeat split.
    + destruct (IH (fst (Ansi_frame f img)) w1) as (f' & w' & rest' & err & Hrun & Hend).
      exists f', w', rest', err. split; [exact Hrun |].
      destruct err as [e|]; [| exact Hend].
      destruct Hend as (pre & img' & f2 & w2 & -> & Hpre & Hfail).
      exists (img :: pre), img', f2, w2. cbn. rewrite Hw.
      repeat split; assumption.
Qed.

Lemma stateless_range_ends (fmt : Format)
    (enc : Sink -> Image -> option (Sink * option error))
    (w : Sink) (stream : list Image) :
  Forall (fun img => forall w0, is_Some (enc w0 img)) stream ->
  exists w' rest err,
    stateless_anim fmt (range_Encode enc w stream) = Some (fmt, w', rest, err) /\
    match err with
    | None => rest = []
    | Some e =>
        exists pre img w1,
          stream = pre ++ img :: rest /\
          stateless_anim fmt (range_Encode enc w pre) = Some (fmt, w1, [], None) /\
          stateless_anim fmt (range_Encode enc w1 [img]) = Some (fmt, w', [], Some e)
    end.
Proof.
  intros Hsafe.
  destruct (range_Encode_ends enc stream w Hsafe) as (w' & rest & err & Hrun & Hend).
  exists w', rest, err. rewrite Hrun. split; [reflexivity |].
  destruct err as [e|]; [| exact Hend].
  destruct Hend as (pre & img & w1 & -> & Hpre & Hfail).
  exists pre, img, w1. rewrite Hpre. cbn. rewrite Hfail. repeat split.
Qed.

(** [EncodeAnimation] returns, with [nil] and the stream used up or with
    an error that is the failure of a frame it received. *)
Lemma EncodeAnimation_ends (fmt : Format) (w : Sink)
    (stream : list Image) (interval : Duration) :
  frames_encodable fmt stream ->
  exists fmt' w' rest err,
    Format_EncodeAnimation fmt w stream interval = Some (fmt', w', rest, err) /\
    stops_at_first_failure fmt w stream interval fmt' w' rest err.
Proof.
  intros Hok. unfold stops_at_first_failure.
  destruct fmt as [f | f | f | f | f | f]; cbn [Format_EncodeAnimation].
  - destruct (stateless_range_ends (FormatPNG f) (PNGFormat_Encode f) w stream)
      as (w' & rest & err & Hrun & Hend).
    { apply Forall_forall. intros img _ w0. eexists. reflexivity. }
    exists (FormatPNG f), w', rest, err. split; [exact Hrun |].
    destruct err as [e|]; [| exact Hend].
    destruct Hend as (pre & img & w1 & Hs & Hpre & Hfail). eauto 10.
  - destruct (stateless_range_ends (FormatJPG f) (JPGFormat_Encode f) w stream)
      as (w' & rest & err & Hrun & Hend).
    { apply Forall_forall. intros img _ w0. eexists. reflexivity. }
    exists (FormatJPG f), w', rest, err. split; [exact Hrun |].
    destruct err as [e|]; [| exact Hend].
    destruct Hend as (pre & img & w1 & Hs & Hpre & Hfail). eauto 10.
  - destruct (stateless_range_ends (FormatRGB24 f) (RGB24Format_Encode f) w stream)
      as (w' & rest & err & Hrun & Hend).
    { destruct Hok as [Hwf Ho]. apply Forall_forall. intros img Hin w0.
      unfold RGB24Format_Encode.
      destruct (RGB24_fill_ok img (proj1 (Forall_forall _ _) Hwf img Hin)
                  (proj1 (Forall_forall _ _) Ho img Hin)) as (buf & -> & _).
      eexists. reflexivity. }
    exists (FormatRGB24 f), w', rest, err. split; [exact Hrun |].
    destruct err as [e|]; [| exact Hend].
    destruct Hend as (pre & img & w1 & Hs & Hpre & Hfail). eauto 10.
  - destruct (stateless_range_ends (FormatRGBA32 f) (RGBA32Format_Encode f) w stream)
      as (w' & rest & err & Hrun & Hend).
    { apply Forall_forall. intros img _ w0. eexists. reflexivity. }
    exists (FormatRGBA32 f), w', rest, err. split; [exact Hrun |].
    destruct err as [e|]; [| exact Hend].
    destruct Hend as (pre & img & w1 & Hs & Hpre & Hfail). eauto 10.
  - unfold GIFFormat_EncodeAnimation.
    destruct (write_chunks w (fst (gif_chunks (GIF_collect stream interval))))
      as [w' [e|]] eqn:Hw.
    + exists (FormatGIF f), w', [], (Some e). split; [reflexivity |].
      split; [reflexivity |]. left. apply write_chunks_stops. exact Hw.
    + exists (FormatGIF f), w', [], (snd (gif_chunks (GIF_collect stream interval))).
      split; [reflexivity |].
      destruct (snd (gif_chunks (GIF_collect stream interval))) as [e|] eqn:He;
        [| reflexivity].
      split; [reflexivity |]. right. split; [exact Hw | exact He].
  - destruct (AnsiDisplay_EncodeAnimation_ends stream interval f w)
      as (f' & w' & rest & err & Hrun & Hend).
    exists (FormatAnsi f'), w', rest, err. rewrite Hrun. split; [reflexivity |].
    destruct err as [e|]; [| exact Hend].
    destruct Hend as (pre & img & f1 & w1 & -> & Hpre & Hfail).
    exists pre, img, (FormatAnsi f1), w1. cbn [Format_EncodeAnimation].
    rewrite Hpre, Hfail. repeat split.
Qed.

Lemma write_chunks_fails (w w1 w' : Sink) (pre post : list (list Z))
    (c : list Z) (e : error) :
  write_chunks w pre = (w1, None) ->
  Writer_Write w1 c = (w', Some e) ->
  write_chunks w (pre ++ c :: post) = (w', Some e).
Proof.
  revert w. induction pre as [|c0 pre IH]; intros w Hpre Hc; cbn in Hpre |- *.
  - injection Hpre as <-. rewrite Hc. reflexivity.
  - destruct (Writer_Write w c0) as [w0 [e0|]]; [discriminate |].
    exact (IH w0 Hpre Hc).
Qed.

Lemma codec_failure_lib_Encode (codec : Image -> list (list Z) * option error)
    (w w' : Sink) (img : Image) (e : error) :
  codec_failure w (codec img) w' e -> lib_Encode codec w img = (w', Some e).
Proof.
  unfold codec_failure, lib_Encode.
  intros [(pre & c & post & w1 & -> & Hpre & Hc) | [Hall Hown]].
  - rewrite (write_chunks_fails w w1 w' pre post c e Hpre Hc). reflexivity.
  - rewrite Hall. rewrite Hown. reflexivity.
Qed.

(** A frame that goes through leaves the loop with the rest of the stream;
    a frame that fails ends the call with that failure and the rest of the
    stream not received. *)
Lemma frame_passes_step (fmt fmt1 : Format) (w w1 : Sink) (img : Image)
    (rest : list Image) (interval : Duration) :
  frame_passes fmt w img fmt1 w1 ->
  Format_EncodeAnimation fmt w (img :: rest) interval
  = Format_EncodeAnimation fmt1 w1 rest interval.
Proof.
  destruct fmt as [f | f | f | f | f | f]; cbn [frame_passes].
  - intros (-> & Hw & Hown).
    assert (He : PNGFormat_Encode f w img = Some (w1, None)).
    { unfold PNGFormat_Encode, lib_Encode. rewrite Hw, Hown. reflexivity. }
    cbn [Format_EncodeAnimation]. unfold PNGFormat_EncodeAnimation.
    cbn [range_Encode]. rewrite He. reflexivity.
  - intros (-> & Hw & Hown).
    assert (He : JPGFormat_Encode f w img = Some (w1, None)).
    { unfold JPGFormat_Encode, lib_Encode. rewrite Hw, Hown. reflexivity. }
    cbn [Format_EncodeAnimation]. unfold JPGFormat_EncodeAnimation.
    cbn [range_Encode]. rewrite He. reflexivity.
  - intros (-> & buf & Hfill & Hw).
    assert (He : RGB24Format_Encode f w img = Some (w1, None)).
    { unfold RGB24Format_Encode. rewrite Hfill. cbn. rewrite Hw. reflexivity. }
    cbn [Format_EncodeAnimation]. unfold RGB24Format_EncodeAnimation.
    cbn [range_Encode]. rewrite He. reflexivity.
  - intros (-> & Hw).
    assert (He : RGBA32Format_Encode f w img = Some (w1, None)).
    { unfold RGBA32Format_Encode. rewrite Hw. reflexivity. }
    cbn [Format_EncodeAnimation]. unfold RGBA32Format_EncodeAnimation.
    cbn [range_Encode]. rewrite He. reflexivity.
  - intros [].
  - intros (-> & Hw). cbn [Format_EncodeAnimation AnsiDisplay_EncodeAnimation].
    rewrite Hw. reflexivity.
Qed.

Lemma frame_fails_step (fmt : Format) (w w' : Sink) (img : Image)
    (rest : list Image) (interval : Duration) (e : error) :
  frame_fails fmt w img w' e ->
  exists fmt',
    Format_EncodeAnimation fmt w (img :: rest) interval
    = Some (fmt', w', rest, Some e).
Proof.
  destruct fmt as [f | f | f | f | f | f]; cbn [frame_fails].
  - intros Hf. exists (FormatPNG f).
    assert (He : PNGFormat_Encode f w img = Some (w', Some e)).
    { unfold PNGFormat_Encode.
      rewrite (codec_failure_lib_Encode png_chunks w w' img e Hf). reflexivity. }
    cbn [Format_EncodeAnimation]. unfold PNGFormat_EncodeAnimation.
    cbn [range_Encode]. rewrite He. reflexivity.
  - intros Hf. exists (FormatJPG f).
    assert (He : JPGFormat_Encode f w img = Some (w', Some e)).
    { unfold JPGFormat_Encode.
      rewrite (codec_failure_lib_Encode jpeg_chunks w w' img e Hf). reflexivity. }
    cbn [Format_EncodeAnimation]. unfold JPGFormat_EncodeAnimation.
    cbn [range_Encode]. rewrite He. reflexivity.
  - intros (buf & Hfill & Hw). exists (FormatRGB24 f).
    assert (He : RGB24Format_Encode f w img = Some (w', Some e)).
    { unfold RGB24Format_Encode. rewrite Hfill. cbn. rewrite Hw. reflexivity. }
    cbn [Format_EncodeAnimation]. unfold RGB24Format_EncodeAnimation.
    cbn [range_Encode]. rewrite He. reflexivity.
  - intros Hw. exists (FormatRGBA32 f).
    assert (He : RGBA32Format_Encode f w img = Some (w', Some e)).
    { unfold RGBA32Format_Encode. rewrite Hw. reflexivity. }
    cbn [Format_EncodeAnimation]. unfold RGBA32Format_EncodeAnimation.
    cbn [range_Encode]. rewrite He. reflexivity.
  - intros [].
  - intros Hw. exists (FormatAnsi (fst (Ansi_frame f img))).
    cbn [Format_EncodeAnimation AnsiDisplay_EncodeAnimation].
    rewrite Hw. reflexivity.
Qed.

Lemma frames_pass_run (interval : Duration) (pre rest : list Image) :
  forall fmt w fmt1 w1,
    frames_pass fmt w pre fmt1 w1 ->
    Format_EncodeAnimation fmt w (pre ++ rest) interval
    = Format_EncodeAnimation fmt1 w1 rest interval.
Proof.
  induction pre as [|img pre IH]; intros fmt w fmt1 w1; cbn [frames_pass app].
  - intros [-> ->]. reflexivity.
  - intros (fmt0 & w0 & Hpass & Hrest).
    rewrite (frame_passes_step fmt fmt0 w w0 img (pre ++ rest) interval Hpass).
    exact (IH fmt0 w0 fmt1 w1 Hrest).
Qed.

(** C5.  [EncodeAnimation] of every format returns, on every finite frame
    sequence.  It returns [nil] only once the sequence has ended, and an
    error only as the failure of a frame it received.  And it does return
    the first failure: when the frames before [img] went through, each
    [Write] made for them succeeding, and a [Write] made for [img] fails with
    [e], the call returns [e], the sink is as that [Write] left it, and the
    frames after [img] are still in the stream; when every frame goes
    through it returns [nil].  GIF only writes once the sequence has ended:
    it returns the first failure of [gif.EncodeAll] then, and [nil] when
    there is none. *)
Theorem EncodeAnimation_stops_at_first_failure (fmt : Format) (w : Sink)
    (stream : list Image) (interval : Duration) :
  frames_encodable fmt stream ->
  (exists fmt' w' rest err,
      Format_EncodeAnimation fmt w stream interval = Some (fmt', w', rest, err) /\
      stops_at_first_failure fmt w stream interval fmt' w' rest err) /\
  match fmt with
  | FormatGIF _ =>
      (forall w' e,
          gif_failure w (GIF_collect stream interval) w' e ->
          Format_EncodeAnimation fmt w stream interval
          = Some (fmt, w', [], Some e)) /\
      (forall w',
          write_chunks w (fst (gif_chunks (GIF_collect stream interval)))
          = (w', None) ->
          snd (gif_chunks (GIF_collect stream interval)) = None ->
          Format_EncodeAnimation fmt w stream interval
          = Some (fmt, w', [], None))
  | _ =>
      (forall pre img rest fmt1 w1 w' e,
          stream = pre ++ img :: rest ->
          frames_pass fmt w pre fmt1 w1 ->
          frame_fails fmt1 w1 img w' e ->
          exists fmt',
            Format_EncodeAnimation fmt w stream interval
            = Some (fmt', w', rest, Some e)) /\
      (forall fmt' w',
          frames_pass fmt w stream fmt' w' ->
          Format_EncodeAnimation fmt w stream interval
          = Some (fmt', w', [], None))
  end.
Proof.
  intros Hok. split; [exact (EncodeAnimation_ends fmt w stream interval Hok) |].
  assert (Hfail : forall pre img rest fmt1 w1 w' e,
            stream = pre ++ img :: rest ->
            frames_pass fmt w pre fmt1 w1 ->
            frame_fails fmt1 w1 img w' e ->
            exists fmt',
              Format_EncodeAnimation fmt w stream interval
              = Some (fmt', w', rest, Some e)).
  { intros pre img rest fmt1 w1 w' e -> Hpre Hf.
    rewrite (frames_pass_run interval pre (img :: rest) fmt w fmt1 w1 Hpre).
    exact (frame_fails_step fmt1 w1 w' img rest interval e Hf). }
  assert (Hpass : forall fmt' w',
            (forall f, fmt' <> FormatGIF f) ->
            frames_pass fmt w stream fmt' w' ->
            Format_EncodeAnimation fmt w stream interval
            = Some (fmt', w', [], None)).
  { intros fmt' w' Hng Hall.
    rewrite <- (app_nil_r stream).
    rewrite (frames_pass_run interval stream [] fmt w fmt' w' Hall).
    destruct fmt' as [f | f | f | f | f | f]; try reflexivity.
    exfalso. exact (Hng f eq_refl). }
  assert (Hkind : forall pre fmt0 w0 fmt1 w1,
            frames_pass fmt0 w0 pre fmt1 w1 ->
            (forall f, fmt0 <> FormatGIF f) -> forall f, fmt1 <> FormatGIF f).
  { clear. induction pre as [|img pre IH]; intros fmt0 w0 fmt1 w1; cbn.
    - intros [-> _] H. exact H.
    - intros (fmt2 & w2 & Hp & Hrest) Hng. apply (IH fmt2 w2 fmt1 w1 Hrest).
      destruct fmt0 as [f0 | f0 | f0 | f0 | f0 | f0]; cbn in Hp;
        try (destruct Hp as [-> _]; discriminate);
        try (destruct Hp as [-> _]; exact Hng).
      destruct Hp. }
  destruct fmt as [f | f | f | f | f | f];
    try (split; [exact Hfail |];
         intros fmt' w' Hall; apply Hpass; [|exact Hall];
         apply (Hkind stream _ w fmt' w' Hall); discriminate).
  split.
  - intros w' e Hg. cbn [Format_EncodeAnimation].
    unfold GIFFormat_EncodeAnimation.
    destruct Hg as [(pre & c & post & w1 & Hc & Hpre & Hw) | [Hall Hown]].
    + rewrite Hc, (write_chunks_fails w w1 w' pre post c e Hpre Hw). reflexivity.
    + rewrite Hall, Hown. reflexivity.
  - intros w' Hall Hown. cbn [Format_EncodeAnimation].
    unfold GIFFormat_EncodeAnimation. rewrite Hall, Hown. reflexivity.
Qed.

(** *** C9: the GIF delay and loop count *)

Lemma GIF_collect_from (interval : Duration) (stream : list Image) (g : GIF) :
  GIF_Delay (foldl (GIF_append interval) g stream)
    = GIF_Delay g ++ replicate (length stream) (GIF_delay interval) /\
  GIF_LoopCount (foldl (GIF_append interval) g stream) = GIF_LoopCount g /\
  length (GIF_Image (foldl (GIF_append interval) g stream))
    = (length (GIF_Image g) + length stream)%nat.
Proof.
  revert g. induction stream as [|img rest IH]; intros g; cbn [foldl length replicate].
  - rewrite app_nil_r, Nat.add_0_r. repeat split.
  - destruct (IH (GIF_append interval g img)) as (Hd & Hl & Hn).
    rewrite Hd, Hl, Hn. cbn [GIF_append GIF_Delay GIF_LoopCount GIF_Image].
    rewrite <- app_assoc, length_app. cbn [length app].
    repeat split. lia.
Qed.

(** C9.  For every pacing interval (an [int64] of nanoseconds) each frame
    of the [gif.GIF] handed to [gif.EncodeAll] carries the delay
    [interval / 10ms], the quotient truncated toward zero: 50 for 500ms and 0
    for 0.  There is one delay per frame, and [LoopCount] is 0, the value
    [image/gif] reads as looping forever. *)
Theorem GIF_delay_hundredths (interval : Duration) (stream : list Image) :
  int_min <= interval <= int_max ->
  GIF_Delay (GIF_collect stream interval)
    = replicate (length stream) (interval `quot` 10000000) /\
  length (GIF_Image (GIF_collect stream interval)) = length stream /\
  gif_looping (GIF_LoopCount (GIF_collect stream interval)) = LoopForever /\
  GIF_delay (500 * Millisecond) = 50 /\
  GIF_delay 0 = 0.
Proof.
  intros Hi. unfold GIF_collect.
  destruct (GIF_collect_from interval stream (mkGIF [] [] 0 [] 0)) as (Hd & Hl & Hn).
  rewrite Hd, Hl, Hn. cbn [GIF_Delay GIF_LoopCount GIF_Image app length Nat.add].
  assert (Hq : GIF_delay interval = interval `quot` 10000000).
  { unfold GIF_delay, div. change (Second / 100) with 10000000.
    apply wrap_small. unfold int_min, int_max in *.
    Z.quot_rem_to_equations. lia. }
  rewrite Hq. repeat split.
Qed.

(** *** The ANSI display *)

Lemma append_cons (a : ascii) (s t : string) :
  String a s +:+ t = String a (s +:+ t).
Proof. reflexivity. Qed.

Lemma append_assoc (s t u : string) : (s +:+ t) +:+ u = s +:+ (t +:+ u).
Proof.
  induction s as [|a s IH]; [reflexivity |].
  rewrite !append_cons, IH. reflexivity.
Qed.

Lemma append_empty_r (s : string) : s +:+ EmptyString = s.
Proof.
  induction s as [|a s IH]; [reflexivity |]. rewrite append_cons, IH. reflexivity.
Qed.

Lemma bytes_of_string_app (s t : string) :
  bytes_of_string (s +:+ t) = bytes_of_string s ++ bytes_of_string t.
Proof.
  unfold bytes_of_string.
  induction s as [|a s IH]; [reflexivity |].
  rewrite append_cons. cbn [list_ascii_of_string]. rewrite !fmap_cons, IH.
  reflexivity.
Qed.

(** Each loop only appends to the buffer it is given. *)
Lemma Ansi_row_appends (img : Image) (width y : Z) (buf : string) :
  Ansi_row img width y buf = buf +:+ Ansi_row img width y EmptyString.
Proof.
  unfold Ansi_row. rewrite <- append_assoc. f_equal.
  generalize (seqZ 0 width). intros xs. revert buf.
  induction xs as [|x xs IH] using rev_ind; intros buf.
  - cbn. rewrite append_empty_r. reflexivity.
  - rewrite !foldl_snoc. unfold Ansi_cell at 1 3.
    rewrite IH, append_assoc. reflexivity.
Qed.

Lemma Ansi_rows_appends (img : Image) (width height : Z) (buf : string) :
  Ansi_rows img width height buf = buf +:+ Ansi_rows img width height EmptyString.
Proof.
  unfold Ansi_rows.
  generalize (seqZ 0 (add (div height 2) (Z.land height 1))). intros ys. revert buf.
  induction ys as [|y ys IH] using rev_ind; intros buf.
  - cbn. rewrite append_empty_r. reflexivity.
  - rewrite !foldl_snoc.
    rewrite (Ansi_row_appends img width y (foldl _ buf ys)).
    rewrite (Ansi_row_appends img width y (foldl _ EmptyString ys)).
    rewrite IH, append_assoc. reflexivity.
Qed.

Lemma Ansi_frame_text (f : AnsiDisplay) (img : Image) :
  Ansi_frame f img =
    if initDone f
    then (f, ansi_home +:+ Ansi_body img)
    else (mkAnsiDisplay true, ansi_clear +:+ Ansi_body img).
Proof.
  unfold Ansi_frame, Ansi_body. destruct (initDone f); cbn [negb];
    rewrite Ansi_rows_appends; reflexivity.
Qed.

(** *** C4: the background of an odd last row *)

(** C4, as the code has it.  In a frame of odd height the last output row
    [y = height/2] has no lower pixel row, and the background escape written
    for each of its cells is the literal [ESC "[48;2;0m"], with one colour
    component; it is not [ESC "[48;2;0;0;0m"], the escape a black pixel
    gets. *)
Theorem Ansi_odd_last_row_background (img : Image) (x : Z) :
  0 < Dy (Bounds img) ->
  Z.land (Dy (Bounds img)) 1 = 1 ->
  add (div (Dy (Bounds img)) 2) (Z.land (Dy (Bounds img)) 1)
    = div (Dy (Bounds img)) 2 + 1 /\
  Ansi_background img (div (Dy (Bounds img)) 2) x = ESC +:+ "[48;2;0m" /\
  Ansi_background img (div (Dy (Bounds img)) 2) x <> ansi_bg 0 0 0.
Proof.
  intros Hpos Hodd.
  assert (Hr : int_min <= Dy (Bounds img) <= int_max) by apply wrap_range.
  set (h := Dy (Bounds img)) in *.
  assert (Hmod : h mod 2 = 1).
  { rewrite <- Hodd. symmetry. apply (Z.land_ones h 1). lia. }
  assert (Hq : div h 2 = h / 2).
  { unfold div. rewrite Z.quot_div_nonneg by lia.
    apply wrap_small. unfold int_min, int_max in *.
    pose proof (Z.div_mod h 2 ltac:(lia)). lia. }
  pose proof (Z.div_mod h 2 ltac:(lia)) as Hdm.
  unfold int_min, int_max in Hr.
  assert (Hbg : Ansi_background img (div h 2) x = ESC +:+ "[48;2;0m").
  { unfold Ansi_background. fold h. rewrite Hq.
    rewrite mul_small by (unfold int_min, int_max; lia).
    rewrite add_small by (unfold int_min, int_max; lia).
    rewrite decide_False by lia. reflexivity. }
  split; [| split].
  - rewrite Hodd, Hq. apply add_small. unfold int_min, int_max. lia.
  - exact Hbg.
  - rewrite Hbg. vm_compute. discriminate.
Qed.

End Formats.

(** ** The encoders writing to a [bytes.Buffer] *)

(** Two frames used as concrete inputs: a white pixel, and two pixels side
    by side. *)
Definition white_pixel : Image :=
  ImageRGBA (mkRGBA [255; 255; 255; 255] 4 (Rect 0 0 1 1)).

Definition two_pixels : Image :=
  ImageRGBA (mkRGBA [1; 2; 3; 255; 4; 5; 6; 255] 8 (Rect 0 0 2 1)).

(** A sink with room for [n] more writes: the next one after that fails. *)
Definition Quota := (nat * list Z)%type.
Definition Quota_Write (q : Quota) (p : list Z) : Quota * option error :=
  match fst q with
  | O => (q, Some "short write"%string)
  | S n => ((n, snd q ++ p), None)
  end.

(** An instance is used through [Encode] and [EncodeAnimation] calls made
    one after another on the same display and the same buffer. *)
Inductive AnsiCall :=
| CallEncode (img : Image)
| CallEncodeAnimation (stream : list Image) (interval : Duration).

Definition AnsiDisplay_call (c : AnsiCall) (st : AnsiDisplay * Buffer)
  : option (AnsiDisplay * Buffer) :=
  match c with
  | CallEncode img =>
      r ← AnsiDisplay_Encode Buffer_Write (fst st) (snd st) img;
      Some (fst (fst r), snd (fst r))
  | CallEncodeAnimation stream interval =>
      r ← AnsiDisplay_EncodeAnimation Buffer_Write (fst st) (snd st) stream interval;
      Some (fst (fst (fst r)), snd (fst (fst r)))
  end.

Definition AnsiDisplay_calls (cs : list AnsiCall) (st : AnsiDisplay * Buffer)
  : option (AnsiDisplay * Buffer) :=
  loopM AnsiDisplay_call cs st.

(** How often the byte sequence [pat] occurs in [s]. *)
Fixpoint occurrences (pat s : list Z) : nat :=
  match s with
  | [] => 0
  | _ :: s' =>
      ((if decide (take (length pat) s = pat) then 1 else 0) + occurrences pat s')%nat
  end.

(** *** C3: the clear sequence *)

Lemma AnsiDisplay_Encode_Buffer (f : AnsiDisplay) (b : Buffer) (img : Image) :
  AnsiDisplay_Encode Buffer_Write f b img
  = Some (f, b ++ bytes_of_string (snd (Ansi_frame f img)), None).
Proof. reflexivity. Qed.

(** C3, as the code has it.  [Encode] works on a copy of the display, so
    [initDone] of the display itself is still false after it: two [Encode]
    calls through one fresh display both begin their output with the clear
    sequence, and the display is left as it was. *)
Theorem AnsiDisplay_Encode_clears_again (img1 img2 : Image) :
  AnsiDisplay_calls [CallEncode img1; CallEncode img2] (mkAnsiDisplay false, [])
  = Some (mkAnsiDisplay false,
          (bytes_of_string ansi_clear ++ bytes_of_string (Ansi_body img1)) ++
          (bytes_of_string ansi_clear ++ bytes_of_string (Ansi_body img2))).
Proof.
  unfold AnsiDisplay_calls. cbn [loopM AnsiDisplay_call fst snd].
  rewrite AnsiDisplay_Encode_Buffer. cbn [mbind option_bind fst snd].
  rewrite AnsiDisplay_Encode_Buffer. cbn [mbind option_bind fst snd].
  rewrite !Ansi_frame_text. cbn [initDone snd app].
  rewrite !bytes_of_string_app. reflexivity.
Qed.

(** On the one pixel frame the clear sequence is in the output twice. *)
Example AnsiDisplay_Encode_twice_clear_count :
  (fun st => occurrences (bytes_of_string ansi_clear) (snd st))
    <$> AnsiDisplay_calls [CallEncode white_pixel; CallEncode white_pixel]
          (mkAnsiDisplay false, [])
  = Some 2%nat.
Proof. vm_compute. reflexivity. Qed.

(** What does hold: through [EncodeAnimation], whose receiver is a pointer,
    the first frame of a fresh display is cleared and every later frame of
    that call and of later [EncodeAnimation] calls starts with the
    cursor-home sequence. *)
Lemma AnsiDisplay_EncodeAnimation_Buffer (stream : list Image) (interval : Duration) :
  forall (f : AnsiDisplay) (b : Buffer),
    AnsiDisplay_EncodeAnimation Buffer_Write f b stream interval
    = Some (match stream with [] => f | _ => mkAnsiDisplay true end,
            b ++ match stream with
                 | [] => []
                 | img :: rest =>
                     bytes_of_string
                       ((if initDone f then ansi_home else ansi_clear) +:+ Ansi_body img)
                     ++ mjoin ((fun i => bytes_of_string (ansi_home +:+ Ansi_body i))
                               <$> rest)
                 end,
            [], None).
Proof.
  induction stream as [|img rest IH]; intros f b.
  - cbn. rewrite app_nil_r. reflexivity.
  - cbn [AnsiDisplay_EncodeAnimation Buffer_Write].
    rewrite IH, Ansi_frame_text.
    destruct f as [[|]]; cbn [initDone fst snd]; destruct rest as [|img' rest'];
      cbn [fmap list_fmap mjoin list_join initDone];
      rewrite ?app_nil_r, <- ?app_assoc; reflexivity.
Qed.

(** *** C7: the single-frame fallback concatenates *)

(** The formats whose [EncodeAnimation] is the loop over [Encode]. *)
Definition single_frame_fallback (fmt : Format) : Prop :=
  match fmt with
  | FormatPNG _ | FormatJPG _ | FormatRGB24 _ | FormatRGBA32 _ => True
  | FormatGIF _ | FormatAnsi _ => False
  end.

Section BufferSink.

Variable png_chunks : Image -> list (list Z) * option error.
Variable jpeg_chunks : Image -> list (list Z) * option error.
Variable draw_Over : RGBA -> Rectangle -> Image -> Point -> nat -> Z.
Variable Plan9 : list Color.
Variable draw_Over_paletted : Paletted -> Rectangle -> Image -> Point -> nat -> Z.
Variable gif_chunks : GIF -> list (list Z) * option error.

(** The interface methods on a buffer, for the codecs above. *)
Definition Buffer_Encode (fmt : Format) (b : Buffer) (img : Image) :=
  Format_Encode Buffer_Write png_chunks jpeg_chunks draw_Over Plan9
    draw_Over_paletted gif_chunks fmt b img.

Definition Buffer_EncodeAnimation (fmt : Format) (b : Buffer)
    (stream : list Image) (interval : Duration) :=
  Format_EncodeAnimation Buffer_Write png_chunks jpeg_chunks draw_Over Plan9
    draw_Over_paletted gif_chunks fmt b stream interval.

Lemma write_chunks_Buffer (b : Buffer) (chunks : list (list Z)) :
  write_chunks Buffer_Write b chunks = (b ++ mjoin chunks, None).
Proof.
  revert b. induction chunks as [|c cs IH]; intros b; cbn.
  - rewrite app_nil_r. reflexivity.
  - rewrite IH, <- app_assoc. reflexivity.
Qed.

(** On a buffer a fallback format's [Encode] appends its output to what is
    there, whatever is there. *)
Lemma Buffer_Encode_appends (fmt : Format) (b : Buffer) (img : Image) (out : list Z) :
  single_frame_fallback fmt ->
  Buffer_Encode fmt [] img = Some (fmt, out, None) ->
  Buffer_Encode fmt b img = Some (fmt, b ++ out, None).
Proof.
  unfold Buffer_Encode.
  destruct fmt as [f | f | f | f | f | f]; cbn [single_frame_fallback Format_Encode];
    intros Hfb Hout; try contradiction.
  - revert Hout. unfold PNGFormat_Encode, lib_Encode.
    rewrite !write_chunks_Buffer. cbn. intros [= <- ->]. reflexivity.
  - revert Hout. unfold JPGFormat_Encode, lib_Encode.
    rewrite !write_chunks_Buffer. cbn. intros [= <- ->]. reflexivity.
  - revert Hout. unfold RGB24Format_Encode.
    destruct (RGB24_fill img) as [buf|]; cbn; [| discriminate].
    intros [= <-]. reflexivity.
  - revert Hout. unfold RGBA32Format_Encode. cbn. intros [= <-]. reflexivity.
Qed.

Lemma Buffer_EncodeAnimation_step (fmt : Format) (b : Buffer) (img : Image)
    (rest : list Image) (interval : Duration) (out : list Z) :
  single_frame_fallback fmt ->
  Buffer_Encode fmt b img = Some (fmt, out, None) ->
  Buffer_EncodeAnimation fmt b (img :: rest) interval
  = Buffer_EncodeAnimation fmt out rest interval.
Proof.
  unfold Buffer_Encode, Buffer_EncodeAnimation.
  destruct fmt as [f | f | f | f | f | f];
    cbn [single_frame_fallback Format_Encode Format_EncodeAnimation];
    intros Hfb Hout; try contradiction;
    unfold PNGFormat_EncodeAnimation, JPGFormat_EncodeAnimation,
      RGB24Format_EncodeAnimation, RGBA32Format_EncodeAnimation;
    cbn [range_Encode];
    match goal with
    | H : stateless _ ?e = _ |- _ =>
        destruct e as [[w' [e'|]]|] eqn:He; cbn in H; try discriminate;
        injection H as <-; reflexivity
    end.
Qed.

(** C7.  For a format with the single-frame fallback and a sequence of [N]
    frames whose independent [Encode] calls (each into an empty buffer) give
    the outputs [outs], [EncodeAnimation] into an empty buffer succeeds,
    uses up the sequence and leaves exactly the concatenation of [outs], in
    input order. *)
Theorem EncodeAnimation_fallback_concat (fmt : Format) (stream : list Image)
    (outs : list (list Z)) (interval : Duration) :
  single_frame_fallback fmt ->
  Forall2 (fun img out => Buffer_Encode fmt [] img = Some (fmt, out, None))
          stream outs ->
  Buffer_EncodeAnimation fmt [] stream interval
  = Some (fmt, mjoin outs, [], None).
Proof.
  intros Hfb Hall.
  enough (Hgen : forall b,
             Buffer_EncodeAnimation fmt b stream interval
             = Some (fmt, b ++ mjoin outs, [], None)) by apply (Hgen []).
  induction Hall as [|img out rest outs' Himg Hrest IH]; intros b.
  - cbn. rewrite app_nil_r.
    unfold Buffer_EncodeAnimation. destruct fmt; try contradiction; reflexivity.
  - rewrite (Buffer_EncodeAnimation_step fmt b img rest interval (b ++ out) Hfb
               (Buffer_Encode_appends fmt b img out Hfb Himg)).
    rewrite IH. cbn [mjoin list_join]. rewrite app_assoc. reflexivity.
Qed.

End BufferSink.

(** *** The statements at concrete inputs *)

(** Stand-ins for the library codecs where a concrete call needs them: a
    codec that writes nothing, and a [draw.Draw] that leaves the destination
    as it is. *)
Definition no_chunks {A : Type} (_ : A) : list (list Z) * option error := ([], None).
Definition draw_nothing (dst : RGBA) (_ : Rectangle) (_ : Image) (_ : Point)
    (k : nat) : Z := default 0 (Pix dst !! k).
Definition draw_nothing_paletted (dst : Paletted) (_ : Rectangle) (_ : Image)
    (_ : Point) (k : nat) : Z := default 0 (P_Pix dst !! k).

Lemma two_pixels_wf : Image_wf two_pixels.
Proof. split; [split |..]; cbn; unfold in_int, int_min, int_max; lia. Qed.

Lemma white_pixel_wf : Image_wf white_pixel.
Proof. split; [split |..]; cbn; unfold in_int, int_min, int_max; lia. Qed.

Lemma RGB24_Encode_in_range_witness :
  Image_wf two_pixels /\ at_origin two_pixels /\
  exists buf,
    RGB24Format_Encode Buffer_Write mkRGB24Format [] two_pixels
      = Some (Buffer_Write [] buf) /\
    Z.of_nat (length buf)
      = mul (mul (Dx (Bounds two_pixels)) (Dy (Bounds two_pixels))) 3.
Proof.
  split; [exact two_pixels_wf |]. split; [reflexivity |].
  exact (proj1 (proj2 (RGB24_Encode_in_range Buffer_Write two_pixels
                         two_pixels_wf eq_refl)) mkRGB24Format []).
Defined.

Lemma raw_Encode_solid_size_witness :
  (0 <= 2 <= int_max /\ 0 <= 1 <= int_max /\ 4 * (2 * 1) <= int_max /\
   solid_frame 2 1 (solid_RGBA 2 1 9 8 7 255)) /\
  (exists buf,
      RGB24Format_Encode Buffer_Write mkRGB24Format [] (solid_RGBA 2 1 9 8 7 255)
        = Some (Buffer_Write [] buf) /\
      Z.of_nat (length buf) = 2 * 1 * 3) /\
  (exists buf,
      RGBA32Format_Encode Buffer_Write draw_nothing mkRGBA32Format []
        (solid_RGBA 2 1 9 8 7 255)
        = Some (Buffer_Write [] buf) /\
      Z.of_nat (length buf) = 2 * 1 * 4).
Proof.
  assert (H2 : 0 <= 2 <= int_max) by (unfold int_max; lia).
  assert (H1 : 0 <= 1 <= int_max) by (unfold int_max; lia).
  assert (Ha : 4 * (2 * 1) <= int_max) by (unfold int_max; lia).
  split; [repeat split; try (unfold int_max; lia); constructor |].
  apply (raw_Encode_solid_size Buffer_Write draw_nothing 2 1
           (solid_RGBA 2 1 9 8 7 255) mkRGB24Format mkRGBA32Format [] H2 H1 Ha).
  constructor.
Defined.

Lemma EncodeAnimation_stops_at_first_failure_witness :
  frames_encodable (FormatRGB24 mkRGB24Format) [two_pixels; white_pixel; two_pixels] /\
  exists fmt',
    Format_EncodeAnimation Quota_Write no_chunks no_chunks draw_nothing []
      draw_nothing_paletted no_chunks (FormatRGB24 mkRGB24Format) (1%nat, [])
      [two_pixels; white_pixel; two_pixels] (40 * Millisecond)
    = Some (fmt', (0%nat, [1; 2; 3; 4; 5; 6]), [two_pixels],
            Some "short write"%string).
Proof.
  assert (Hok : frames_encodable (FormatRGB24 mkRGB24Format)
                  [two_pixels; white_pixel; two_pixels]).
  { split.
    - constructor; [exact two_pixels_wf |].
      constructor; [exact white_pixel_wf |].
      constructor; [exact two_pixels_wf | constructor].
    - constructor; [reflexivity |].
      constructor; [reflexivity |].
      constructor; [reflexivity | constructor]. }
  split; [exact Hok |].
  apply (proj1 (proj2
           (EncodeAnimation_stops_at_first_failure Quota_Write no_chunks no_chunks
              draw_nothing [] draw_nothing_paletted no_chunks
              (FormatRGB24 mkRGB24Format) (1%nat, [])
              [two_pixels; white_pixel; two_pixels] (40 * Millisecond) Hok))
           [two_pixels] white_pixel [two_pixels] (FormatRGB24 mkRGB24Format)
           (0%nat, [1; 2; 3; 4; 5; 6])).
  - reflexivity.
  - exists (FormatRGB24 mkRGB24Format), (0%nat, [1; 2; 3; 4; 5; 6]).
    split; [| split; reflexivity].
    split; [reflexivity |].
    exists [1; 2; 3; 4; 5; 6]. split; vm_compute; reflexivity.
  - exists [255; 255; 255]. split; vm_compute; reflexivity.
Defined.

(** That run: the second [Write] fails, and the third frame is still in
    the stream. *)
Example EncodeAnimation_quota_run :
  Format_EncodeAnimation Quota_Write no_chunks no_chunks draw_nothing []
    draw_nothing_paletted no_chunks (FormatRGB24 mkRGB24Format) (1%nat, [])
    [two_pixels; white_pixel; two_pixels] (40 * Millisecond)
  = Some (FormatRGB24 mkRGB24Format, (0%nat, [1; 2; 3; 4; 5; 6]), [two_pixels],
          Some "short write"%string).
Proof. vm_compute. reflexivity. Qed.

Lemma GIF_delay_hundredths_witness :
  int_min <= 500 * Millisecond <= int_max /\
  GIF_Delay (GIF_collect [] draw_nothing_paletted [white_pixel; two_pixels]
               (500 * Millisecond))
    = replicate (length [white_pixel; two_pixels])
                ((500 * Millisecond) `quot` 10000000) /\
  length (GIF_Image (GIF_collect [] draw_nothing_paletted [white_pixel; two_pixels]
                       (500 * Millisecond)))
    = length [white_pixel; two_pixels] /\
  gif_looping (GIF_LoopCount (GIF_collect [] draw_nothing_paletted
                                [white_pixel; two_pixels] (500 * Millisecond)))
    = LoopForever /\
  GIF_delay (500 * Millisecond) = 50 /\
  GIF_delay 0 = 0.
Proof.
  assert (Hi : int_min <= 500 * Millisecond <= int_max)
    by (unfold int_min, int_max, Millisecond; lia).
  split; [exact Hi |].
  apply (GIF_delay_hundredths [] draw_nothing_paletted (500 * Millisecond)
           [white_pixel; two_pixels] Hi).
Defined.

Lemma Ansi_odd_last_row_background_witness :
  (0 < Dy (Bounds white_pixel) /\ Z.land (Dy (Bounds white_pixel)) 1 = 1) /\
  Ansi_background white_pixel (div (Dy (Bounds white_pixel)) 2) 0
    = ESC +:+ "[48;2;0m" /\
  Ansi_background white_pixel (div (Dy (Bounds white_pixel)) 2) 0 <> ansi_bg 0 0 0.
Proof.
  assert (Hpos : 0 < Dy (Bounds white_pixel)) by (vm_compute; reflexivity).
  assert (Hodd : Z.land (Dy (Bounds white_pixel)) 1 = 1) by reflexivity.
  split; [split; assumption |].
  exact (proj2 (Ansi_odd_last_row_background white_pixel 0 Hpos Hodd)).
Defined.

Lemma EncodeAnimation_fallback_concat_witness :
  (single_frame_fallback (FormatRGB24 mkRGB24Format) /\
   Forall2 (fun img out =>
              Buffer_Encode no_chunks no_chunks draw_nothing [] draw_nothing_paletted
                no_chunks (FormatRGB24 mkRGB24Format) [] img
              = Some (FormatRGB24 mkRGB24Format, out, None))
           [two_pixels; white_pixel] [[1; 2; 3; 4; 5; 6]; [255; 255; 255]]) /\
  Buffer_EncodeAnimation no_chunks no_chunks draw_nothing [] draw_nothing_paletted
    no_chunks (FormatRGB24 mkRGB24Format) [] [two_pixels; white_pixel]
    (40 * Millisecond)
  = Some (FormatRGB24 mkRGB24Format,
          mjoin [[1; 2; 3; 4; 5; 6]; [255; 255; 255]], [], None).
Proof.
  assert (Hall : Forall2 (fun img out =>
              Buffer_Encode no_chunks no_chunks draw_nothing [] draw_nothing_paletted
                no_chunks (FormatRGB24 mkRGB24Format) [] img
              = Some (FormatRGB24 mkRGB24Format, out, None))
           [two_pixels; white_pixel] [[1; 2; 3; 4; 5; 6]; [255; 255; 255]]).
  { repeat constructor. }
  split; [split; [exact I | exact Hall] |].
  apply (EncodeAnimation_fallback_concat no_chunks no_chunks draw_nothing []
           draw_nothing_paletted no_chunks (FormatRGB24 mkRGB24Format)
           [two_pixels; white_pixel] [[1; 2; 3; 4; 5; 6]; [255; 255; 255]]
           (40 * Millisecond) I Hall).
Defined.

End Encode.

(** ** Package [imu]: the networked sensor *)

Module IMU.
Import Encode.

(** A channel of [struct{}] nobody sends on: all that happens to it is
    [close]. *)
Inductive chan := ChanOpen | ChanClosed.

Section Provider.

(** [float32] values are only copied around; their type is left open. *)
Variable float32 : Type.
Variable zero32 : float32.

Record imuDataType := mkImuData {
  Acceleration : float32 * float32 * float32;
  Gyro : float32 * float32 * float32;
  Magnetometer : float32 * float32 * float32;
  Quaternione : float32 * float32 * float32 * float32;
  Shake : bool }.

(** The zero value of [imuDataType]. *)
Definition imuData_zero : imuDataType :=
  mkImuData (zero32, zero32, zero32) (zero32, zero32, zero32)
            (zero32, zero32, zero32) (zero32, zero32, zero32, zero32) false.

(** [sync.Mutex]: locked or not. *)
Definition Mutex := bool.

(** [IMU_values].  A [nil] channel is [None]. *)
Record IMU_values := mkIMU {
  uniformNamePrefix : string;
  url : string;
  currentValue : imuDataType;
  currentValueLock : Mutex;
  closed : option chan;
  loopClosed : option chan }.

(** What one request to the endpoint comes to: [myClient.Get] fails and the
    target is not touched, or a body arrives and [Decode] leaves the target
    as [decode target], with or without an error. *)
Inductive Response :=
| GetFailed (e : error)
| Body (decode : imuDataType -> imuDataType) (err : option error).

(** [getJson(url, target)], for the response the endpoint gives. *)
Definition getJson (r : Response) (target : imuDataType)
  : imuDataType * option error :=
  match r with
  | GetFailed e => (target, Some e)
  | Body decode err => (decode target, err)
  end.

(** [newIMUPeripheral] up to the [go] statement; [failSilent] is never
    set.  The result is the provider, whose loop is then started, or the
    error of the first fetch. *)
Definition newIMUPeripheral (prefix addr : string) (r : Response)
  : IMU_values + error :=
  let failSilent := false in
  let imu := mkIMU prefix addr imuData_zero false None None in
  let fetched := getJson r (currentValue imu) in
  let imu := mkIMU prefix addr (fst fetched) false None None in
  match snd fetched with
  | Some err =>
      if negb failSilent then inr err
      else inl (mkIMU prefix addr (fst fetched) false (Some ChanOpen) (Some ChanOpen))
  | None =>
      inl (mkIMU prefix addr (fst fetched) false (Some ChanOpen) (Some ChanOpen))
  end.

(** *** The goroutines around one provider *)

(** Where the polling goroutine stands: about to call [getJson], to lock, to
    assign, to unlock, or to sleep. *)
Inductive loop_pc := LFetch | LLock | LAssign | LUnlock | LSleep.

(** Where a call of [Close] stands: at the [nil] test, at [close(imu.closed)],
    at [<-imu.loopClosed], returned, or stopped by a panic. *)
Inductive close_pc := CTest | CClose | CWait | CReturned | CPanic.

(** Where a call of [PreRender] stands: to lock, to read the snapshot and
    set the uniforms, to unlock, or returned with what it read. *)
Inductive render_pc := RLock | RRead | RUnlock | RReturned.

Record state := mkState {
  imu : IMU_values;
  loop_at : loop_pc;
  imuReading : imuDataType;
  close_at : close_pc;
  render_at : render_pc;
  rendered : option imuDataType }.

Definition set_imu (st : state) (i : IMU_values) : state :=
  mkState i (loop_at st) (imuReading st) (close_at st) (render_at st) (rendered st).
Definition set_loop (st : state) (pc : loop_pc) : state :=
  mkState (imu st) pc (imuReading st) (close_at st) (render_at st) (rendered st).
Definition set_close (st : state) (pc : close_pc) : state :=
  mkState (imu st) (loop_at st) (imuReading st) pc (render_at st) (rendered st).
Definition set_render (st : state) (pc : render_pc) : state :=
  mkState (imu st) (loop_at st) (imuReading st) (close_at st) pc (rendered st).

Definition with_value (i : IMU_values) (v : imuDataType) : IMU_values :=
  mkIMU (uniformNamePrefix i) (url i) v (currentValueLock i) (closed i) (loopClosed i).
Definition with_lock (i : IMU_values) (l : Mutex) : IMU_values :=
  mkIMU (uniformNamePrefix i) (url i) (currentValue i) l (closed i) (loopClosed i).
Definition with_closed (i : IMU_values) (c : option chan) : IMU_values :=
  mkIMU (uniformNamePrefix i) (url i) (currentValue i) (currentValueLock i) c
        (loopClosed i).

(** One step of the goroutine started by [newIMUPeripheral]:
    [for { err := getJson(url, imuReading); if err == nil { Lock; currentValue
    = *imuReading; Unlock }; time.Sleep(time.Second / 10) }].  [None]: the
    goroutine cannot move (the mutex is held by someone else). *)
Definition step_loop (r : Response) (st : state) : option state :=
  match loop_at st with
  | LFetch =>
      let fetched := getJson r (imuReading st) in
      let st' := mkState (imu st) (loop_at st) (fst fetched) (close_at st)
                         (render_at st) (rendered st) in
      Some (set_loop st' (match snd fetched with None => LLock | Some _ => LSleep end))
  | LLock =>
      if currentValueLock (imu st) then None
      else Some (set_loop (set_imu st (with_lock (imu st) true)) LAssign)
  | LAssign =>
      Some (set_loop (set_imu st (with_value (imu st) (imuReading st))) LUnlock)
  | LUnlock =>
      Some (set_loop (set_imu st (with_lock (imu st) false)) LSleep)
  | LSleep => Some (set_loop st LFetch)
  end.

(** One step of [Close]: [if imu.closed == nil { return nil };
    close(imu.closed); <-imu.loopClosed; return nil].  A receive from an open
    channel nobody sends on, or from a [nil] channel, cannot move. *)
Definition step_close (st : state) : option state :=
  match close_at st with
  | CTest =>
      match closed (imu st) with
      | None => Some (set_close st CReturned)
      | Some _ => Some (set_close st CClose)
      end
  | CClose =>
      match closed (imu st) with
      | Some ChanOpen =>
          Some (set_close (set_imu st (with_closed (imu st) (Some ChanClosed))) CWait)
      | Some ChanClosed | None => Some (set_close st CPanic)
      end
  | CWait =>
      match loopClosed (imu st) with
      | Some ChanClosed => Some (set_close st CReturned)
      | Some ChanOpen | None => None
      end
  | CReturned | CPanic => None
  end.

(** One step of [PreRender]: lock, push the snapshot into the uniforms,
    unlock. *)
Definition step_render (st : state) : option state :=
  match render_at st with
  | RLock =>
      if currentValueLock (imu st) then None
      else Some (set_render (set_imu st (with_lock (imu st) true)) RRead)
  | RRead =>
      Some (mkState (imu st) (loop_at st) (imuReading st) (close_at st) RUnlock
                    (Some (currentValue (imu st))))
  | RUnlock =>
      Some (set_render (set_imu st (with_lock (imu st) false)) RReturned)
  | RReturned => None
  end.

(** The scheduler's choices: a turn of the polling goroutine, with the
    response its request gets if it is at [getJson]; a turn of [Close]; a
    turn of the render thread; the render thread calling [PreRender] for the
    next frame. *)
Inductive turn :=
| TLoop (r : Response)
| TClose
| TRender
| TNextFrame.

Definition step (t : turn) (st : state) : option state :=
  match t with
  | TLoop r => step_loop r st
  | TClose => step_close st
  | TRender => step_render st
  | TNextFrame =>
      match render_at st with
      | RReturned => Some (set_render st RLock)
      | _ => None
      end
  end.

(** A goroutine that cannot move when it is given a turn waits. *)
Definition run (schedule : list turn) (st : state) : state :=
  foldl (fun s t => default s (step t s)) st schedule.

(** The state [newIMUPeripheral] returns in: the loop started, [Close] and
    [PreRender] not yet called. *)
Definition started (i : IMU_values) : state :=
  mkState i LFetch imuData_zero CTest RReturned None.

(** The critical sections of the two users of [currentValueLock]. *)
Definition loop_holds (st : state) : bool :=
  match loop_at st with LAssign | LUnlock => true | _ => false end.
Definition render_holds (st : state) : bool :=
  match render_at st with RRead | RUnlock => true | _ => false end.

(** [Close] has not got past [<-imu.loopClosed]. *)
Definition Close_pending (st : state) : Prop :=
  close_at st <> CReturned.

(** The mutex does its work: under every schedule it is held exactly when
    one of its two users is between [Lock] and [Unlock], and never by
    both. *)
Definition lock_consistent (st : state) : Prop :=
  currentValueLock (imu st) = (loop_holds st || render_holds st) /\
  (loop_holds st && render_holds st) = false.

(** *** C1: [Close] on the IMU provider *)

(** Nothing ever closes [loopClosed]: the polling loop has no exit and does
    not mention the channel. *)
Lemma step_keeps_loopClosed (t : turn) (st st' : state) :
  step t st = Some st' ->
  loopClosed (imu st') = loopClosed (imu st) /\
  (closed (imu st) <> None -> closed (imu st') <> None).
Proof.
  destruct st as [[p a v l c lc] lpc rd cpc rpc seen].
  destruct t as [r | | |]; cbn.
  - destruct lpc; cbn; try destruct l; cbn; intros [= <-]; cbn; auto.
  - destruct cpc; cbn; try destruct c as [[|]|]; try destruct lc as [[|]|];
      cbn; intros [= <-]; cbn; auto.
  - destruct rpc; cbn; try destruct l; cbn; intros [= <-]; cbn; auto.
  - destruct rpc; cbn; intros [= <-]; cbn; auto.
Qed.

Lemma step_Close_pending (t : turn) (st st' : state) :
  loopClosed (imu st) = Some ChanOpen ->
  closed (imu st) <> None ->
  Close_pending st ->
  step t st = Some st' ->
  Close_pending st'.
Proof.
  unfold Close_pending.
  destruct st as [[p a v l c lc] lpc rd cpc rpc seen].
  cbn. intros -> Hc Hp.
  destruct t as [r | | |]; cbn.
  - destruct lpc; cbn; try destruct l; cbn; intros [= <-]; cbn; auto.
  - destruct cpc; cbn; try destruct c as [[|]|]; cbn; intros [= <-]; cbn;
      try congruence.
  - destruct rpc; cbn; try destruct l; cbn; intros [= <-]; cbn; auto.
  - destruct rpc; cbn; intros [= <-]; cbn; auto.
Qed.

Lemma run_Close_pending (schedule : list turn) :
  forall st,
    loopClosed (imu st) = Some ChanOpen ->
    closed (imu st) <> None ->
    Close_pending st ->
    Close_pending (run schedule st) /\
    loopClosed (imu (run schedule st)) = Some ChanOpen.
Proof.
  induction schedule as [|t ts IH]; intros st Hlc Hc Hp; [split; assumption |].
  cbn [run foldl]. destruct (step t st) as [st'|] eqn:Hstep; cbn [default].
  - destruct (step_keeps_loopClosed t st st' Hstep) as (Hlc' & Hc').
    apply IH; unfold id; [rewrite Hlc'; exact Hlc | auto |].
    exact (step_Close_pending t st st' Hlc Hc Hp Hstep).
  - apply IH; assumption.
Qed.

(** C1, as the code has it.  On a successfully constructed IMU provider
    [Close] never returns: whatever the endpoint answers and however the
    goroutines are scheduled, [loopClosed] stays open and the call stays at
    or before [<-imu.loopClosed]. *)
Theorem IMU_Close_never_returns (prefix addr : string) (r : Response)
    (schedule : list turn) :
  match newIMUPeripheral prefix addr r with
  | inl provider =>
      close_at (run schedule (started provider)) <> CReturned /\
      loopClosed (imu (run schedule (started provider))) = Some ChanOpen
  | inr _ => True
  end.
Proof.
  unfold newIMUPeripheral. cbn [negb].
  destruct (snd (getJson r _)); [exact I |].
  apply run_Close_pending; cbn; [reflexivity | discriminate | discriminate].
Qed.

(** *** C6: the fetch policy *)

Lemma step_lock_consistent (t : turn) (st st' : state) :
  lock_consistent st -> step t st = Some st' -> lock_consistent st'.
Proof.
  unfold lock_consistent, loop_holds, render_holds.
  destruct st as [[p a v l c lc] lpc rd cpc rpc seen]. cbn.
  intros [Hl Hx].
  destruct t as [r | | |]; cbn.
  - destruct lpc; cbn; try (destruct (snd (getJson r rd))); try destruct l; cbn;
      intros [= <-]; cbn; destruct rpc; cbn in *; auto; discriminate.
  - destruct cpc; cbn; try destruct c as [[|]|]; try destruct lc as [[|]|];
      cbn; intros [= <-]; cbn; auto.
  - destruct rpc; cbn; try destruct l; cbn; intros [= <-]; cbn;
      destruct lpc; cbn in *; auto; discriminate.
  - destruct rpc; cbn; intros [= <-]; cbn; destruct lpc; cbn in *; auto.
Qed.

Lemma run_lock_consistent (schedule : list turn) :
  forall st, lock_consistent st -> lock_consistent (run schedule st).
Proof.
  induction schedule as [|t ts IH]; intros st Hst; [exact Hst |].
  cbn [run foldl]. destruct (step t st) as [st'|] eqn:Hstep; cbn [default];
    apply IH; unfold id; [eapply step_lock_consistent; eauto | exact Hst].
Qed.

(** C6.  [newIMUPeripheral] makes one fetch and returns its error, and no
    provider, when it fails; when it succeeds the provider starts from the
    fetched reading.  Then, for the polling goroutine at [getJson] with the
    mutex free: a fetch without error ends, five steps later, with
    [currentValue] equal to what [getJson] left in the loop's reading and
    every other field of the provider as it was, the assignment being the
    one step from the old snapshot to the new one, made with the mutex held;
    a failed fetch changes nothing but the goroutine's own [imuReading], so
    the provider, and what [Close] and [PreRender] see and have seen, are as
    before.  Under every schedule the mutex is held by at most one of the
    loop and [PreRender]. *)
Theorem IMU_fetch_policy (prefix addr : string) (r0 r : Response) (st : state) :
  loop_at st = LFetch ->
  currentValueLock (imu st) = false ->
  match snd (getJson r0 imuData_zero) with
  | Some e => newIMUPeripheral prefix addr r0 = inr e
  | None =>
      newIMUPeripheral prefix addr r0
      = inl (mkIMU prefix addr (fst (getJson r0 imuData_zero)) false
                   (Some ChanOpen) (Some ChanOpen))
  end /\
  match snd (getJson r (imuReading st)) with
  | None =>
      run [TLoop r; TLoop r; TLoop r; TLoop r; TLoop r] st
      = mkState (mkIMU (uniformNamePrefix (imu st)) (url (imu st))
                       (fst (getJson r (imuReading st))) false
                       (closed (imu st)) (loopClosed (imu st)))
                LFetch (fst (getJson r (imuReading st)))
                (close_at st) (render_at st) (rendered st) /\
      currentValue (imu (run [TLoop r; TLoop r; TLoop r; TLoop r; TLoop r] st))
      = fst (getJson r (imuReading st)) /\
      currentValue (imu (run [TLoop r; TLoop r] st)) = currentValue (imu st) /\
      currentValueLock (imu (run [TLoop r; TLoop r] st)) = true /\
      loop_holds (run [TLoop r; TLoop r] st) = true /\
      run [TLoop r; TLoop r; TLoop r] st
      = mkState (mkIMU (uniformNamePrefix (imu st)) (url (imu st))
                       (fst (getJson r (imuReading st))) true
                       (closed (imu st)) (loopClosed (imu st)))
                LUnlock (fst (getJson r (imuReading st)))
                (close_at st) (render_at st) (rendered st)
  | Some e =>
      run [TLoop r; TLoop r] st
      = mkState (imu st) LFetch (fst (getJson r (imuReading st)))
                (close_at st) (render_at st) (rendered st) /\
      currentValue (imu (run [TLoop r] st)) = currentValue (imu st) /\
      currentValue (imu (run [TLoop r; TLoop r] st)) = currentValue (imu st)
  end /\
  (forall provider schedule,
      currentValueLock provider = false ->
      lock_consistent (run schedule (started provider))).
Proof.
  intros Hpc Hlock. split; [| split].
  - unfold newIMUPeripheral. cbn [negb currentValue].
    destruct (snd (getJson r0 imuData_zero)); reflexivity.
  - destruct st as [[p a v l c lc] lpc rd cpc rpc seen]. cbn in Hpc, Hlock. subst.
    cbn [imuReading imu uniformNamePrefix url closed loopClosed currentValue
         close_at render_at rendered].
    destruct (snd (getJson r rd)) as [e|] eqn:Herr.
    + cbn. rewrite Herr. cbn. repeat split.
    + cbn. rewrite Herr. cbn. repeat split.
  - intros provider schedule Hfree. apply run_lock_consistent.
    unfold lock_consistent. cbn. rewrite Hfree. split; reflexivity.
Qed.

End Provider.

(** *** The statements at concrete inputs *)

Definition sample_reading : imuDataType Z :=
  mkImuData Z (1, 2, 3) (4, 5, 6) (7, 8, 9) (10, 11, 12, 13) true.

Definition sample_provider : IMU_values Z :=
  mkIMU Z "imu"%string "http://sensor/imu"%string sample_reading false
        (Some ChanOpen) (Some ChanOpen).

(** A second reading, and the body that decodes to it whatever the target
    held. *)
Definition later_reading : imuDataType Z :=
  mkImuData Z (21, 22, 23) (24, 25, 26) (27, 28, 29) (30, 31, 32, 33) false.

Definition later_body : Response Z := Body Z (fun _ => later_reading) None.

Lemma IMU_fetch_policy_witness :
  (loop_at Z (started Z 0 sample_provider) = LFetch /\
   currentValueLock Z (imu Z (started Z 0 sample_provider)) = false) /\
  newIMUPeripheral Z 0 "imu" "http://sensor/imu" (GetFailed Z "connection refused")
    = inr "connection refused"%string /\
  currentValue Z
    (imu Z (run Z [TLoop Z later_body; TLoop Z later_body; TLoop Z later_body;
                   TLoop Z later_body; TLoop Z later_body]
              (started Z 0 sample_provider)))
    = later_reading /\
  currentValue Z
    (imu Z (run Z [TLoop Z later_body; TLoop Z later_body]
              (started Z 0 sample_provider)))
    = sample_reading /\
  run Z [TLoop Z (GetFailed Z "timeout"); TLoop Z (GetFailed Z "timeout")]
      (started Z 0 sample_provider)
    = started Z 0 sample_provider.
Proof.
  pose proof (IMU_fetch_policy Z 0 "imu" "http://sensor/imu"
                (GetFailed Z "connection refused") later_body
                (started Z 0 sample_provider) eq_refl eq_refl)
    as (Hnew & (_ & Hvalue & Hold & _) & _).
  pose proof (IMU_fetch_policy Z 0 "imu" "http://sensor/imu"
                (GetFailed Z "connection refused") (GetFailed Z "timeout")
                (started Z 0 sample_provider) eq_refl eq_refl)
    as (_ & (Hfail & _) & _).
  split; [split; reflexivity |].
  split; [exact Hnew |]. split; [exact Hvalue |]. split; [exact Hold |].
  exact Hfail.
Defined.

End IMU.

(** ** [main] in animation mode: the goroutines between renderer and encoder *)

Module Pipeline.

(** A frame is known by its number in the order of production. *)
Definition Frame := nat.

(** [imgStream]: a buffered channel, with its queue and whether it is
    closed.  [counterStream]: an unbuffered channel, a send on which is one
    step with the receive it meets.  [ctx]: cancelled or not.  [waitgroup]:
    its counter. *)
Record channels := mkChannels {
  imgStream : list Frame;
  imgStream_closed : bool;
  counterStream_closed : bool;
  cancelled : bool;
  waitgroup : nat }.

(** The main goroutine from [sh.Animate] on.

    Modelled from the spec: [Shader.Animate] is not among the sources.  The
    spec has the producer drive the renderer and push each produced frame
    into the buffered hand-off, block when the hand-off buffer is full,
    observe the shared cancellation signal between frames (cooperative
    polling between frame productions, no preemption mid-frame), and stop
    when cancellation is observed or an optional frame-count limit is
    reached.  So: poll, and stop when the context is cancelled or the limit
    is reached ([PPoll]); render ([PRender]); send, waiting while the buffer
    is full ([PSend]).  After it [main] itself closes [imgStream]
    ([PClose]) and waits for the wait group ([PWait]). *)
Inductive producer_pc :=
| PPoll | PRender | PSend (f : Frame) | PClose | PWait | PDone.

(** The counter goroutine: at [range imgStream]; at [counterStream <- img];
    at [if frame == animateNumFrames]; at [waitgroup.Done()]; at the deferred
    [close(counterStream)]; gone. *)
Inductive counter_pc :=
| KRecv | KSend (f : Frame) | KCheck | KDone | KDefer | KExit.

(** The encoder goroutine: [EncodeAnimation] waiting for a frame, encoding
    the one it received, having returned an error (at [cancel()], then at the
    [go] of the draining loop), at [waitgroup.Done()], gone. *)
Inductive encoder_pc :=
| ERecv | EEncode (f : Frame) | ECancel | ESpawn | EWgDone | EExit.

(** The loop [for range counterStream {}]: not started, receiving, gone. *)
Inductive drain_pc := DNone | DRecv | DExit.

(** The signal goroutine: at [<-sig], at [cancel()], gone. *)
Inductive signal_pc := SWait | SCancel | SExit.

Record state := mkState {
  ch : channels;
  producer_at : producer_pc;
  produced : nat;
  counter_at : counter_pc;
  frame : Z;
  encoder_at : encoder_pc;
  encoded : list Frame;
  drain_at : drain_pc;
  drained : list Frame;
  signal_at : signal_pc }.

(** What a session is run with: the capacity [int(framerate)+1] of
    [imgStream], [animateNumFrames] (0: no limit), and the encoder's
    behaviour, whether [EncodeAnimation] returns an error given the frames it
    has been handed ([true]: on the stream's end). *)
Record session := mkSession {
  capacity : nat;
  animateNumFrames : Z;
  encoder_fails : list Frame -> bool -> bool }.

Definition set_ch (st : state) (c : channels) : state :=
  mkState c (producer_at st) (produced st) (counter_at st) (frame st)
          (encoder_at st) (encoded st) (drain_at st) (drained st) (signal_at st).
Definition set_producer (st : state) (pc : producer_pc) : state :=
  mkState (ch st) pc (produced st) (counter_at st) (frame st)
          (encoder_at st) (encoded st) (drain_at st) (drained st) (signal_at st).
Definition set_counter (st : state) (pc : counter_pc) : state :=
  mkState (ch st) (producer_at st) (produced st) pc (frame st)
          (encoder_at st) (encoded st) (drain_at st) (drained st) (signal_at st).
Definition set_encoder (st : state) (pc : encoder_pc) : state :=
  mkState (ch st) (producer_at st) (produced st) (counter_at st) (frame st)
          pc (encoded st) (drain_at st) (drained st) (signal_at st).
Definition set_drain (st : state) (pc : drain_pc) : state :=
  mkState (ch st) (producer_at st) (produced st) (counter_at st) (frame st)
          (encoder_at st) (encoded st) pc (drained st) (signal_at st).
Definition set_signal (st : state) (pc : signal_pc) : state :=
  mkState (ch st) (producer_at st) (produced st) (counter_at st) (frame st)
          (encoder_at st) (encoded st) (drain_at st) (drained st) pc.

Definition cancel (c : channels) : channels :=
  mkChannels (imgStream c) (imgStream_closed c) (counterStream_closed c) true
             (waitgroup c).
Definition wg_Done (c : channels) : channels :=
  mkChannels (imgStream c) (imgStream_closed c) (counterStream_closed c)
             (cancelled c) (pred (waitgroup c)).
Definition with_imgStream (c : channels) (q : list Frame) : channels :=
  mkChannels q (imgStream_closed c) (counterStream_closed c) (cancelled c)
             (waitgroup c).
Definition close_imgStream (c : channels) : channels :=
  mkChannels (imgStream c) true (counterStream_closed c) (cancelled c)
             (waitgroup c).
Definition close_counterStream (c : channels) : channels :=
  mkChannels (imgStream c) (imgStream_closed c) true (cancelled c) (waitgroup c).

(** [frame++] on a [uint]. *)
Definition uint_succ (n : Z) : Z := (n + 1) mod 2 ^ 64.

Section Session.

Variable cfg : session.

(** [None]: the goroutine cannot move (it waits on a channel or the wait
    group, or it is gone). *)
Definition limit_reached (st : state) : bool :=
  (0 <? animateNumFrames cfg) && (Z.of_nat (produced st) =? animateNumFrames cfg).

Definition step_producer (st : state) : option state :=
  match producer_at st with
  | PPoll =>
      Some (set_producer st
              (if cancelled (ch st) || limit_reached st then PClose else PRender))
  | PRender =>
      Some (mkState (ch st) (PSend (produced st)) (S (produced st)) (counter_at st)
                    (frame st) (encoder_at st) (encoded st) (drain_at st)
                    (drained st) (signal_at st))
  | PSend f =>
      if decide (length (imgStream (ch st)) < capacity cfg)%nat
      then Some (set_producer
                   (set_ch st (with_imgStream (ch st) (imgStream (ch st) ++ [f])))
                   PPoll)
      else None
  | PClose => Some (set_producer (set_ch st (close_imgStream (ch st))) PWait)
  | PWait =>
      match waitgroup (ch st) with
      | O => Some (set_producer st PDone)
      | S _ => None
      end
  | PDone => None
  end.

(** The receive that meets [counterStream <- img]: by [EncodeAnimation]
    when it waits for a frame, else by the draining loop when it runs. *)
Definition hand_over (f : Frame) (st : state) : option state :=
  match encoder_at st, drain_at st with
  | ERecv, _ =>
      Some (mkState (ch st) (producer_at st) (produced st) (counter_at st)
                    (frame st) (EEncode f) (encoded st ++ [f]) (drain_at st)
                    (drained st) (signal_at st))
  | _, DRecv =>
      Some (mkState (ch st) (producer_at st) (produced st) (counter_at st)
                    (frame st) (encoder_at st) (encoded st) (drain_at st)
                    (drained st ++ [f]) (signal_at st))
  | _, _ => None
  end.

Definition step_counter (st : state) : option state :=
  match counter_at st with
  | KRecv =>
      match imgStream (ch st) with
      | f :: q =>
          Some (mkState (with_imgStream (ch st) q) (producer_at st) (produced st)
                        (KSend f) (uint_succ (frame st)) (encoder_at st)
                        (encoded st) (drain_at st) (drained st) (signal_at st))
      | [] =>
          if imgStream_closed (ch st) then Some (set_counter st KDone) else None
      end
  | KSend f =>
      st' ← hand_over f st; Some (set_counter st' KCheck)
  | KCheck =>
      if decide (frame st = animateNumFrames cfg)
      then Some (set_counter (set_ch st (cancel (ch st))) KDone)
      else Some (set_counter st KRecv)
  | KDone => Some (set_counter (set_ch st (wg_Done (ch st))) KDefer)
  | KDefer => Some (set_counter (set_ch st (close_counterStream (ch st))) KExit)
  | KExit => None
  end.

Definition step_encoder (st : state) : option state :=
  match encoder_at st with
  | ERecv =>
      if counterStream_closed (ch st)
      then Some (set_encoder st
                   (if encoder_fails cfg (encoded st) true then ECancel else EWgDone))
      else None
  | EEncode f =>
      Some (set_encoder st
              (if encoder_fails cfg (encoded st) false then ECancel else ERecv))
  | ECancel => Some (set_encoder (set_ch st (cancel (ch st))) ESpawn)
  | ESpawn => Some (set_encoder (set_drain st DRecv) EWgDone)
  | EWgDone => Some (set_encoder (set_ch st (wg_Done (ch st))) EExit)
  | EExit => None
  end.

Definition step_drain (st : state) : option state :=
  match drain_at st with
  | DRecv =>
      if counterStream_closed (ch st) then Some (set_drain st DExit) else None
  | DNone | DExit => None
  end.

(** A turn of the signal goroutine at [<-sig] is the interrupt arriving. *)
Definition step_signal (st : state) : option state :=
  match signal_at st with
  | SWait => Some (set_signal st SCancel)
  | SCancel => Some (set_signal (set_ch st (cancel (ch st))) SExit)
  | SExit => None
  end.

Inductive goroutine := Producer | Counter | Encoder | Drain | Signal.

Definition step (g : goroutine) (st : state) : option state :=
  match g with
  | Producer => step_producer st
  | Counter => step_counter st
  | Encoder => step_encoder st
  | Drain => step_drain st
  | Signal => step_signal st
  end.

Definition run (schedule : list goroutine) (st : state) : state :=
  foldl (fun s g => default s (step g s)) st schedule.

(** [main] at the call of [sh.Animate], after [waitgroup.Add(2)] and the
    three [go] statements. *)
Definition start : state :=
  mkState (mkChannels [] false false false 2%nat) PPoll 0%nat KRecv 0 ERecv []
          DNone [] SWait.

(** The frame a goroutine holds between its receive and its send. *)
Definition in_counter (st : state) : list Frame :=
  match counter_at st with KSend f => [f] | _ => [] end.
Definition in_producer (st : state) : list Frame :=
  match producer_at st with PSend f => [f] | _ => [] end.

(** What holds in every state reached from [start]: the frames handed to
    the encoder, then to the draining loop, then held by the counter, then
    queued in [imgStream], then held by the producer, are the frames produced
    so far, in order; the draining loop has received nothing while
    [EncodeAnimation] is running; and with a limit set the counter has taken
    that many frames at most, and fewer when it goes for the next one. *)
Definition frames_accounted (st : state) : Prop :=
  encoded st ++ drained st ++ in_counter st ++ imgStream (ch st) ++ in_producer st
    = seq 0 (produced st) /\
  (match encoder_at st with
   | EWgDone | EExit => True
   | _ => drain_at st = DNone /\ drained st = []
   end) /\
  (0 < animateNumFrames cfg < 2 ^ 64 ->
   frame st = Z.of_nat (length (encoded st ++ drained st ++ in_counter st)) /\
   frame st <= animateNumFrames cfg /\
   (counter_at st = KRecv -> frame st < animateNumFrames cfg)).

(** The draining loop exists only after the encoder's failure has cancelled
    the context, has received nothing before it exists, and leaves only once
    [counterStream] is closed. *)
Definition drain_accounted (st : state) : Prop :=
  (drain_at st = DNone -> drained st = []) /\
  (drain_at st <> DNone -> cancelled (ch st) = true) /\
  (encoder_at st = ESpawn -> cancelled (ch st) = true) /\
  (drain_at st = DExit -> counterStream_closed (ch st) = true).

(** *** What the pipeline delivers *)

Lemma pipeline_run_cons (g : goroutine) (gs : list goroutine) (st : state) :
  run (g :: gs) st = run gs (default st (step g st)).
Proof. reflexivity. Qed.

Lemma uint_succ_small (n : Z) : 0 <= n < 2 ^ 64 - 1 -> uint_succ n = n + 1.
Proof. intros Hn. unfold uint_succ. apply Z.mod_small. lia. Qed.

Lemma step_frames_accounted (g : goroutine) (st st' : state) :
  frames_accounted st -> step g st = Some st' -> frames_accounted st'.
Proof.
  unfold frames_accounted, in_counter, in_producer.
  destruct st as [[q qc cc cn wg] ppc n kpc fr epc enc dpc dr spc]. cbn.
  intros (Hseq & Hdrain & Hlimit) Hstep.
  destruct g; cbn in Hstep.
  - (* the producer *)
    destruct ppc; cbn in Hstep;
      try match type of Hstep with
          | context [if ?b then PClose else PRender] => destruct b
          end;
      try case_decide; try destruct wg;
      inversion Hstep; subst; clear Hstep; cbn;
      (split; [| split; [exact Hdrain | exact Hlimit]]).
    all: rewrite ?app_nil_r in *; try exact Hseq.
    all: change (0%nat :: seq 1 n) with (seq 0 (S n)); rewrite seq_S; cbn.
    all: rewrite <- Hseq, <- !app_assoc; reflexivity.
  - (* the counter *)
    destruct kpc; cbn in Hstep.
    + destruct q as [|f q]; [destruct qc |]; inversion Hstep; subst; clear Hstep; cbn.
      * split; [exact Hseq |]. split; [exact Hdrain |].
        intros HN. destruct (Hlimit HN) as (Hfr & Hle & Hlt).
        repeat split; [exact Hfr | exact Hle | discriminate].
      * split; [exact Hseq |]. split; [exact Hdrain |].
        intros HN. destruct (Hlimit HN) as (Hfr & Hle & Hlt).
        specialize (Hlt eq_refl).
        rewrite uint_succ_small by lia.
        repeat split; [| lia | discriminate].
        rewrite Hfr, !length_app. cbn. lia.
    + unfold hand_over in Hstep. cbn in Hstep.
      destruct epc, dpc; cbn in Hstep; inversion Hstep; subst; clear Hstep; cbn.
      all: try (destruct Hdrain as (Hd1 & Hd2); try discriminate Hd1; subst dr).
      all: split; [rewrite <- Hseq, <- ?app_assoc; reflexivity |].
      all: split; [first [exact I | split; reflexivity | exact Hdrain] |].
      all: intros HN; destruct (Hlimit HN) as (Hfr & Hle & Hlt).
      all: repeat split; [| exact Hle | discriminate].
      all: rewrite Hfr, ?length_app; cbn; rewrite ?length_app; cbn; lia.
    + case_decide; inversion Hstep; subst; clear Hstep; cbn;
        (split; [exact Hseq |]); (split; [exact Hdrain |]);
        intros HN; destruct (Hlimit HN) as (Hfr & Hle & Hlt);
        repeat split; try assumption; try discriminate.
      intros _. lia.
    + inversion Hstep; subst; clear Hstep; cbn.
      split; [exact Hseq |]. split; [exact Hdrain |].
      intros HN; destruct (Hlimit HN) as (Hfr & Hle & Hlt).
      repeat split; try assumption; discriminate.
    + inversion Hstep; subst; clear Hstep; cbn.
      split; [exact Hseq |]. split; [exact Hdrain |].
      intros HN; destruct (Hlimit HN) as (Hfr & Hle & Hlt).
      repeat split; try assumption; discriminate.
    + discriminate.
  - (* the encoder *)
    destruct epc; cbn in Hstep; try destruct cc;
      try destruct (encoder_fails cfg enc _);
      inversion Hstep; subst; clear Hstep; cbn;
      (split; [exact Hseq |]); (split; [| exact Hlimit]);
      first [exact I | exact Hdrain | idtac].
    all: destruct Hdrain as (Hd1 & Hd2); try discriminate Hd1.
  - (* the draining loop *)
    destruct dpc; cbn in Hstep; try destruct cc;
      inversion Hstep; subst; clear Hstep; cbn.
    split; [exact Hseq |]. split; [| exact Hlimit].
    destruct epc; try exact I; destruct Hdrain as (Hd1 & _); discriminate Hd1.
  - (* the signal goroutine *)
    destruct spc; cbn in Hstep; inversion Hstep; subst; clear Hstep; cbn;
      (split; [exact Hseq |]); (split; [exact Hdrain | exact Hlimit]).
Qed.

Lemma step_drain_accounted (g : goroutine) (st st' : state) :
  drain_accounted st -> step g st = Some st' -> drain_accounted st'.
Proof.
  unfold drain_accounted.
  destruct st as [[q qc cc cn wg] ppc n kpc fr epc enc dpc dr spc]. cbn.
  intros (Hnone & Hcancel & Hspawn & Hexit) Hstep.
  destruct g; cbn in Hstep.
  - destruct ppc; cbn in Hstep;
      try match type of Hstep with
          | context [if ?b then PClose else PRender] => destruct b
          end;
      try case_decide; try destruct wg;
      inversion Hstep; subst; clear Hstep; cbn; auto.
  - destruct kpc; cbn in Hstep;
      [destruct q as [|f q]; [destruct qc |] | unfold hand_over in Hstep; cbn in Hstep;
                                                destruct epc, dpc; cbn in Hstep
       | case_decide | | |];
      inversion Hstep; subst; clear Hstep; cbn;
      intuition (try discriminate; try congruence).
  - destruct epc; cbn in Hstep; try destruct cc;
      try destruct (encoder_fails cfg enc _);
      inversion Hstep; subst; clear Hstep; cbn;
      destruct dpc; intuition (try discriminate; try congruence).
  - destruct dpc; cbn in Hstep; try destruct cc;
      inversion Hstep; subst; clear Hstep; cbn;
      intuition (try discriminate; try congruence).
  - destruct spc; cbn in Hstep; inversion Hstep; subst; clear Hstep; cbn;
      intuition (try discriminate; try congruence).
Qed.

Lemma run_accounted (schedule : list goroutine) :
  forall st,
    frames_accounted st /\ drain_accounted st ->
    frames_accounted (run schedule st) /\ drain_accounted (run schedule st).
Proof.
  induction schedule as [|g gs IH]; intros st Hst; [exact Hst |].
  rewrite pipeline_run_cons. destruct (step g st) as [st'|] eqn:Hstep; cbn [default];
    unfold id; apply IH; [| exact Hst].
  destruct Hst as (Hf & Hd).
  split; [eapply step_frames_accounted | eapply step_drain_accounted]; eauto.
Qed.

Lemma start_accounted : frames_accounted start /\ drain_accounted start.
Proof.
  unfold frames_accounted, drain_accounted, start. cbn.
  split.
  - split; [reflexivity |]. split; [split; reflexivity |].
    intros HN. split; [reflexivity |]. split; [lia | intros _; lia].
  - repeat split; intros H; try discriminate; try reflexivity.
    exfalso. apply H. reflexivity.
Qed.

(** For every session and every schedule, with the producer the spec
    describes: the frames [EncodeAnimation] has been handed are the first
    frames produced, in the order of production, none twice and none left
    out; with a limit [N] set, the encoder and the draining loop together get
    at most [N] frames, and once the counter has handed over the frame that
    reaches the limit, with no encoder failure, the encoder has received
    exactly the first [N] frames; the draining loop runs only after a
    cancellation and leaves only when [counterStream] is closed. *)
Theorem pipeline_delivers_in_order (schedule : list goroutine) :
  (exists later, encoded (run schedule start) ++ later
                 = seq 0 (produced (run schedule start))) /\
  (0 < animateNumFrames cfg < 2 ^ 64 ->
   Z.of_nat (length (encoded (run schedule start) ++ drained (run schedule start)))
     <= animateNumFrames cfg) /\
  (0 < animateNumFrames cfg < 2 ^ 64 ->
   frame (run schedule start) = animateNumFrames cfg ->
   in_counter (run schedule start) = [] ->
   drain_at (run schedule start) = DNone ->
   encoded (run schedule start) = seq 0 (Z.to_nat (animateNumFrames cfg))) /\
  (drain_at (run schedule start) <> DNone ->
   cancelled (ch (run schedule start)) = true) /\
  (drain_at (run schedule start) = DExit ->
   counterStream_closed (ch (run schedule start)) = true).
Proof.
  destruct (run_accounted schedule start start_accounted)
    as ((Hseq & Hdrain & Hlimit) & (Hnone & Hcancel & Hspawn & Hexit)).
  set (st := run schedule start) in *.
  split; [eexists; exact Hseq |].
  split.
  { intros HN. destruct (Hlimit HN) as (Hfr & Hle & _).
    rewrite Hfr in Hle. rewrite !length_app in *. lia. }
  split; [| split; assumption].
  intros HN Hfr Hin Hdn. destruct (Hlimit HN) as (Hfr' & _).
  rewrite Hin, (Hnone Hdn), !app_nil_r in Hfr'.
  rewrite (Hnone Hdn), Hin in Hseq. cbn [app] in Hseq.
  assert (Hlen : length (encoded st) = Z.to_nat (animateNumFrames cfg)) by lia.
  assert (Htake : encoded st = take (length (encoded st)) (seq 0 (produced st))).
  { rewrite <- Hseq, take_app_length. reflexivity. }
  rewrite Htake, Hlen, take_seq.
  f_equal. apply Nat.min_l.
  rewrite <- Hlen. apply (f_equal length) in Hseq.
  rewrite length_app, length_seq in Hseq. lia.
Qed.

Lemma pipeline_run_app (s1 s2 : list goroutine) (st : state) :
  run (s1 ++ s2) st = run s2 (run s1 st).
Proof. unfold run. apply foldl_app. Qed.

End Session.

(** *** How a cancelled session ends *)

Section Shutdown.

Variable cfg : session.

(** [imgStream] is made with capacity [int(framerate)+1];
    [animateNumFrames] is a [uint]. *)
Hypothesis capacity_pos : (1 <= capacity cfg)%nat.
Hypothesis limit_range : 0 <= animateNumFrames cfg < 2 ^ 64.

(** The counter has left its loop. *)
Definition counter_done (st : state) : bool :=
  match counter_at st with
  | KDone | KDefer | KExit => true
  | _ => false
  end.

(** Every stage has terminated: [main] is past [waitgroup.Wait()], the
    counter and the encoder goroutines are gone, and the draining loop, if
    it was started, is gone too. *)
Definition finished (st : state) : Prop :=
  producer_at st = PDone /\ counter_at st = KExit /\ encoder_at st = EExit /\
  drain_at st <> DRecv.

(** A round of a fair scheduler: each of the four goroutines of the
    pipeline gets a turn; the interrupt may or may not arrive. *)
Definition fair_round (round : list goroutine) : Prop :=
  Producer ∈ round /\ Counter ∈ round /\ Encoder ∈ round /\ Drain ∈ round.

(** How the channels and the wait group stand to the goroutines. *)
Definition wired (st : state) : Prop :=
  (counterStream_closed (ch st) = true <-> counter_at st = KExit) /\
  (imgStream_closed (ch st) = true <->
   producer_at st = PWait \/ producer_at st = PDone) /\
  waitgroup (ch st)
  = ((match counter_at st with KDefer | KExit => 0 | _ => 1 end)
     + (match encoder_at st with EExit => 0 | _ => 1 end))%nat /\
  (match encoder_at st with
   | EWgDone | EExit =>
       drain_at st <> DNone \/ counterStream_closed (ch st) = true
   | _ => True
   end).

(** The cases of one step: the state taken apart, then the goroutine, its
    program counter and what its step tests. *)
Ltac step_cases Hstep :=
  match type of Hstep with
  | step _ ?g ?st = Some _ =>
      destruct st as [[q qc cc cn wg] ppc n kpc fr epc enc dpc dr spc];
      destruct g; cbn in Hstep;
      [ destruct ppc; cbn in Hstep;
        [ destruct (cn || limit_reached cfg _) eqn:Hpoll
        | | case_decide | | destruct wg | ]
      | destruct kpc; cbn in Hstep;
        [ destruct q as [|f q]; [destruct qc |]
        | unfold hand_over in Hstep; cbn in Hstep; destruct epc, dpc;
          cbn in Hstep
        | case_decide | | | ]
      | destruct epc; cbn in Hstep;
        [ destruct cc; [destruct (encoder_fails cfg enc true) |]
        | destruct (encoder_fails cfg enc false) | | | | ]
      | destruct dpc; cbn in Hstep; [ | destruct cc | ]
      | destruct spc; cbn in Hstep ];
      try discriminate Hstep;
      injection Hstep as <-
  end.

Ltac pc_cases :=
  repeat match goal with
         | |- context [match ?x with KRecv => _ | _ => _ end] => is_var x; destruct x
         | |- context [match ?x with ERecv => _ | _ => _ end] => is_var x; destruct x
         | |- context [match ?x with PPoll => _ | _ => _ end] => is_var x; destruct x
         | |- context [match ?x with DNone => _ | _ => _ end] => is_var x; destruct x
         | H : context [match ?x with KRecv => _ | _ => _ end] |- _ => is_var x; destruct x
         | H : context [match ?x with ERecv => _ | _ => _ end] |- _ => is_var x; destruct x
         | H : context [match ?x with PPoll => _ | _ => _ end] |- _ => is_var x; destruct x
         | H : context [match ?x with DNone => _ | _ => _ end] |- _ => is_var x; destruct x
         end.

Lemma step_wired (g : goroutine) (st st' : state) :
  wired st -> step cfg g st = Some st' -> wired st'.
Proof.
  unfold wired. intros Hw Hstep. clear capacity_pos limit_range.
  step_cases Hstep; cbn in *;
    destruct Hw as (Hcc & Hqc & Hwg & He);
    (split; [| split; [| split]]); try assumption;
    pc_cases; cbn in *; try tauto; try lia;
    try (split; intros; try discriminate; try tauto; try congruence).
  all: intuition (try discriminate; try congruence).
Qed.

(** The frames in flight are the frames produced, in order; [frame] counts
    the frames the counter has received, without wrapping; with a limit set
    the producer has rendered that many frames at most, and fewer when it
    renders the next one. *)
Definition counted (st : state) : Prop :=
  encoded st ++ drained st ++ in_counter st ++ imgStream (ch st) ++ in_producer st
    = seq 0 (produced st) /\
  frame st = Z.of_nat (length (encoded st ++ drained st ++ in_counter st)) /\
  (match counter_at st with
   | KSend _ | KCheck => 1 <= frame st
   | _ => True
   end) /\
  (0 < animateNumFrames cfg ->
   Z.of_nat (produced st) <= animateNumFrames cfg /\
   (producer_at st = PRender -> Z.of_nat (produced st) < animateNumFrames cfg)) /\
  (match encoder_at st with
   | EWgDone | EExit => True
   | _ => drain_at st = DNone /\ drained st = []
   end).

(** The frame numbers, with the frame under way, fit a [uint]. *)
Definition headroom (st : state) : Prop :=
  Z.of_nat (produced st)
  + (match producer_at st with PRender => 1 | _ => 0 end) < 2 ^ 64.

Lemma poll_goes_on (c : bool) (st : state) :
  c || limit_reached cfg st = false ->
  c = false /\
  (0 < animateNumFrames cfg -> Z.of_nat (produced st) <> animateNumFrames cfg).
Proof.
  unfold limit_reached. intros H. apply orb_false_iff in H as [-> H].
  split; [reflexivity |]. intros HN.
  apply andb_false_iff in H as [H | H].
  - apply Z.ltb_ge in H. lia.
  - apply Z.eqb_neq in H. exact H.
Qed.

Lemma step_counted (g : goroutine) (st st' : state) :
  counted st -> headroom st -> step cfg g st = Some st' -> counted st'.
Proof.
  unfold counted, headroom, in_counter, in_producer. intros Hc Hh Hstep.
  step_cases Hstep; cbn -[seq Z.pow] in *;
    destruct Hc as (Hseq & Hfr & Hone & Hlim & Hdr);
    try (apply poll_goes_on in Hpoll as [-> Hpoll]; cbn -[seq Z.pow] in * );
    try match type of Hdr with _ /\ _ => destruct Hdr as [? ->] end;
    pose proof (f_equal length Hseq) as Hlen;
    rewrite ?length_app, ?length_seq in Hlen; cbn -[seq Z.pow] in Hlen;
    try (assert (Hsucc : uint_succ fr = fr + 1)
           by (apply uint_succ_small; rewrite Hfr, ?length_app; cbn;
               destruct ppc; lia);
         rewrite Hsucc);
    (split; [| split; [| split; [| split]]]).
  all: try assumption.
  all: try exact I.
  all: try (split; [assumption || reflexivity | reflexivity]).
  all: rewrite ?app_nil_r in *.
  all: try assumption.
  all: try (rewrite seq_S; cbn; rewrite <- Hseq, <- ?app_assoc; reflexivity).
  all: try (rewrite <- Hseq, <- ?app_assoc; reflexivity).
  all: try (intros HN; destruct (Hlim HN) as [Hle Hlt]; split;
            [try lia; try (specialize (Hlt eq_refl); lia)
            | try (intros _; specialize (Hpoll HN); lia);
              try discriminate; try assumption]).
  all: try (rewrite ?length_app in *; cbn in *; rewrite ?length_app in *;
            cbn in *; lia).
  all: try discriminate.
  destruct epc; try exact I; destruct Hdr as [Hd _]; discriminate Hd.
Qed.

(** Once the counter has left its loop nothing is on its way to it: it
    left because [imgStream] was closed and empty, or at the limit, which
    the producer does not render past. *)
Definition counter_left (st : state) : Prop :=
  counter_done st = true ->
  imgStream (ch st) = [] /\
  (match producer_at st with PRender | PSend _ => False | _ => True end) /\
  (cancelled (ch st) = true \/ imgStream_closed (ch st) = true).

Lemma step_counter_left (g : goroutine) (st st' : state) :
  wired st -> counted st -> counter_left st -> step cfg g st = Some st' ->
  counter_left st'.
Proof.
  unfold wired, counted, counter_left, counter_done, in_counter, in_producer.
  intros Hw Hc Hl Hstep.
  step_cases Hstep; cbn -[seq Z.pow] in *;
    destruct Hw as (_ & Hqc & _ & _);
    destruct Hc as (Hseq & Hfr & Hone & Hlim & _);
    try (apply poll_goes_on in Hpoll as [-> Hpoll]; cbn -[seq Z.pow] in * );
    intros Hdone; try discriminate Hdone.
  all: try (destruct (Hl Hdone) as (Hq & Hp & Hcq); try contradiction;
            repeat split; try assumption; try (left; reflexivity);
            try (right; reflexivity); try tauto).
  all: try (destruct (Hl Hdone) as (Hq & Hp & [Hcn | Hcl]);
            [discriminate Hcn | apply Hqc in Hcl as [Hcl | Hcl]; discriminate Hcl]).
  - (* the producer cannot go on to render *)
    destruct Hcq as [Hcn | Hcl]; [discriminate Hcn |].
    apply Hqc in Hcl as [Hcl | Hcl]; discriminate Hcl.
  - (* the stream is closed and empty *)
    split; [reflexivity |]. split; [| right; reflexivity].
    destruct (proj1 Hqc eq_refl) as [-> | ->]; exact I.
  - (* the limit *)
    pose proof (f_equal length Hseq) as Hlen.
    rewrite ?length_app, ?length_seq in Hlen. cbn in Hlen.
    rewrite ?length_app in Hfr. cbn in Hfr.
    assert (HN : 0 < animateNumFrames cfg) by lia.
    destruct (Hlim HN) as [Hle Hlt].
    assert (Hq : length q = 0%nat) by lia.
    destruct q; [| discriminate Hq].
    split; [reflexivity |]. split; [| left; reflexivity].
    destruct ppc; try exact I.
    + specialize (Hlt eq_refl). lia.
    + cbn in Hlen. lia.
Qed.

(** No interrupt has arrived and the encoder has not failed. *)
Definition quiet (st : state) : Prop :=
  signal_at st = SWait /\ drain_at st = DNone /\
  encoder_at st <> ECancel /\ encoder_at st <> ESpawn.

(** In a quiet session only the limit cancels and only the limit stops the
    producer. *)
Definition limit_only (st : state) : Prop :=
  quiet st ->
  (cancelled (ch st) = true ->
   0 < animateNumFrames cfg /\ frame st = animateNumFrames cfg /\
   counter_done st = true) /\
  (match producer_at st with
   | PClose | PWait | PDone =>
       cancelled (ch st) = true \/
       (0 < animateNumFrames cfg /\ Z.of_nat (produced st) = animateNumFrames cfg)
   | _ => True
   end).

Lemma poll_stops (c : bool) (st : state) :
  c || limit_reached cfg st = true ->
  c = true \/
  (0 < animateNumFrames cfg /\ Z.of_nat (produced st) = animateNumFrames cfg).
Proof.
  unfold limit_reached. intros H. apply orb_true_iff in H as [H | H];
    [left; exact H |].
  apply andb_true_iff in H as [H1 H2]. right.
  apply Z.ltb_lt in H1. apply Z.eqb_eq in H2. split; assumption.
Qed.

Lemma step_limit_only (g : goroutine) (st st' : state) :
  counted st -> limit_only st -> step cfg g st = Some st' -> limit_only st'.
Proof.
  unfold counted, limit_only, quiet, counter_done. intros Hc Hl Hstep.
  step_cases Hstep; cbn -[seq Z.pow] in *;
    destruct Hc as (_ & _ & Hone & _ & _);
    try (apply poll_stops in Hpoll; cbn -[seq Z.pow] in Hpoll);
    intros (Hs & Hd & He1 & He2);
    try discriminate Hs; try discriminate Hd;
    try (exfalso; apply He1; reflexivity);
    try (exfalso; apply He2; reflexivity);
    (destruct Hl as [Hcan Hprod];
     [repeat split; try assumption; discriminate |]).
  all: split;
    [ intros Hcn';
      try (destruct (Hcan Hcn') as (H1 & H2 & H3); try discriminate H3;
           repeat split; assumption);
      try (repeat split; try reflexivity; lia)
    | try assumption; try exact I;
      try (destruct ppc; try exact I;
           first [left; reflexivity | assumption | tauto]) ].
Qed.

(** What holds in every state reached from [start]. *)
Definition sound (st : state) : Prop :=
  wired st /\ counted st /\ counter_left st /\ limit_only st /\
  drain_accounted st.

Lemma step_sound (g : goroutine) (st st' : state) :
  sound st -> headroom st -> step cfg g st = Some st' -> sound st'.
Proof.
  intros (Hw & Hc & Hl & Ho & Hd) Hh Hstep.
  split; [exact (step_wired g st st' Hw Hstep) |].
  split; [exact (step_counted g st st' Hc Hh Hstep) |].
  split; [exact (step_counter_left g st st' Hw Hc Hl Hstep) |].
  split; [exact (step_limit_only g st st' Hc Ho Hstep) |].
  exact (step_drain_accounted cfg g st st' Hd Hstep).
Qed.

Lemma start_sound : sound start.
Proof.
  unfold sound, wired, counted, counter_left, limit_only, drain_accounted, start.
  cbn. repeat split; try discriminate; try lia; try tauto.
  all: intros; try discriminate; try lia; try tauto.
  destruct H; discriminate.
Qed.

(** The session is one that ends: a frame limit is set, or the context is
    cancelled already (the frame numbers fitting a [uint]). *)
Definition winding_down (st : state) : Prop :=
  0 < animateNumFrames cfg \/ (cancelled (ch st) = true /\ headroom st).

Lemma winding_headroom (st : state) :
  counted st -> winding_down st -> headroom st.
Proof.
  unfold counted, winding_down, headroom.
  intros (_ & _ & _ & Hlim & _) [HN | [_ Hh]]; [| exact Hh].
  destruct (Hlim HN) as [Hle Hlt].
  destruct (producer_at st); try lia. specialize (Hlt eq_refl). lia.
Qed.

Lemma step_winding_down (g : goroutine) (st st' : state) :
  winding_down st -> step cfg g st = Some st' -> winding_down st'.
Proof.
  unfold winding_down, headroom. intros [HN | [Hcn Hh]] Hstep; [left; exact HN |].
  right. step_cases Hstep; cbn -[Z.pow] in *; subst;
    try (apply poll_goes_on in Hpoll as [Hpoll _]; discriminate Hpoll);
    (split; [reflexivity |]); try lia.
  all: destruct ppc; lia.
Qed.

Definition ready (st : state) : Prop := sound st /\ winding_down st.

Lemma step_ready (g : goroutine) (st st' : state) :
  ready st -> step cfg g st = Some st' -> ready st'.
Proof.
  intros [Hs Hw] Hstep. split.
  - apply (step_sound g st st' Hs); [| exact Hstep].
    apply winding_headroom; [exact (proj1 (proj2 Hs)) | exact Hw].
  - exact (step_winding_down g st st' Hw Hstep).
Qed.

(** The frames the producer may still render. *)
Definition budget (st : state) : nat :=
  if cancelled (ch st) then 0%nat
  else (Z.to_nat (animateNumFrames cfg) - produced st)%nat.

(** How many steps the goroutines have left at most. *)
Definition shutdown_measure (st : state) : nat :=
  ((match producer_at st with
    | PDone => 0
    | PWait => 1
    | PClose => 2
    | PPoll => 3 + 12 * budget st
    | PRender => 14 + 12 * (budget st - 1)
    | PSend _ => 8 + 12 * budget st
    end)
   + 4 * length (imgStream (ch st))
   + (match counter_at st with
      | KExit => 0 | KDefer => 1 | KDone => 2 | KRecv => 3 | KCheck => 4
      | KSend _ => 6
      end)
   + (match encoder_at st with
      | EExit => 0 | EWgDone => 1 | ESpawn => 3 | ECancel => 4 | ERecv => 5
      | EEncode _ => 6
      end)
   + (match drain_at st with DRecv => 1 | _ => 0 end)
   + (match signal_at st with SWait => 2 | SCancel => 1 | SExit => 0 end))%nat.

Lemma step_measure (g : goroutine) (st st' : state) :
  ready st -> step cfg g st = Some st' ->
  (shutdown_measure st' < shutdown_measure st)%nat.
Proof.
  unfold ready, sound, counted, winding_down, headroom, shutdown_measure, budget.
  intros [(_ & (_ & _ & _ & Hlim & _) & _) Hw] Hstep.
  step_cases Hstep; cbn -[Z.pow Nat.mul Nat.sub Z.to_nat] in *;
    try (apply poll_goes_on in Hpoll as [-> Hpoll];
         cbn -[Z.pow Nat.mul Nat.sub Z.to_nat] in * );
    rewrite ?length_app; cbn -[Z.pow Nat.mul Nat.sub Z.to_nat];
    try lia.
  all: try (destruct cn; try lia; destruct ppc; lia).
  all: try (destruct dpc; lia).
  all: destruct Hw as [HN | [Hcn _]]; [| discriminate Hcn].
  all: destruct (Hlim HN) as [Hle _]; specialize (Hpoll HN); lia.
Qed.

(** No deadlock: short of the end, one of the four goroutines of the
    pipeline can move. *)
Lemma progress (st : state) :
  sound st ->
  finished st \/ exists g, g <> Signal /\ is_Some (step cfg g st).
Proof.
  unfold sound, wired, counter_left, drain_accounted, finished, counter_done.
  destruct st as [[q qc cc cn wg] ppc n kpc fr epc enc dpc dr spc]. cbn.
  intros ((Hcc & Hqc & Hwg & He) & _ & Hleft & _ & (_ & _ & _ & Hexit)).
  assert (Hcounter :
            kpc = KRecv ->
            exists g, g <> Signal /\
              is_Some (step cfg g
                         (mkState (mkChannels q qc cc cn wg) ppc n kpc fr epc enc
                                  dpc dr spc))).
  { intros ->. destruct q as [|f q].
    - destruct qc eqn:Eqc.
      + exists Counter. split; [discriminate |]. cbn. eauto.
      + exists Producer. split; [discriminate |]. cbn.
        destruct ppc; cbn; eauto.
        * rewrite decide_True by (cbn; lia). eauto.
        * assert (false = true) by (apply Hqc; left; reflexivity). discriminate.
        * assert (false = true) by (apply Hqc; right; reflexivity). discriminate.
    - exists Counter. split; [discriminate |]. cbn. eauto. }
  destruct epc;
    try (right; exists Encoder; split; [discriminate | cbn; eauto]; fail).
  - (* [EncodeAnimation] waits for a frame *)
    right. destruct cc eqn:Ecc.
    + exists Encoder. split; [discriminate |]. cbn. eauto.
    + destruct kpc;
        try (exists Counter; split; [discriminate | cbn; eauto]; fail).
      * apply Hcounter. reflexivity.
      * exists Counter. split; [discriminate |]. cbn. case_decide; eauto.
      * assert (false = true) by (apply Hcc; reflexivity). discriminate.
  - (* the encoder goroutine is gone *)
    destruct kpc;
      try (right; exists Counter; split; [discriminate | cbn; eauto]; fail).
    + right. apply Hcounter. reflexivity.
    + right. destruct dpc.
      * destruct He as [He | He]; [exfalso; apply He; reflexivity |].
        apply Hcc in He. discriminate He.
      * exists Counter. split; [discriminate |]. cbn. eauto.
      * specialize (Hexit eq_refl). apply Hcc in Hexit. discriminate Hexit.
    + right. exists Counter. split; [discriminate |]. cbn. case_decide; eauto.
    + assert (Hclosed : cc = true) by (apply Hcc; reflexivity). subst cc.
      destruct dpc;
        try (right; exists Drain; split; [discriminate | cbn; eauto]; fail);
        (destruct ppc;
         try (right; exists Producer; split; [discriminate | cbn; eauto]; fail);
         [ destruct (Hleft eq_refl) as (_ & [] & _)
         | right; exists Producer; split; [discriminate |]; cbn;
           cbn in Hwg; subst wg; eauto
         | left; repeat split; discriminate ]).
Qed.

Lemma finished_step (g : goroutine) (st st' : state) :
  finished st -> step cfg g st = Some st' -> finished st'.
Proof.
  unfold finished. intros (Hp & Hk & He & Hd) Hstep.
  destruct st as [[q qc cc cn wg] ppc n kpc fr epc enc dpc dr spc].
  cbn in *. subst.
  destruct g; cbn in Hstep; try discriminate Hstep.
  - destruct dpc; try discriminate Hstep. contradiction.
  - destruct spc; cbn in Hstep; try discriminate Hstep;
      injection Hstep as <-; cbn; repeat split; assumption.
Qed.

Lemma finished_run (schedule : list goroutine) :
  forall st, finished st -> finished (run cfg schedule st).
Proof.
  induction schedule as [|g gs IH]; intros st Hst; [exact Hst |].
  rewrite pipeline_run_cons.
  destruct (step cfg g st) as [st'|] eqn:Hstep; cbn [default]; apply IH;
    [exact (finished_step g st st' Hst Hstep) | exact Hst].
Qed.

Lemma ready_run (schedule : list goroutine) :
  forall st, ready st -> ready (run cfg schedule st).
Proof.
  induction schedule as [|g gs IH]; intros st Hst; [exact Hst |].
  rewrite pipeline_run_cons.
  destruct (step cfg g st) as [st'|] eqn:Hstep; cbn [default]; apply IH;
    [exact (step_ready g st st' Hst Hstep) | exact Hst].
Qed.

Lemma measure_run (schedule : list goroutine) :
  forall st, ready st ->
    (shutdown_measure (run cfg schedule st) <= shutdown_measure st)%nat.
Proof.
  induction schedule as [|g gs IH]; intros st Hst; [reflexivity |].
  rewrite pipeline_run_cons.
  destruct (step cfg g st) as [st'|] eqn:Hstep; cbn [default]; unfold id.
  - pose proof (step_measure g st st' Hst Hstep).
    pose proof (IH st' (step_ready g st st' Hst Hstep)). lia.
  - apply IH. exact Hst.
Qed.

(** A schedule that gives a turn to a goroutine that can move brings the
    end nearer. *)
Lemma measure_turn (g : goroutine) (schedule : list goroutine) :
  forall st, ready st -> g ∈ schedule -> is_Some (step cfg g st) ->
    (shutdown_measure (run cfg schedule st) < shutdown_measure st)%nat.
Proof.
  induction schedule as [|g0 gs IH]; intros st Hst Hin Hcan.
  - inversion Hin.
  - rewrite pipeline_run_cons.
    destruct (step cfg g0 st) as [st'|] eqn:Hstep; cbn [default]; unfold id.
    + pose proof (step_measure g0 st st' Hst Hstep).
      pose proof (measure_run gs st' (step_ready g0 st st' Hst Hstep)). lia.
    + apply elem_of_cons in Hin as [-> | Hin].
      * rewrite Hstep in Hcan. destruct Hcan as [? Hcan]. discriminate Hcan.
      * exact (IH st Hst Hin Hcan).
Qed.

Lemma fair_round_turn (round : list goroutine) (g : goroutine) :
  fair_round round -> g <> Signal -> g ∈ round.
Proof.
  intros (Hp & Hk & He & Hd) Hg. destruct g; try assumption. contradiction.
Qed.

(** Fair rounds, as many as the measure counts, end the session. *)
Lemma fair_rounds_finish (rounds : list (list goroutine)) :
  forall st,
    ready st -> Forall fair_round rounds ->
    (shutdown_measure st <= length rounds)%nat ->
    finished (run cfg (mjoin rounds) st).
Proof.
  induction rounds as [|round rounds IH]; intros st Hst Hfair Hlen.
  - cbn in *. destruct (progress st (proj1 Hst)) as [Hfin | (g & Hg & Hcan)];
      [exact Hfin |].
    destruct Hcan as [st' Hstep].
    pose proof (step_measure g st st' Hst Hstep). lia.
  - change (mjoin (round :: rounds)) with (round ++ mjoin rounds).
    rewrite pipeline_run_app.
    inversion Hfair as [|? ? Hround Hrest]; subst.
    destruct (progress st (proj1 Hst)) as [Hfin | (g & Hg & Hcan)].
    + apply finished_run, finished_run. exact Hfin.
    + apply IH; [apply ready_run; exact Hst | exact Hrest |].
      pose proof (measure_turn g round st Hst
                    (fair_round_turn round g Hround Hg) Hcan).
      cbn [length] in Hlen. lia.
Qed.

Lemma step_produced (g : goroutine) (st st' : state) :
  step cfg g st = Some st' -> (produced st <= produced st')%nat.
Proof.
  intros Hstep. clear capacity_pos limit_range.
  step_cases Hstep; cbn; lia.
Qed.

Lemma run_produced (schedule : list goroutine) :
  forall st, (produced st <= produced (run cfg schedule st))%nat.
Proof.
  induction schedule as [|g gs IH]; intros st; [reflexivity |].
  rewrite pipeline_run_cons.
  destruct (step cfg g st) as [st'|] eqn:Hstep; cbn [default]; unfold id.
  - pose proof (step_produced g st st' Hstep). pose proof (IH st'). lia.
  - apply IH.
Qed.

(** The invariants hold along a run on which the count of frames stays
    within a [uint]. *)
Lemma sound_run (schedule : list goroutine) :
  forall st,
    sound st ->
    Z.of_nat (produced (run cfg schedule st)) + 1 < 2 ^ 64 ->
    sound (run cfg schedule st).
Proof.
  induction schedule as [|g gs IH]; intros st Hst Hroom; [exact Hst |].
  rewrite pipeline_run_cons in *.
  destruct (step cfg g st) as [st'|] eqn:Hstep; cbn [default] in *;
    unfold id in *; [| exact (IH st Hst Hroom)].
  apply IH; [| exact Hroom].
  apply (step_sound g st st' Hst); [| exact Hstep].
  unfold headroom. pose proof (step_produced g st st' Hstep).
  pose proof (run_produced gs st'). destruct (producer_at st); lia.
Qed.

(** The frames produced and the one in production. *)
Definition owed (st : state) : nat :=
  (produced st + match producer_at st with PRender => 1 | _ => 0 end)%nat.

Lemma step_owed (g : goroutine) (st st' : state) :
  cancelled (ch st) = true -> step cfg g st = Some st' ->
  cancelled (ch st') = true /\ (owed st' <= owed st)%nat.
Proof.
  unfold owed. intros Hcn Hstep. clear capacity_pos limit_range.
  step_cases Hstep; cbn in *; subst; try discriminate; split;
    try reflexivity; try lia.
Qed.

Lemma run_owed (schedule : list goroutine) :
  forall st, cancelled (ch st) = true ->
    (owed (run cfg schedule st) <= owed st)%nat.
Proof.
  induction schedule as [|g gs IH]; intros st Hcn; [reflexivity |].
  rewrite pipeline_run_cons.
  destruct (step cfg g st) as [st'|] eqn:Hstep; cbn [default]; unfold id.
  - destruct (step_owed g st st' Hcn Hstep) as [Hcn' Hle].
    pose proof (IH st' Hcn'). lia.
  - apply IH. exact Hcn.
Qed.

(** Where every goroutine is gone nothing is left on the way. *)
Lemma finished_delivered (st : state) :
  sound st -> finished st ->
  encoded st ++ drained st = seq 0 (produced st) /\
  frame st = Z.of_nat (produced st).
Proof.
  intros (_ & (Hall & Hframe & _) & Hleft & _) (Hp & Hk & _ & _).
  unfold counter_left, counter_done, in_counter, in_producer in *.
  rewrite Hk in *. rewrite Hp in *.
  destruct (Hleft eq_refl) as (Hq & _). rewrite Hq in Hall.
  cbn [app] in *. rewrite !app_nil_r in *. split; [exact Hall |].
  rewrite Hframe, Hall, length_seq. reflexivity.
Qed.

(** [EncodeAnimation] has returned an error: the encoder goroutine is at
    [cancel()] or at the [go] of the draining loop, or that loop exists. *)
Definition failed (st : state) : Prop :=
  encoder_at st = ECancel \/ encoder_at st = ESpawn \/ drain_at st <> DNone.

Lemma step_failed (g : goroutine) (st st' : state) :
  failed st -> step cfg g st = Some st' -> failed st'.
Proof.
  unfold failed. intros Hf Hstep. clear capacity_pos limit_range.
  step_cases Hstep; cbn in *;
    repeat match goal with
           | |- context [if ?b then _ else _] => destruct b
           end;
    cbn; destruct Hf as [Hf | [Hf | Hf]];
    try discriminate Hf; try (exfalso; apply Hf; reflexivity); auto;
    right; right; discriminate.
Qed.

Lemma run_failed (schedule : list goroutine) :
  forall st, failed st -> failed (run cfg schedule st).
Proof.
  induction schedule as [|g gs IH]; intros st Hst; [exact Hst |].
  rewrite pipeline_run_cons.
  destruct (step cfg g st) as [st'|] eqn:Hstep; cbn [default]; apply IH;
    [exact (step_failed g st st' Hst Hstep) | exact Hst].
Qed.

(** The state a schedule [pre] reaches from the start, and the state the
    rounds of a further schedule reach from there. *)
Definition reached (pre : list goroutine) : state := run cfg pre start.
Definition ended (pre : list goroutine) (rounds : list (list goroutine)) : state :=
  run cfg (mjoin rounds) (reached pre).


End Shutdown.

(** Three sessions at 30 frames a second: one limited to ten frames, one
    interrupted while its first frame is in production, one whose encoder
    fails on the second frame it is handed. *)
Definition round_robin : list goroutine := [Producer; Counter; Encoder; Drain].
Definition ten_frames : session := mkSession 31 10 (fun _ _ => false).
Definition endless : session := mkSession 31 0 (fun _ _ => false).
Definition second_frame_fails : session :=
  mkSession 31 0 (fun fs _ => (2 <=? length fs)%nat).
Definition interrupted : list goroutine := [Producer; Signal; Signal].
Definition until_failure : list goroutine :=
  mjoin (replicate 8 round_robin) ++ [Encoder].

Lemma fair_round_robin (n : nat) : Forall fair_round (replicate n round_robin).
Proof.
  apply Forall_forall. intros round Hround.
  apply elem_of_replicate in Hround as [-> _].
  unfold fair_round, round_robin. repeat split; repeat constructor.
Qed.


End Pipeline.

(** ** Package [kinect]: the camera *)

Module Kinect.
Import IMU.

(** The calls into libfreenect the loop makes, in the order it makes them. *)
Inductive freenect_call :=
| set_tilt_degs | set_led | init_callbacks | set_video_mode | set_depth_mode
| start_depth | start_video
| process_events
| stop_depth | stop_video | close_device | shutdown.

(** What [Close] does once the loop has answered. *)
Inductive release_call := instances_Delete | gl_DeleteTextures.

(** [freenectLoop]: before its set-up calls; at the [select] on
    [kin.closed]; at [freenect_process_events]; at the tear-down calls after
    the loop; at the deferred [close(kin.loopClosed)]; gone. *)
Inductive loop_pc := KSetup | KSelect | KProcess | KTeardown | KDefer | KExited.

(** [Close]: at [close(kin.closed)]; at [<-kin.loopClosed]; at the release
    of the instance and its texture; returned; stopped by the panic of a
    second [close]. *)
Inductive close_pc := CClose | CWait | CRelease | CReturned | CPanic.

(** The two channels of the [kinect] struct ([open] makes both), the device
    calls made so far, and the two goroutines. *)
Record state := mkState {
  closed : chan;
  loopClosed : chan;
  device_log : list freenect_call;
  released : list release_call;
  loop_at : loop_pc;
  close_at : close_pc }.

(** One step of [freenectLoop]; [rc] is what [freenect_process_events]
    returns if the step is that call. *)
Definition step_loop (rc : Z) (st : state) : option state :=
  match loop_at st with
  | KSetup =>
      Some (mkState (closed st) (loopClosed st)
              (device_log st ++ [set_tilt_degs; set_led; init_callbacks;
                                 set_video_mode; set_depth_mode;
                                 start_depth; start_video])
              (released st) KSelect (close_at st))
  | KSelect =>
      Some (mkState (closed st) (loopClosed st) (device_log st) (released st)
              (match closed st with ChanClosed => KTeardown | ChanOpen => KProcess end)
              (close_at st))
  | KProcess =>
      Some (mkState (closed st) (loopClosed st) (device_log st ++ [process_events])
              (released st)
              (if decide (rc < 0) then KTeardown else KSelect)
              (close_at st))
  | KTeardown =>
      Some (mkState (closed st) (loopClosed st)
              (device_log st ++ [stop_depth; stop_video; close_device; shutdown])
              (released st) KDefer (close_at st))
  | KDefer =>
      Some (mkState (closed st) ChanClosed (device_log st) (released st) KExited
              (close_at st))
  | KExited => None
  end.

(** One step of [Close]: [close(kin.closed); <-kin.loopClosed;
    instances.Delete(...); gl.DeleteTextures(...); return nil]. *)
Definition step_close (st : state) : option state :=
  match close_at st with
  | CClose =>
      match closed st with
      | ChanOpen =>
          Some (mkState ChanClosed (loopClosed st) (device_log st) (released st)
                  (loop_at st) CWait)
      | ChanClosed =>
          Some (mkState (closed st) (loopClosed st) (device_log st) (released st)
                  (loop_at st) CPanic)
      end
  | CWait =>
      match loopClosed st with
      | ChanClosed =>
          Some (mkState (closed st) (loopClosed st) (device_log st) (released st)
                  (loop_at st) CRelease)
      | ChanOpen => None
      end
  | CRelease =>
      Some (mkState (closed st) (loopClosed st) (device_log st)
              (released st ++ [instances_Delete; gl_DeleteTextures])
              (loop_at st) CReturned)
  | CReturned | CPanic => None
  end.

Inductive turn := TLoop (rc : Z) | TClose.

Definition step (t : turn) (st : state) : option state :=
  match t with
  | TLoop rc => step_loop rc st
  | TClose => step_close st
  end.

Definition run (schedule : list turn) (st : state) : state :=
  foldl (fun s t => default s (step t s)) st schedule.

(** The state [open] returns in, [go kin.freenectLoop()] done, with the
    owner's one call of [Close] about to start. *)
Definition opened : state := mkState ChanOpen ChanOpen [] [] KSetup CClose.

(** A round of a fair scheduler: both goroutines get a turn. *)
Definition fair_round (round : list turn) : Prop :=
  (exists rc, TLoop rc ∈ round) /\ TClose ∈ round.

(** How far [Close] is from returning, counted in steps of the two
    goroutines: the steps [Close] itself has left, and the steps the loop has
    left before it closes [loopClosed] once [closed] is closed. *)
Definition close_dist (st : state) : nat :=
  match close_at st with
  | CClose => 3 | CWait => 2 | CRelease => 1 | CReturned | CPanic => 0
  end.

Definition loop_dist (st : state) : nat :=
  match closed st with
  | ChanOpen => 5
  | ChanClosed =>
      match loop_at st with
      | KSetup | KProcess => 4
      | KSelect => 3
      | KTeardown => 2
      | KDefer => 1
      | KExited => 0
      end
  end.

Definition distance (st : state) : nat := (close_dist st + loop_dist st)%nat.

(** What holds in every state reached from [opened]. *)
Definition consistent (st : state) : Prop :=
  close_at st <> CPanic /\
  (closed st = ChanClosed <-> close_at st <> CClose) /\
  (loopClosed st = ChanClosed <-> loop_at st = KExited) /\
  (close_at st = CRelease \/ close_at st = CReturned -> loopClosed st = ChanClosed) /\
  (loop_at st = KDefer \/ loop_at st = KExited ->
   exists before,
     device_log st = before ++ [stop_depth; stop_video; close_device; shutdown]) /\
  released st = match close_at st with
                | CReturned => [instances_Delete; gl_DeleteTextures]
                | _ => []
                end.

(** The goroutine whose turn brings [Close] nearer to returning. *)
Definition awaited (st : state) : bool :=
  match close_at st, loop_at st with
  | CWait, KExited => false
  | CWait, _ => true
  | _, _ => false
  end.

Definition is_loop_turn (t : turn) : bool :=
  match t with TLoop _ => true | TClose => false end.

(** *** [Close] on the Kinect provider *)

Lemma step_consistent (t : turn) (st st' : state) :
  consistent st -> step t st = Some st' -> consistent st'.
Proof.
  unfold consistent.
  destruct st as [c lc dl rl lpc cpc]. cbn.
  intros (Hp & Hc & Hlc & Hr & Hlog & Hrel) Hstep.
  destruct t as [rc |]; cbn in Hstep;
    destruct lpc, cpc, c, lc; cbn in *;
    try discriminate Hstep;
    try (destruct (decide (rc < 0)));
    inversion Hstep; subst; clear Hstep; cbn.
  all: try (exfalso; intuition congruence).
  all: intuition (try discriminate; try congruence; eauto).
Qed.

Lemma opened_consistent : consistent opened.
Proof.
  unfold consistent, opened. cbn.
  intuition (try discriminate; try congruence).
Qed.

Lemma run_consistent (schedule : list turn) :
  forall st, consistent st -> consistent (run schedule st).
Proof.
  induction schedule as [|t ts IH]; intros st Hst; [exact Hst |].
  cbn [run foldl]. destruct (step t st) as [st'|] eqn:Hstep; cbn [default];
    apply IH; unfold id; [eapply step_consistent; eauto | exact Hst].
Qed.

Lemma kinect_run_cons (t : turn) (ts : list turn) (st : state) :
  run (t :: ts) st = run ts (default st (step t st)).
Proof. reflexivity. Qed.

Lemma kinect_run_app (s1 s2 : list turn) (st : state) :
  run (s1 ++ s2) st = run s2 (run s1 st).
Proof. unfold run. apply foldl_app. Qed.

(** No step takes [Close] further from returning. *)
Lemma step_distance (t : turn) (st st' : state) :
  consistent st -> step t st = Some st' ->
  (distance st' <= distance st)%nat /\
  (is_loop_turn t = awaited st -> close_at st <> CReturned ->
   (distance st' < distance st)%nat) /\
  (is_loop_turn t <> awaited st ->
   awaited st' = awaited st /\ distance st' = distance st /\
   close_at st' = close_at st).
Proof.
  unfold consistent, distance, close_dist, loop_dist, awaited.
  destruct st as [c lc dl rl lpc cpc]. cbn.
  intros (Hp & Hc & Hlc & Hr & Hlog & Hrel) Hstep.
  destruct t as [rc |]; cbn in Hstep;
    destruct lpc, cpc, c, lc; cbn in *;
    try discriminate Hstep;
    try (destruct (decide (rc < 0)));
    inversion Hstep; subst; clear Hstep; cbn.
  all: try (exfalso; intuition congruence).
  all: repeat split; intros; try lia; try congruence.
Qed.

(** A turn of the awaited goroutine is never refused. *)
Lemma awaited_can_step (t : turn) (st : state) :
  consistent st -> close_at st <> CReturned ->
  is_loop_turn t = awaited st -> is_Some (step t st).
Proof.
  unfold consistent, awaited.
  destruct st as [c lc dl rl lpc cpc]. cbn.
  intros (Hp & Hc & Hlc & Hr & Hlog & Hrel) Hret.
  destruct t as [rc |]; cbn;
    destruct lpc, cpc, c, lc; cbn in *; intros Ht;
    try discriminate Ht; try (eexists; reflexivity).
  all: exfalso; intuition congruence.
Qed.

Lemma run_distance (schedule : list turn) :
  forall st, consistent st -> (distance (run schedule st) <= distance st)%nat.
Proof.
  induction schedule as [|t ts IH]; intros st Hst; [reflexivity |].
  rewrite kinect_run_cons. destruct (step t st) as [st'|] eqn:Hstep; cbn [default]; unfold id.
  - destruct (step_distance t st st' Hst Hstep) as (Hle & _).
    etransitivity; [apply IH; eapply step_consistent; eauto | exact Hle].
  - apply IH. exact Hst.
Qed.

(** A schedule that gives the awaited goroutine a turn brings [Close]
    strictly nearer to returning. *)
Lemma run_progress (schedule : list turn) :
  forall st,
    consistent st -> close_at st <> CReturned ->
    (exists t, t ∈ schedule /\ is_loop_turn t = awaited st) ->
    (distance (run schedule st) < distance st)%nat.
Proof.
  induction schedule as [|t ts IH]; intros st Hst Hret (t0 & Hin & Hkind).
  - apply elem_of_nil in Hin. contradiction.
  - rewrite kinect_run_cons.
    destruct (decide (is_loop_turn t = awaited st)) as [Heq | Hne].
    + destruct (awaited_can_step t st Hst Hret Heq) as [st' Hstep].
      rewrite Hstep. cbn [default]. unfold id.
      destruct (step_distance t st st' Hst Hstep) as (_ & Hlt & _).
      specialize (Hlt Heq Hret).
      pose proof (run_distance ts st' (step_consistent t st st' Hst Hstep)). lia.
    + assert (Hin' : t0 ∈ ts).
      { apply elem_of_cons in Hin as [-> | Hin]; [contradiction | exact Hin]. }
      destruct (step t st) as [st'|] eqn:Hstep; cbn [default]; unfold id.
      * destruct (step_distance t st st' Hst Hstep) as (_ & _ & Hsame).
        destruct (Hsame Hne) as (Haw & Hd & Hc).
        rewrite <- Hd. apply IH.
        -- eapply step_consistent; eauto.
        -- rewrite Hc. exact Hret.
        -- exists t0. split; [exact Hin' | rewrite Haw; exact Hkind].
      * apply IH; [exact Hst | exact Hret |]. exists t0. split; assumption.
Qed.

Lemma fair_round_progress (round : list turn) (st : state) :
  consistent st -> close_at st <> CReturned -> fair_round round ->
  (distance (run round st) < distance st)%nat.
Proof.
  intros Hst Hret ((rc & Hloop) & Hclose).
  apply run_progress; [exact Hst | exact Hret |].
  destruct (awaited st) eqn:Haw.
  - exists (TLoop rc). split; [exact Hloop | reflexivity].
  - exists TClose. split; [exact Hclose | reflexivity].
Qed.

Lemma returned_stays (schedule : list turn) :
  forall st, close_at st = CReturned -> close_at (run schedule st) = CReturned.
Proof.
  induction schedule as [|t ts IH]; intros st Hst; [exact Hst |].
  rewrite kinect_run_cons. destruct (step t st) as [st'|] eqn:Hstep; cbn [default]; unfold id;
    apply IH; [| exact Hst].
  destruct st as [c lc dl rl lpc cpc]. cbn in Hst. subst.
  destruct t as [rc |]; cbn in Hstep; [| discriminate].
  destruct lpc; cbn in Hstep; try destruct c; try destruct (decide (rc < 0));
    inversion Hstep; reflexivity.
Qed.

Lemma fair_rounds_return (rounds : list (list turn)) :
  forall st,
    consistent st -> Forall fair_round rounds ->
    (distance st <= length rounds)%nat ->
    close_at (run (mjoin rounds) st) = CReturned.
Proof.
  induction rounds as [|round rounds IH]; intros st Hst Hfair Hd.
  - cbn in *. destruct Hst as (Hp & _).
    unfold distance, close_dist in Hd. destruct (close_at st); try lia;
      [reflexivity | contradiction].
  - cbn [mjoin list_join]. rewrite kinect_run_app.
    inversion Hfair as [|? ? Hround Hrest]; subst.
    assert (Hdec : close_at st = CReturned \/ close_at st <> CReturned)
      by (destruct (close_at st); auto; right; discriminate).
    destruct Hdec as [Hret | Hret].
    + apply returned_stays, returned_stays. exact Hret.
    + apply IH; [apply run_consistent; exact Hst | exact Hrest |].
      pose proof (fair_round_progress round st Hst Hret Hround). cbn in Hd. lia.
Qed.

(** [Close] on the Kinect provider does what C1 asks of every provider.
    Under every schedule, once [Close] has got past [<-kin.loopClosed] the
    loop is gone, its last device calls were the four tear-down calls in
    order, and [Close] releases the instance and the texture only then.  And
    [Close] returns: after any eight rounds of a scheduler that gives both
    goroutines a turn in each round, whatever [freenect_process_events]
    returns. *)
Theorem Kinect_Close_waits_and_returns :
  (forall schedule,
      let st := run schedule opened in
      (close_at st = CRelease \/ close_at st = CReturned) ->
      loop_at st = KExited /\
      loopClosed st = ChanClosed /\
      (exists before,
          device_log st = before ++ [stop_depth; stop_video; close_device; shutdown]) /\
      (close_at st = CReturned -> released st = [instances_Delete; gl_DeleteTextures])) /\
  (forall rounds,
      Forall fair_round rounds -> (8 <= length rounds)%nat ->
      close_at (run (mjoin rounds) opened) = CReturned).
Proof.
  split.
  - intros schedule st Hpast.
    destruct (run_consistent schedule opened opened_consistent)
      as (Hp & Hc & Hlc & Hr & Hlog & Hrel).
    fold st in Hp, Hc, Hlc, Hr, Hlog, Hrel.
    pose proof (Hr Hpast) as Hclosed.
    pose proof (proj1 Hlc Hclosed) as Hexit.
    repeat split; [exact Hexit | exact Hclosed | apply Hlog; right; exact Hexit |].
    intros Hret. rewrite Hrel, Hret. reflexivity.
  - intros rounds Hfair Hlen.
    apply fair_rounds_return; [exact opened_consistent | exact Hfair |].
    cbn. lia.
Qed.

End Kinect.

(** * cmd/shady: the geometry flag *)

Module Geometry.

Import Encode.

Local Open Scope Z_scope.

(** The three [fmt.Errorf] results of [parseGeometry], with the values
    their messages are formatted from. *)
Inductive geometry_error : Type :=
| EnvEmpty
| InvalidGeometry (geom : string)
| ZeroDimension (w h : Z).

(** The character class [\d] of Go's regexp package: the ASCII digits. *)
Definition is_digit (a : ascii) : bool :=
  ((48 <=? N_of_ascii a) && (N_of_ascii a <=? 57))%N.

(** The longest prefix of digits, and what follows it. *)
Fixpoint span_digits (s : string) : string * string :=
  match s with
  | EmptyString => (EmptyString, EmptyString)
  | String a s' =>
    if is_digit a
    then let (d, r) := span_digits s' in (String a d, r)
    else (EmptyString, s)
  end.

(** [regexp.MustCompile("^(\\d+)x(\\d+)$").FindStringSubmatch]: the two
    groups, or [None] for Go's nil slice when the text does not match. *)
Definition FindStringSubmatch (geom : string) : option (string * string) :=
  let (w, r) := span_digits geom in
  match w, r with
  | String _ _, String "x"%char r' =>
    let (h, r'') := span_digits r' in
    match h, r'' with
    | String _ _, EmptyString => Some (w, h)
    | _, _ => None
    end
  | _, _ => None
  end.

Definition max_uint32 : Z := 2 ^ 32 - 1.

(** [strconv.ParseUint(s, 10, 32)], with the error dropped as the caller
    drops it: the value of a digit string, the largest 32-bit value when it
    is out of range, 0 on a syntax error. *)
Definition ParseUint (s : string) : Z :=
  match NilZero.uint_of_string s with
  | Some d => Z.min (Z.of_N (N.of_uint d)) max_uint32
  | None => 0
  end.

(** [parseGeometry]; [LEDCAT_GEOMETRY] is what [os.Getenv] returns. *)
Definition parseGeometry (LEDCAT_GEOMETRY : string) (geom : string)
  : (Z * Z) + geometry_error :=
  let from_env := String.eqb geom "env" in
  let geom := if from_env then LEDCAT_GEOMETRY else geom in
  if from_env && String.eqb geom EmptyString then inr EnvEmpty else
  match FindStringSubmatch geom with
  | None => inr (InvalidGeometry geom)
  | Some (ws, hs) =>
    let w := ParseUint ws in
    let h := ParseUint hs in
    if (w =? 0) || (h =? 0) then inr (ZeroDimension w h)
    else inl (w, h)
  end.

(** The text of a geometry, as [fmt.Sprintf("%dx%d", w, h)] prints it. *)
Definition geometry_text (w h : Z) : string :=
  String.append (fmt_d w) (String "x"%char (fmt_d h)).

Definition all_digits (s : string) : Prop :=
  Forall (fun a => is_digit a = true) (list_ascii_of_string s).

Definition starts_nondigit (r : string) : Prop :=
  match r with
  | EmptyString => True
  | String a _ => is_digit a = false
  end.

Lemma span_digits_string_of_uint (d : Decimal.uint) (r : string) :
  starts_nondigit r ->
  span_digits (String.append (NilEmpty.string_of_uint d) r)
  = (NilEmpty.string_of_uint d, r).
Proof.
  intros Hr.
  induction d as [|d IH|d IH|d IH|d IH|d IH|d IH|d IH|d IH|d IH|d IH];
    cbn [NilEmpty.string_of_uint];
    try (change (String.append (String ?a ?s) r)
           with (String a (String.append s r));
         cbn [span_digits]; rewrite IH; reflexivity).
  change (String.append EmptyString r) with r.
  destruct r as [|a r]; [reflexivity|].
  cbn [span_digits]. cbn in Hr. rewrite Hr. reflexivity.
Qed.

Lemma string_of_uint_nonempty (d : Decimal.uint) :
  d <> Decimal.Nil ->
  exists a s, NilEmpty.string_of_uint d = String a s.
Proof.
  destruct d; [congruence| |..]; intros _; cbn; eauto.
Qed.

Lemma to_uint_nonnil (n : N) : N.to_uint n <> Decimal.Nil.
Proof.
  destruct n as [|p]; [discriminate|].
  apply DecimalPos.Unsigned.to_uint_nonnil.
Qed.

Lemma fmt_d_NilEmpty (v : Z) :
  fmt_d v = NilEmpty.string_of_uint (N.to_uint (Z.to_N v)).
Proof.
  unfold fmt_d, NilZero.string_of_uint.
  pose proof (to_uint_nonnil (Z.to_N v)) as Hn.
  destruct (N.to_uint (Z.to_N v)); [congruence|reflexivity..].
Qed.

Lemma FindStringSubmatch_geometry_text (w h : Z) :
  FindStringSubmatch (geometry_text w h) = Some (fmt_d w, fmt_d h).
Proof.
  unfold FindStringSubmatch, geometry_text.
  rewrite !fmt_d_NilEmpty.
  rewrite span_digits_string_of_uint by reflexivity.
  destruct (string_of_uint_nonempty _ (to_uint_nonnil (Z.to_N w)))
    as (a & s & Hw).
  destruct (string_of_uint_nonempty _ (to_uint_nonnil (Z.to_N h)))
    as (b & t & Hh).
  rewrite Hw.
  rewrite <- (append_empty_r
                (NilEmpty.string_of_uint (N.to_uint (Z.to_N h)))) at 1.
  rewrite span_digits_string_of_uint by exact I.
  rewrite Hh. reflexivity.
Qed.

Lemma ParseUint_fmt_d (v : Z) :
  0 <= v -> ParseUint (fmt_d v) = Z.min v max_uint32.
Proof.
  intros Hv. unfold ParseUint, fmt_d.
  rewrite NilZero.usu by apply to_uint_nonnil.
  rewrite DecimalN.Unsigned.of_to. rewrite Z2N.id by exact Hv. reflexivity.
Qed.

Lemma fmt_d_head_digit (v : Z) :
  exists a s, fmt_d v = String a s /\ is_digit a = true.
Proof.
  rewrite fmt_d_NilEmpty.
  pose proof (to_uint_nonnil (Z.to_N v)) as Hn.
  destruct (N.to_uint (Z.to_N v)); [congruence|..]; cbn; eauto.
Qed.

Lemma geometry_text_not_env (w h : Z) :
  String.eqb (geometry_text w h) "env" = false.
Proof.
  unfold geometry_text.
  destruct (fmt_d_head_digit w) as (a & s & -> & Ha).
  rewrite append_cons. cbn [String.eqb].
  destruct (Ascii.eqb_spec a "e"%char) as [->|]; [discriminate Ha|reflexivity].
Qed.

Lemma geometry_text_not_empty (w h : Z) :
  String.eqb (geometry_text w h) EmptyString = false.
Proof.
  unfold geometry_text.
  destruct (fmt_d_head_digit w) as (a & s & -> & Ha). reflexivity.
Qed.

Lemma all_digits_cons (a : ascii) (s : string) :
  all_digits (String a s) <-> is_digit a = true /\ all_digits s.
Proof.
  unfold all_digits. cbn [list_ascii_of_string]. split.
  - intros H. inversion H; subst. split; assumption.
  - intros [Ha Hs]. constructor; assumption.
Qed.

Lemma span_digits_spec (s d r : string) :
  span_digits s = (d, r) ->
  s = d +:+ r /\ all_digits d /\ starts_nondigit r.
Proof.
  revert d r. induction s as [|a s IH]; intros d r; cbn [span_digits].
  - intros [= <- <-]. repeat split. constructor.
  - destruct (is_digit a) eqn:Ha.
    + destruct (span_digits s) as [d' r'] eqn:Hs. intros [= <- <-].
      destruct (IH d' r' eq_refl) as (-> & Hd & Hr).
      repeat split; [|exact Hr]. apply all_digits_cons. split; assumption.
    + intros [= <- <-]. repeat split; [constructor | exact Ha].
Qed.

Lemma span_digits_app (d r : string) :
  all_digits d -> starts_nondigit r -> span_digits (d +:+ r) = (d, r).
Proof.
  intros Hd Hr. induction d as [|a d IH].
  - change (EmptyString +:+ r) with r. destruct r as [|b r]; [reflexivity|].
    cbn [span_digits]. cbn in Hr. rewrite Hr. reflexivity.
  - apply all_digits_cons in Hd as [Ha Hd].
    rewrite append_cons. cbn [span_digits]. rewrite Ha, (IH Hd). reflexivity.
Qed.

Lemma FindStringSubmatch_spec (geom ws hs : string) :
  FindStringSubmatch geom = Some (ws, hs) <->
  geom = ws +:+ String "x"%char hs /\ ws <> EmptyString /\ hs <> EmptyString
  /\ all_digits ws /\ all_digits hs.
Proof.
  unfold FindStringSubmatch. split.
  - destruct (span_digits geom) as [w r] eqn:Hw.
    apply span_digits_spec in Hw as (-> & Hdw & _).
    destruct w as [|a w]; [discriminate|].
    destruct r as [|b r]; [discriminate|].
    destruct (Ascii.eqb_spec b "x"%char) as [->|Hb].
    2:{ destruct b as [[] [] [] [] [] [] [] []]; try discriminate.
        congruence. }
    destruct (span_digits r) as [h r'] eqn:Hh.
    apply span_digits_spec in Hh as (-> & Hdh & _).
    destruct h as [|c h]; [discriminate|].
    destruct r' as [|]; [|discriminate].
    intros [= <- <-]. rewrite append_empty_r.
    repeat split; try discriminate; assumption.
  - intros (-> & Hw & Hh & Hdw & Hdh).
    rewrite span_digits_app by (assumption || reflexivity).
    destruct ws as [|a ws]; [congruence|].
    rewrite <- (append_empty_r hs) at 1.
    rewrite span_digits_app by (assumption || exact I).
    destruct hs as [|c hs]; [congruence|]. reflexivity.
Qed.

Lemma ParseUint_range (s : string) : 0 <= ParseUint s <= max_uint32.
Proof.
  unfold ParseUint, max_uint32.
  destruct (NilZero.uint_of_string s); lia.
Qed.

(** The text that is matched: the flag, or the environment variable when
    the flag is the literal [env]. *)
Definition geometry_source (LEDCAT_GEOMETRY geom : string) : string :=
  if String.eqb geom "env" then LEDCAT_GEOMETRY else geom.

(** [parseGeometry] on a printed geometry: [WxH] in decimal with both
    dimensions at least 1 gives back the dimensions, each clamped to the
    largest 32-bit value (the range error of [ParseUint] is dropped); a
    dimension 0 is rejected with the parsed values. *)
Theorem parseGeometry_geometry_text (env : string) (w h : Z) :
  0 <= w -> 0 <= h ->
  parseGeometry env (geometry_text w h)
  = if (w =? 0) || (h =? 0)
    then inr (ZeroDimension (Z.min w max_uint32) (Z.min h max_uint32))
    else inl (Z.min w max_uint32, Z.min h max_uint32).
Proof.
  intros Hw Hh. unfold parseGeometry.
  rewrite geometry_text_not_env. cbn [andb].
  rewrite FindStringSubmatch_geometry_text.
  rewrite !ParseUint_fmt_d by assumption.
  assert (Hm : forall v, 0 <= v -> (Z.min v max_uint32 =? 0) = (v =? 0)).
  { intros v Hv. unfold max_uint32.
    destruct (Z.eqb_spec v 0) as [->|Hv0]; [reflexivity|].
    apply Z.eqb_neq. lia. }
  rewrite !Hm by assumption. reflexivity.
Qed.

Lemma parseGeometry_geometry_text_witness :
  parseGeometry "64x32" (geometry_text 128 5000000000)
  = inl (128, 4294967295).
Proof.
  exact (parseGeometry_geometry_text "64x32" 128 5000000000
           ltac:(lia) ltac:(lia)).
Defined.

Lemma parseGeometry_inl_inv (env geom : string) (w h : Z) :
  parseGeometry env geom = inl (w, h) ->
  exists ws hs,
    geometry_source env geom = ws +:+ String "x"%char hs
    /\ ws <> EmptyString /\ hs <> EmptyString
    /\ all_digits ws /\ all_digits hs
    /\ w = ParseUint ws /\ h = ParseUint hs /\ w <> 0 /\ h <> 0.
Proof.
  unfold parseGeometry, geometry_source.
  set (g := if String.eqb geom "env" then env else geom).
  destruct (String.eqb geom "env" && String.eqb g EmptyString);
    [discriminate|].
  destruct (FindStringSubmatch g) as [[ws hs]|] eqn:Hm; [|discriminate].
  apply FindStringSubmatch_spec in Hm as (Hg & Hw & Hh & Hdw & Hdh).
  destruct (Z.eqb_spec (ParseUint ws) 0) as [|Hw0]; [discriminate|].
  destruct (Z.eqb_spec (ParseUint hs) 0) as [|Hh0]; [discriminate|].
  intros [= <- <-]. exists ws, hs. repeat split; assumption.
Qed.

(** [parseGeometry] succeeds exactly on a text of one or more digits, the
    letter x, and one or more digits whose two values are not 0; the
    dimensions returned are the [ParseUint] values of the two groups. *)
Theorem parseGeometry_accepts (env geom : string) (w h : Z) :
  parseGeometry env geom = inl (w, h) <->
  exists ws hs,
    geometry_source env geom = ws +:+ String "x"%char hs
    /\ ws <> EmptyString /\ hs <> EmptyString
    /\ all_digits ws /\ all_digits hs
    /\ w = ParseUint ws /\ h = ParseUint hs /\ w <> 0 /\ h <> 0.
Proof.
  split; [apply parseGeometry_inl_inv|].
  unfold parseGeometry, geometry_source.
  set (g := if String.eqb geom "env" then env else geom).
  intros (ws & hs & Hg & Hw & Hh & Hdw & Hdh & -> & -> & Hw0 & Hh0).
  assert (Hne : String.eqb g EmptyString = false).
  { rewrite Hg. destruct ws; [congruence|reflexivity]. }
  rewrite Hne, andb_false_r.
  assert (Hm : FindStringSubmatch g = Some (ws, hs)).
  { apply FindStringSubmatch_spec. repeat split; assumption. }
  rewrite Hm.
  destruct (Z.eqb_spec (ParseUint ws) 0); [congruence|].
  destruct (Z.eqb_spec (ParseUint hs) 0); [congruence|]. reflexivity.
Qed.

(** Every geometry [parseGeometry] returns has both dimensions between 1
    and 2^32 - 1. *)
Theorem parseGeometry_dimensions (env geom : string) (w h : Z) :
  parseGeometry env geom = inl (w, h) ->
  1 <= w <= 4294967295 /\ 1 <= h <= 4294967295.
Proof.
  intros H. apply parseGeometry_inl_inv in H
    as (ws & hs & _ & _ & _ & _ & _ & -> & -> & Hw & Hh).
  pose proof (ParseUint_range ws) as Rw.
  pose proof (ParseUint_range hs) as Rh.
  unfold max_uint32 in *. lia.
Qed.

Lemma parseGeometry_dimensions_witness :
  1 <= 64 <= 4294967295 /\ 1 <= 32 <= 4294967295.
Proof.
  apply (parseGeometry_dimensions EmptyString "64x32" 64 32).
  vm_compute. reflexivity.
Defined.

End Geometry.

(** * Package [encode]: what the raw formats write *)

Module RawContent.

Import GoInt GoImage Encode.

Local Open Scope Z_scope.

(** The channel [k] (0 red, 1 green, 2 blue) of a colour. *)
Definition channel (c : Color) (k : Z) : Z :=
  if decide (k = 0) then cR c else if decide (k = 1) then cG c else cB c.

(** Position [3*(y*W + x) + k] of the output. *)
Definition RGB24_pos (W x y k : Z) : nat := Z.to_nat (3 * (y * W + x) + k).

(** What one turn of the inner loop has to do for the two loops to fill the
    buffer with [E]: write the three bytes of its pixel, keep the length
    and every other byte. *)
Definition writes_pixel (W H : Z) (E : Z -> Z -> Z -> Z)
    (pixel : Z -> Z -> list Z -> option (list Z)) : Prop :=
  forall x y buf,
    0 <= x < W -> 0 <= y < H -> Z.of_nat (length buf) = W * H * 3 ->
    exists buf',
      pixel y x buf = Some buf' /\ length buf' = length buf /\
      (forall k, 0 <= k < 3 -> buf' !! RGB24_pos W x y k = Some (E x y k)) /\
      (forall j : nat,
          Z.of_nat j < 3 * (y * W + x) \/ 3 * (y * W + x) + 3 <= Z.of_nat j ->
          buf' !! j = buf !! j).

Lemma fill_loops_content (W H : Z) (E : Z -> Z -> Z -> Z)
    (pixel : Z -> Z -> list Z -> option (list Z)) (buf0 : list Z) :
  0 <= W -> 0 <= H -> Z.of_nat (length buf0) = W * H * 3 ->
  writes_pixel W H E pixel ->
  exists buf,
    for_int 0 H (fun y => for_int 0 W (pixel y)) buf0 = Some buf /\
    Z.of_nat (length buf) = W * H * 3 /\
    forall x y k, 0 <= x < W -> 0 <= y < H -> 0 <= k < 3 ->
      buf !! RGB24_pos W x y k = Some (E x y k).
Proof.
  intros HW HH Hlen Hpix.
  set (done := fun (y0 x0 : Z) (buf : list Z) =>
    Z.of_nat (length buf) = W * H * 3 /\
    forall x y k, 0 <= x < W -> 0 <= y < H -> 0 <= k < 3 ->
      y < y0 \/ (y = y0 /\ x < x0) ->
      buf !! RGB24_pos W x y k = Some (E x y k)).
  destruct (for_int_rule (fun y buf => done y 0 buf) 0 H
              (fun y => for_int 0 W (pixel y)) buf0) as (buf & Hb & Hl & Hc).
  - exact HH.
  - split; [exact Hlen|]. intros; lia.
  - intros y buf Hy [Hl Hc].
    destruct (for_int_rule (fun x buf => done y x buf) 0 W (pixel y) buf)
      as (buf' & Hb' & Hl' & Hc').
    + exact HW.
    + split; assumption.
    + intros x b Hx [Hlb Hcb].
      destruct (Hpix x y b Hx Hy Hlb) as (b' & Hp & Hlb' & Hnew & Hold).
      exists b'. split; [exact Hp|]. split; [lia|].
      intros x' y' k Hx' Hy' Hk Hbefore.
      destruct (decide (x' = x /\ y' = y)) as [[-> ->]|Hne].
      * apply Hnew. exact Hk.
      * rewrite Hold.
        -- apply Hcb; try assumption. lia.
        -- unfold RGB24_pos. rewrite Z2Nat.id by nia.
           destruct Hbefore as [Hlt|[-> Hlt]]; [left; nia | left; nia].
    + exists buf'. split; [exact Hb'|]. split; [exact Hl'|].
      intros x' y' k Hx' Hy' Hk Hbefore. apply Hc'; try assumption. lia.
  - exists buf. split; [exact Hb|]. split; [exact Hl|].
    intros x y k Hx Hy Hk. apply Hc; try assumption. lia.
Qed.

Lemma copied_window (buf src : list Z) (lo : Z) :
  0 <= lo -> lo + 3 <= Z.of_nat (length buf) -> length src = 3%nat ->
  exists buf',
    copy_into buf lo (lo + 3) src = Some buf' /\ length buf' = length buf /\
    (forall k, 0 <= k < 3 -> buf' !! Z.to_nat (lo + k) = src !! Z.to_nat k) /\
    (forall j : nat, Z.of_nat j < lo \/ lo + 3 <= Z.of_nat j ->
                     buf' !! j = buf !! j).
Proof.
  intros Hlo Hhi Hsrc. unfold copy_into, slice.
  rewrite decide_True by lia. cbn.
  replace (lo + 3 - lo) with 3 by lia.
  rewrite length_take, length_drop.
  replace (Z.to_nat 3 `min` (length buf - Z.to_nat lo))%nat with 3%nat by lia.
  rewrite <- Hsrc, firstn_all.
  eexists. split; [reflexivity|]. split; [apply length_inserts|]. split.
  - intros k Hk. rewrite list_lookup_inserts by lia. f_equal. lia.
  - intros j [Hj|Hj].
    + apply list_lookup_inserts_lt. lia.
    + apply list_lookup_inserts_ge. lia.
Qed.

Lemma sliced_window (s : list Z) (lo : Z) :
  0 <= lo -> lo + 3 <= Z.of_nat (length s) ->
  exists src,
    slice s lo (lo + 3) = Some src /\ length src = 3%nat /\
    forall k, 0 <= k < 3 -> src !! Z.to_nat k = s !! Z.to_nat (lo + k).
Proof.
  intros Hlo Hhi. unfold slice. rewrite decide_True by lia.
  replace (lo + 3 - lo) with 3 by lia.
  eexists. split; [reflexivity|]. split.
  - rewrite length_take, length_drop. lia.
  - intros k Hk. rewrite lookup_take_lt by lia. rewrite lookup_drop.
    f_equal. lia.
Qed.

(** The bytes [Pix[4*i + k]] the RGBA branch copies, [i = y*W + x]. *)
Definition Pix_linear (p : RGBA) (W x y k : Z) : Z :=
  default 0 (Pix p !! Z.to_nat (4 * (y * W + x) + k)).

Lemma RGB24_copy_pixel_content (p : RGBA) :
  RGBA_wf p -> Min (RGBA_Rect p) = mkPoint 0 0 ->
  writes_pixel (X (Max (RGBA_Rect p))) (Y (Max (RGBA_Rect p)))
    (Pix_linear p (X (Max (RGBA_Rect p))))
    (RGB24_copy_pixel (RGBA_Rect p) p).
Proof.
  intros Hwf Hmin x y buf Hx Hy Hlen.
  pose proof (wf_rect _ Hwf) as Hr.
  destruct (origin_dims _ Hr Hmin) as (HDx & HDy & HW & HH & Harea).
  destruct (RGB24_index_origin _ x y Hr Hmin Hx Hy) as (Hi & Hib).
  pose proof (RGBA_wf_pix_length p Hwf) as Hpix. rewrite Hmin in Hpix.
  cbn in Hpix. rewrite !Z.sub_0_r in Hpix.
  specialize (Hpix ltac:(lia) ltac:(lia)).
  unfold RGB24_copy_pixel. rewrite Hi in *.
  set (i := y * X (Max (RGBA_Rect p)) + x) in *.
  unfold int_max in Harea.
  rewrite !(mul_small i) by (unfold int_min, int_max; lia).
  rewrite !add_small by (unfold int_min, int_max; lia).
  destruct (sliced_window (Pix p) (i * 4)) as (src & -> & Hls & Hsrc);
    [lia..|]. cbn.
  destruct (copied_window buf src (i * 3)) as (buf' & -> & Hl & Hnew & Hold);
    [lia..|exact Hls|].
  exists buf'. split; [reflexivity|]. split; [exact Hl|]. split.
  - intros k Hk. unfold RGB24_pos, Pix_linear. fold i.
    replace (3 * i + k) with (i * 3 + k) by lia.
    rewrite Hnew, Hsrc by exact Hk.
    replace (4 * i + k) with (i * 4 + k) by lia.
    destruct (Pix p !! Z.to_nat (i * 4 + k)) eqn:E; [reflexivity|].
    apply lookup_ge_None in E. lia.
  - intros j Hj. apply Hold. fold i in Hj. lia.
Qed.

Lemma stored_byte (buf : list Z) (i v : Z) :
  0 <= i < Z.of_nat (length buf) ->
  exists buf',
    store buf i v = Some buf' /\ length buf' = length buf /\
    buf' !! Z.to_nat i = Some v /\
    (forall j : nat, j <> Z.to_nat i -> buf' !! j = buf !! j).
Proof.
  intros Hi. unfold store. rewrite decide_True by lia.
  eexists. split; [reflexivity|]. split; [apply length_insert|]. split.
  - apply list_lookup_insert_eq. lia.
  - intros j Hj. apply list_lookup_insert_ne. congruence.
Qed.

(** The bytes [byte(c >> 8)] the general branch stores. *)
Definition At_byte (img : Image) (x y k : Z) : Z :=
  to_byte (Z.shiftr (channel (At img x y) k) 8).

Lemma RGB24_store_pixel_content (img : Image) :
  Rect_wf (Bounds img) -> Min (Bounds img) = mkPoint 0 0 ->
  writes_pixel (X (Max (Bounds img))) (Y (Max (Bounds img)))
    (At_byte img) (RGB24_store_pixel (Bounds img) img).
Proof.
  intros Hr Hmin x y buf Hx Hy Hlen.
  destruct (origin_dims _ Hr Hmin) as (HDx & HDy & HW & HH & Harea).
  destruct (RGB24_index_origin _ x y Hr Hmin Hx Hy) as (Hi & Hib).
  unfold RGB24_store_pixel. rewrite Hi in *.
  set (i := y * X (Max (Bounds img)) + x) in *.
  unfold int_max in Harea.
  rewrite !(mul_small i) by (unfold int_min, int_max; lia).
  rewrite !add_small by (unfold int_min, int_max; lia).
  destruct (stored_byte buf (i * 3) (to_byte (cR (At img x y) ≫ 8)))
    as (b1 & -> & Hl1 & Hn1 & Ho1); [lia|]. cbn.
  destruct (stored_byte b1 (i * 3 + 1) (to_byte (cG (At img x y) ≫ 8)))
    as (b2 & -> & Hl2 & Hn2 & Ho2); [lia|]. cbn.
  destruct (stored_byte b2 (i * 3 + 2) (to_byte (cB (At img x y) ≫ 8)))
    as (b3 & -> & Hl3 & Hn3 & Ho3); [lia|].
  exists b3. split; [reflexivity|]. split; [congruence|]. split.
  - intros k Hk. unfold RGB24_pos, At_byte, channel. fold i.
    assert (k = 0 \/ k = 1 \/ k = 2) as [-> | [-> | ->]] by lia.
    + rewrite decide_True by reflexivity.
      rewrite Ho3, Ho2 by lia. rewrite <- Hn1. f_equal. lia.
    + rewrite decide_False, decide_True by lia.
      rewrite Ho3 by lia. rewrite <- Hn2. f_equal. lia.
    + rewrite !decide_False by lia. rewrite <- Hn3. f_equal. lia.
  - intros j Hj. fold i in Hj. rewrite Ho3, Ho2, Ho1 by lia. reflexivity.
Qed.

(** What the pixel loops leave at the three positions of pixel (x, y). *)
Definition RGB24_expected (img : Image) (x y k : Z) : Z :=
  match img with
  | ImageRGBA p => Pix_linear p (Dx (Bounds img)) x y k
  | ImageOther _ _ => At_byte img x y k
  end.

Lemma RGB24_fill_content (img : Image) :
  Image_wf img -> at_origin img ->
  exists buf,
    RGB24_fill img = Some buf /\
    Z.of_nat (length buf) = Dx (Bounds img) * Dy (Bounds img) * 3 /\
    forall x y k,
      0 <= x < Dx (Bounds img) -> 0 <= y < Dy (Bounds img) -> 0 <= k < 3 ->
      buf !! RGB24_pos (Dx (Bounds img)) x y k
      = Some (RGB24_expected img x y k).
Proof.
  intros Hwf Hmin. unfold at_origin in Hmin.
  pose proof (Image_wf_bounds img Hwf) as Hr.
  destruct (origin_dims _ Hr Hmin) as (HDx & HDy & HW & HH & Harea).
  unfold RGB24_fill, RGB24_expected. rewrite HDx, HDy, Hmin. cbn [X Y].
  unfold int_max in Harea.
  assert (0 <= X (Max (Bounds img)) * Y (Max (Bounds img))) by nia.
  rewrite (mul_small (X (Max (Bounds img)))) by (unfold int_min, int_max; lia).
  rewrite mul_small by (unfold int_min, int_max; lia).
  unfold make_bytes. rewrite decide_True by lia. cbn [mbind option_bind].
  destruct img as [p | b f]; cbn [Bounds] in *.
  - apply fill_loops_content; [lia | lia | rewrite length_replicate; lia |].
    apply RGB24_copy_pixel_content; assumption.
  - apply fill_loops_content; [lia | lia | rewrite length_replicate; lia |].
    apply (RGB24_store_pixel_content (ImageOther b f)); assumption.
Qed.

(** Raw RGB24 of an [*image.RGBA] at the origin: the three bytes of output
    pixel [i = y*Dx + x] are [Pix[4*i], Pix[4*i+1], Pix[4*i+2]], whatever
    the image's [Stride] is; the alpha bytes are left out. *)
Theorem RGB24_Encode_RGBA_linear {Sink : Type}
    (Writer_Write : Sink -> list Z -> Sink * option error)
    (f : RGB24Format) (w : Sink) (p : RGBA) :
  RGBA_wf p -> Min (RGBA_Rect p) = mkPoint 0 0 ->
  exists buf,
    RGB24Format_Encode Writer_Write f w (ImageRGBA p)
    = Some (Writer_Write w buf) /\
    Z.of_nat (length buf) = Dx (RGBA_Rect p) * Dy (RGBA_Rect p) * 3 /\
    forall i k, 0 <= i < Dx (RGBA_Rect p) * Dy (RGBA_Rect p) -> 0 <= k < 3 ->
      exists v, buf !! Z.to_nat (3 * i + k) = Some v /\
                Pix p !! Z.to_nat (4 * i + k) = Some v.
Proof.
  intros Hwf Hmin.
  destruct (RGB24_fill_content (ImageRGBA p) Hwf Hmin) as (buf & Hb & Hl & Hc).
  pose proof (wf_rect _ Hwf) as Hr.
  destruct (origin_dims _ Hr Hmin) as (HDx & HDy & HW & HH & Harea).
  pose proof (RGBA_wf_pix_length p Hwf) as Hpix. rewrite Hmin in Hpix.
  cbn in Hpix. rewrite !Z.sub_0_r in Hpix.
  cbn [Bounds] in *.
  exists buf. unfold RGB24Format_Encode. rewrite Hb.
  split; [reflexivity|]. split; [exact Hl|].
  intros i k Hi Hk.
  set (W := Dx (RGBA_Rect p)) in *.
  assert (HWpos : 0 < W) by nia.
  assert (Hx : 0 <= i mod W < W) by (apply Z.mod_pos_bound; lia).
  assert (Hdiv : i = i / W * W + i mod W)
    by (rewrite Z.mul_comm; apply Z.div_mod; lia).
  assert (Hy : 0 <= i / W < Dy (RGBA_Rect p)).
  { split; [apply Z.div_pos; lia|].
    apply Z.div_lt_upper_bound; [lia|]. lia. }
  specialize (Hc (i mod W) (i / W) k Hx Hy Hk).
  unfold RGB24_pos, RGB24_expected, Pix_linear in Hc.
  cbn [Bounds] in Hc. fold W in Hc. rewrite <- Hdiv in Hc.
  destruct (Pix p !! Z.to_nat (4 * i + k)) as [v|] eqn:E.
  - exists v. split; [exact Hc | reflexivity].
  - apply lookup_ge_None in E. specialize (Hpix ltac:(lia) ltac:(nia)).
    rewrite <- HDx, <- HDy in Hpix. fold W in Hpix. nia.
Qed.

Definition two_pixels_RGBA : RGBA :=
  mkRGBA [1; 2; 3; 255; 4; 5; 6; 255] 8 (Rect 0 0 2 1).

Lemma RGB24_Encode_RGBA_linear_witness :
  RGBA_wf two_pixels_RGBA /\ Min (RGBA_Rect two_pixels_RGBA) = mkPoint 0 0 /\
  exists buf,
    RGB24Format_Encode Buffer_Write mkRGB24Format [] (ImageRGBA two_pixels_RGBA)
    = Some (Buffer_Write [] buf) /\
    Z.of_nat (length buf)
    = Dx (RGBA_Rect two_pixels_RGBA) * Dy (RGBA_Rect two_pixels_RGBA) * 3 /\
    forall i k,
      0 <= i < Dx (RGBA_Rect two_pixels_RGBA) * Dy (RGBA_Rect two_pixels_RGBA) ->
      0 <= k < 3 ->
      exists v, buf !! Z.to_nat (3 * i + k) = Some v /\
                Pix two_pixels_RGBA !! Z.to_nat (4 * i + k) = Some v.
Proof.
  split; [exact two_pixels_wf|]. split; [reflexivity|].
  exact (RGB24_Encode_RGBA_linear Buffer_Write mkRGB24Format [] two_pixels_RGBA
           two_pixels_wf eq_refl).
Defined.

(** An [*image.RGBA] whose rows follow one another without a gap, as
    [image.NewRGBA] lays them out, with [uint8] pixel data; no condition on
    a frame of another type. *)
Definition packed (img : Image) : Prop :=
  match img with
  | ImageRGBA p =>
    Stride p = 4 * Dx (RGBA_Rect p) /\ Forall (fun b => 0 <= b < 256) (Pix p)
  | ImageOther _ _ => True
  end.

Lemma to_byte_widen (v : Z) :
  0 <= v < 256 -> to_byte (Z.shiftr (widen v) 8) = v.
Proof.
  intros Hv. unfold to_byte, widen.
  rewrite Z.shiftr_lor, Z.shiftr_shiftl_l by lia.
  rewrite Z.sub_diag, Z.shiftl_0_r.
  rewrite Z.shiftr_div_pow2 by lia.
  rewrite Z.div_small by (change (2 ^ 8) with 256; lia).
  rewrite Z.lor_0_l. apply Z.mod_small. exact Hv.
Qed.

Lemma Pix_byte (p : RGBA) (n : nat) :
  Forall (fun b => 0 <= b < 256) (Pix p) ->
  0 <= default 0 (Pix p !! n) < 256.
Proof.
  intros Hb. destruct (Pix p !! n) as [v|] eqn:E; cbn; [|lia].
  exact (proj1 (Forall_lookup _ _) Hb n v E).
Qed.

Lemma packed_RGBA_At (p : RGBA) (x y k : Z) :
  RGBA_wf p -> Min (RGBA_Rect p) = mkPoint 0 0 -> packed (ImageRGBA p) ->
  0 <= x < Dx (RGBA_Rect p) -> 0 <= y < Dy (RGBA_Rect p) -> 0 <= k < 3 ->
  Pix_linear p (Dx (RGBA_Rect p)) x y k = At_byte (ImageRGBA p) x y k.
Proof.
  intros Hwf Hmin [Hs Hb] Hx Hy Hk.
  pose proof (wf_rect _ Hwf) as Hr.
  destruct (origin_dims _ Hr Hmin) as (HDx & HDy & HW & HH & Harea).
  unfold At_byte, Pix_linear. cbn [At]. unfold RGBA_At, In_rect, PixOffset.
  rewrite Hs, Hmin. cbn [X Y]. rewrite !Z.sub_0_r.
  rewrite <- HDx, <- HDy.
  replace (0 <=? x) with true by (symmetry; apply Z.leb_le; lia).
  replace (x <? Dx (RGBA_Rect p)) with true by (symmetry; apply Z.ltb_lt; lia).
  replace (0 <=? y) with true by (symmetry; apply Z.leb_le; lia).
  replace (y <? Dy (RGBA_Rect p)) with true by (symmetry; apply Z.ltb_lt; lia).
  cbn [andb]. set (W := Dx (RGBA_Rect p)) in *.
  replace (y * (4 * W) + x * 4) with (4 * (y * W + x)) by lia.
  assert (Hn : 0 <= 4 * (y * W + x)) by nia.
  unfold channel, color_RGBA. cbn [cR cG cB].
  assert (k = 0 \/ k = 1 \/ k = 2) as [-> | [-> | ->]] by lia.
  - rewrite decide_True by reflexivity. rewrite to_byte_widen by (apply Pix_byte, Hb).
    rewrite Z.add_0_r. reflexivity.
  - rewrite decide_False, decide_True by lia.
    rewrite to_byte_widen by (apply Pix_byte, Hb).
    replace (Z.to_nat (4 * (y * W + x) + 1)) with (S (Z.to_nat (4 * (y * W + x))))
      by lia. reflexivity.
  - rewrite !decide_False by lia.
    rewrite to_byte_widen by (apply Pix_byte, Hb).
    replace (Z.to_nat (4 * (y * W + x) + 2))
      with (S (S (Z.to_nat (4 * (y * W + x))))) by lia. reflexivity.
Qed.

(** Raw RGB24 is the frame's pixels in row-major order, three bytes each:
    for a well-formed frame at the origin (an [*image.RGBA] with gap-free
    rows), the bytes at [3*(y*Dx + x) + k] are the high bytes of the red,
    green and blue channels [At(x, y).RGBA()] reports, on both branches of
    the type switch. *)
Theorem RGB24_Encode_pixels {Sink : Type}
    (Writer_Write : Sink -> list Z -> Sink * option error)
    (f : RGB24Format) (w : Sink) (img : Image) :
  Image_wf img -> at_origin img -> packed img ->
  exists buf,
    RGB24Format_Encode Writer_Write f w img = Some (Writer_Write w buf) /\
    forall x y k,
      0 <= x < Dx (Bounds img) -> 0 <= y < Dy (Bounds img) -> 0 <= k < 3 ->
      buf !! Z.to_nat (3 * (y * Dx (Bounds img) + x) + k)
      = Some (to_byte (Z.shiftr (channel (At img x y) k) 8)).
Proof.
  intros Hwf Hmin Hp.
  destruct (RGB24_fill_content img Hwf Hmin) as (buf & Hb & Hl & Hc).
  exists buf. unfold RGB24Format_Encode. rewrite Hb. split; [reflexivity|].
  intros x y k Hx Hy Hk. specialize (Hc x y k Hx Hy Hk).
  unfold RGB24_pos in Hc. rewrite Hc. f_equal.
  destruct img as [p | b g]; [|reflexivity].
  apply packed_RGBA_At; assumption.
Qed.

Lemma RGB24_Encode_pixels_witness :
  Image_wf two_pixels /\ at_origin two_pixels /\ packed two_pixels /\
  exists buf,
    RGB24Format_Encode Buffer_Write mkRGB24Format [] two_pixels
    = Some (Buffer_Write [] buf) /\
    forall x y k,
      0 <= x < Dx (Bounds two_pixels) -> 0 <= y < Dy (Bounds two_pixels) ->
      0 <= k < 3 ->
      buf !! Z.to_nat (3 * (y * Dx (Bounds two_pixels) + x) + k)
      = Some (to_byte (Z.shiftr (channel (At two_pixels x y) k) 8)).
Proof.
  split; [exact two_pixels_wf|]. split; [reflexivity|].
  assert (Hp : packed two_pixels).
  { split; [reflexivity|]. repeat constructor; lia. }
  split; [exact Hp|].
  exact (RGB24_Encode_pixels Buffer_Write mkRGB24Format [] two_pixels
           two_pixels_wf eq_refl Hp).
Defined.

(** *** Frames whose bounds do not start at the origin *)

Lemma loopM_keeps {A St : Type} (I : St -> Prop) (body : A -> St -> option St)
    (P : A -> Prop) (xs : list A) (s : St) :
  Forall P xs -> I s ->
  (forall u t, P u -> I t ->
               body u t = None \/ exists t', body u t = Some t' /\ I t') ->
  loopM body xs s = None \/ exists t, loopM body xs s = Some t /\ I t.
Proof.
  intros HP Hs Hbody. revert s Hs.
  induction HP as [|u xs Hu HP IH]; intros s Hs; cbn [loopM].
  - right. eauto.
  - destruct (Hbody u s Hu Hs) as [-> | (t' & -> & Ht')]; [left; reflexivity|].
    cbn. apply IH. exact Ht'.
Qed.

Lemma loopM_fails {A St : Type} (I : St -> Prop) (body : A -> St -> option St)
    (P : A -> Prop) (xs : list A) (v : A) (s : St) :
  Forall P xs -> v ∈ xs -> I s ->
  (forall u t, P u -> I t ->
               body u t = None \/ exists t', body u t = Some t' /\ I t') ->
  (forall t, I t -> body v t = None) ->
  loopM body xs s = None.
Proof.
  intros HP Hv Hs Hbody Hbad. revert s Hs.
  induction HP as [|u xs Hu HP IH]; intros s Hs; cbn [loopM].
  - inversion Hv.
  - apply elem_of_cons in Hv as [<- | Hv].
    + rewrite (Hbad s Hs). reflexivity.
    + destruct (Hbody u s Hu Hs) as [-> | (t' & -> & Ht')]; [reflexivity|].
      cbn. apply IH; assumption.
Qed.

Lemma seqZ_range (lo hi : Z) : Forall (fun u => lo <= u < hi) (seqZ lo (hi - lo)).
Proof.
  apply Forall_forall. intros u Hu. apply elem_of_seqZ in Hu. lia.
Qed.

(** A counted loop whose turns keep [I] or panic, keeps [I] or panics. *)
Lemma for_int_keeps {St : Type} (I : St -> Prop) (lo hi : Z)
    (body : Z -> St -> option St) (s : St) :
  I s ->
  (forall u t, lo <= u < hi -> I t ->
               body u t = None \/ exists t', body u t = Some t' /\ I t') ->
  for_int lo hi body s = None \/ exists t, for_int lo hi body s = Some t /\ I t.
Proof.
  intros Hs Hbody. unfold for_int.
  eapply (loopM_keeps I body (fun u => lo <= u < hi));
    [apply seqZ_range | exact Hs | exact Hbody].
Qed.

(** ... and panics when one of its turns panics in every state with [I]. *)
Lemma for_int_fails {St : Type} (I : St -> Prop) (lo hi v : Z)
    (body : Z -> St -> option St) (s : St) :
  lo <= v < hi -> I s ->
  (forall u t, lo <= u < hi -> I t ->
               body u t = None \/ exists t', body u t = Some t' /\ I t') ->
  (forall t, I t -> body v t = None) ->
  for_int lo hi body s = None.
Proof.
  intros Hv Hs Hbody Hbad. unfold for_int.
  eapply (loopM_fails I body (fun u => lo <= u < hi) _ v);
    [apply seqZ_range | apply elem_of_seqZ; lia | exact Hs | exact Hbody
    | exact Hbad].
Qed.

(** Coordinates far from the limits of [int], so that no index wraps. *)
Definition small_bounds (r : Rectangle) : Prop :=
  - 2 ^ 29 <= X (Min r) /\ X (Max r) <= 2 ^ 29 /\
  - 2 ^ 29 <= Y (Min r) /\ Y (Max r) <= 2 ^ 29.

Lemma small_dims (r : Rectangle) :
  Rect_wf r -> small_bounds r ->
  Dx r = X (Max r) - X (Min r) /\ Dy r = Y (Max r) - Y (Min r).
Proof.
  intros [Hx Hy _ _ _ _] (H1 & H2 & H3 & H4). unfold Dx, Dy.
  rewrite !sub_small by (unfold int_min, int_max; lia). split; reflexivity.
Qed.

Lemma small_index (r : Rectangle) (x y : Z) :
  Rect_wf r -> small_bounds r ->
  X (Min r) <= x < X (Max r) -> Y (Min r) <= y < Y (Max r) ->
  RGB24_index r x y = y * (X (Max r) - X (Min r)) + x /\
  - 2 ^ 60 <= RGB24_index r x y <= 2 ^ 60.
Proof.
  intros Hr Hs Hx Hy. destruct (small_dims r Hr Hs) as [HDx _].
  destruct Hs as (H1 & H2 & H3 & H4).
  unfold RGB24_index. rewrite HDx.
  set (W := X (Max r) - X (Min r)).
  assert (HW : 0 < W <= 2 ^ 30) by (unfold W; lia).
  assert (Hp : - 2 ^ 59 <= y * W <= 2 ^ 59).
  { change (2 ^ 59) with (2 ^ 29 * 2 ^ 30). nia. }
  rewrite mul_small by (unfold int_min, int_max; lia).
  rewrite add_small by (unfold int_min, int_max; lia).
  lia.
Qed.

Lemma store_inv (s : list Z) (i v : Z) (t : list Z) :
  store s i v = Some t ->
  0 <= i < Z.of_nat (length s) /\ length t = length s.
Proof.
  unfold store. destruct (decide _) as [Hd|]; [|discriminate].
  intros [= <-]. split; [exact Hd | apply length_insert].
Qed.

(** The [pixel] of [RGB24_fill]: the branch of the type switch. *)
Definition RGB24_pixel (img : Image) : Z -> Z -> list Z -> option (list Z) :=
  match img with
  | ImageRGBA rgba => RGB24_copy_pixel (Bounds img) rgba
  | ImageOther _ _ => RGB24_store_pixel (Bounds img) img
  end.

Lemma RGB24_pixel_step (img : Image) (x y : Z) (buf : list Z) :
  let W := X (Max (Bounds img)) - X (Min (Bounds img)) in
  let H := Y (Max (Bounds img)) - Y (Min (Bounds img)) in
  Rect_wf (Bounds img) -> small_bounds (Bounds img) ->
  X (Min (Bounds img)) <= x < X (Max (Bounds img)) ->
  Y (Min (Bounds img)) <= y < Y (Max (Bounds img)) ->
  Z.of_nat (length buf) = W * H * 3 ->
  (RGB24_pixel img y x buf = None \/
   exists buf', RGB24_pixel img y x buf = Some buf' /\
                length buf' = length buf) /\
  (y * W + x < 0 \/ W * H <= y * W + x -> RGB24_pixel img y x buf = None).
Proof.
  intros W H Hr Hs Hx Hy Hlen.
  destruct (small_index _ x y Hr Hs Hx Hy) as (Hi & Hib). fold W in Hi.
  destruct img as [p | b g]; cbn [RGB24_pixel].
  - unfold RGB24_copy_pixel. set (i := RGB24_index _ x y) in *.
    rewrite !(mul_small i) by (unfold int_min, int_max; lia).
    rewrite !add_small by (unfold int_min, int_max; lia).
    destruct (slice (Pix p) (i * 4) (i * 4 + 3)) as [src|];
      [|split; [left|intros _]; reflexivity].
    cbn [mbind option_bind]. unfold copy_into, slice.
    destruct (decide (0 <= i * 3 /\ i * 3 <= i * 3 + 3 /\
                      i * 3 + 3 <= Z.of_nat (length buf))) as [Hd|Hd].
    + split; [|intros Hbad; lia].
      right. eexists. split; [reflexivity|]. apply length_inserts.
    + split; [left|intros _]; reflexivity.
  - unfold RGB24_store_pixel. set (i := RGB24_index _ x y) in *.
    rewrite !(mul_small i) by (unfold int_min, int_max; lia).
    rewrite !add_small by (unfold int_min, int_max; lia).
    destruct (store buf (i * 3) _) as [b1|] eqn:E1;
      [|split; [left; reflexivity|intros _; reflexivity]].
    apply store_inv in E1 as [Hd Hl1]. cbn [mbind option_bind].
    split; [|intros Hbad; nia]. right.
    destruct (store_Some b1 (i * 3 + 1) (to_byte (cG (At (ImageOther b g) x y) ≫ 8)))
      as (b2 & -> & Hl2); [nia|]. cbn [mbind option_bind].
    destruct (store_Some b2 (i * 3 + 2) (to_byte (cB (At (ImageOther b g) x y) ≫ 8)))
      as (b3 & -> & Hl3); [nia|].
    exists b3. split; [reflexivity | congruence].
Qed.

Lemma RGB24_fill_pixel (img : Image) :
  RGB24_fill img =
  buf ← make_bytes (mul (mul (Dx (Bounds img)) (Dy (Bounds img))) 3);
  for_int (Y (Min (Bounds img))) (Y (Max (Bounds img)))
    (fun y => for_int (X (Min (Bounds img))) (X (Max (Bounds img)))
                (RGB24_pixel img y)) buf.
Proof.
  unfold RGB24_fill, RGB24_pixel. destruct img as [p | b f]; cbn [Bounds];
    f_equal.
Qed.

(** Raw RGB24 needs the first index [Min.Y*Dx + Min.X] to be 0: on every
    other well-formed, non-empty frame the pixel loops index outside [buf]
    and [Encode] panics, before anything is written. *)
Theorem RGB24_Encode_off_origin_panics {Sink : Type}
    (Writer_Write : Sink -> list Z -> Sink * option error)
    (f : RGB24Format) (w : Sink) (img : Image) :
  Image_wf img -> small_bounds (Bounds img) ->
  X (Min (Bounds img)) < X (Max (Bounds img)) ->
  Y (Min (Bounds img)) < Y (Max (Bounds img)) ->
  Y (Min (Bounds img)) * Dx (Bounds img) + X (Min (Bounds img)) <> 0 ->
  RGB24Format_Encode Writer_Write f w img = None.
Proof.
  intros Hwf Hs HWpos HHpos Hi0.
  pose proof (Image_wf_bounds img Hwf) as Hr.
  destruct (small_dims _ Hr Hs) as [HDx HDy].
  unfold RGB24Format_Encode. rewrite RGB24_fill_pixel.
  rewrite HDx, HDy in *.
  set (mx := X (Min (Bounds img))) in *. set (my := Y (Min (Bounds img))) in *.
  set (Mx := X (Max (Bounds img))) in *. set (My := Y (Max (Bounds img))) in *.
  set (W := Mx - mx) in *. set (H := My - my) in *.
  assert (HWH : 0 < W * H <= 2 ^ 60).
  { destruct Hs as (H1 & H2 & H3 & H4). fold mx my Mx My in H1, H2, H3, H4.
    change (2 ^ 60) with (2 ^ 30 * 2 ^ 30). unfold W, H. nia. }
  rewrite (mul_small W) by (unfold int_min, int_max; lia).
  rewrite mul_small by (unfold int_min, int_max; lia).
  unfold make_bytes. rewrite decide_True by lia. cbn [mbind option_bind].
  set (I := fun buf : list Z => Z.of_nat (length buf) = W * H * 3).
  assert (Hkeep : forall y t, my <= y < My -> I t ->
            for_int mx Mx (RGB24_pixel img y) t = None \/
            exists t', for_int mx Mx (RGB24_pixel img y) t = Some t' /\ I t').
  { intros y t Hy Ht. apply for_int_keeps; [exact Ht|].
    intros x b Hx Hb.
    destruct (RGB24_pixel_step img x y b Hr Hs Hx Hy Hb) as [[Hn|Hk] _].
    - left. exact Hn.
    - right. destruct Hk as (b' & Hb' & Hl). exists b'.
      split; [exact Hb'|]. unfold I in *. lia. }
  assert (Hbad : forall x y, mx <= x < Mx -> my <= y < My ->
            y * W + x < 0 \/ W * H <= y * W + x ->
            forall t, I t -> for_int mx Mx (RGB24_pixel img y) t = None).
  { intros x y Hx Hy Hout t Ht.
    apply (for_int_fails I mx Mx x); [exact Hx | exact Ht | |].
    - intros u b Hu Hb.
      destruct (RGB24_pixel_step img u y b Hr Hs Hu Hy Hb) as [[Hn|Hk] _].
      + left. exact Hn.
      + right. destruct Hk as (b' & Hb' & Hl). exists b'.
        split; [exact Hb'|]. unfold I in *. lia.
    - intros b Hb.
      exact (proj2 (RGB24_pixel_step img x y b Hr Hs Hx Hy Hb) Hout). }
  assert (HI0 : I (replicate (Z.to_nat (W * H * 3)) 0)).
  { unfold I. rewrite length_replicate. lia. }
  enough (Hloop : for_int my My (fun y => for_int mx Mx (RGB24_pixel img y))
                    (replicate (Z.to_nat (W * H * 3)) 0) = None)
    by (rewrite Hloop; reflexivity).
  destruct (Z_lt_ge_dec (my * W + mx) 0) as [Hneg|Hpos].
  - apply (for_int_fails I my My my); [lia | exact HI0 | exact Hkeep |].
    apply (Hbad mx my); lia.
  - apply (for_int_fails I my My (My - 1)); [lia | exact HI0 | exact Hkeep |].
    apply (Hbad (Mx - 1) (My - 1)); [lia | lia |]. right. unfold W, H in *. nia.
Qed.

Lemma RGB24_Encode_off_origin_panics_witness :
  RGB24Format_Encode Buffer_Write mkRGB24Format [] off_origin_frame = None.
Proof.
  apply (RGB24_Encode_off_origin_panics Buffer_Write mkRGB24Format []
           off_origin_frame off_origin_frame_wf).
  - unfold small_bounds. cbn. lia.
  - cbn. lia.
  - cbn. lia.
  - vm_compute. discriminate.
Defined.

End RawContent.

(** * Package [encode]: the animated formats *)

Module Animated.

Import GoInt GoImage Encode.

Local Open Scope Z_scope.

Lemma foldl_ext_in {A B : Type} (f g : A -> B -> A) (l : list B) (a : A) :
  (forall b x, x ∈ l -> f b x = g b x) -> foldl f a l = foldl g a l.
Proof.
  revert a. induction l as [|x l IH]; intros a H; [reflexivity|].
  cbn [foldl]. rewrite (H a x) by (apply elem_of_cons; left; reflexivity).
  apply IH. intros b y Hy. apply H. apply elem_of_cons. right. exact Hy.
Qed.

(** The rows [y*2] and [y*2+1] of a turn of the row loop. *)
Lemma Ansi_row_numbers (h y : Z) :
  0 <= h <= int_max ->
  0 <= y < add (div h 2) (Z.land h 1) ->
  mul y 2 = y * 2 /\ add (mul y 2) 1 = y * 2 + 1 /\ 0 <= y * 2 < h.
Proof.
  intros Hh Hy. unfold int_max in Hh.
  assert (Hl : Z.land h 1 = h mod 2) by (apply (Z.land_ones h 1); lia).
  pose proof (Z.div_mod h 2 ltac:(lia)) as Hdm.
  pose proof (Z.mod_pos_bound h 2 ltac:(lia)) as Hm.
  assert (Hq : div h 2 = h / 2).
  { unfold div. rewrite Z.quot_div_nonneg by lia.
    apply wrap_small. unfold int_min, int_max. lia. }
  rewrite Hq, Hl in Hy.
  rewrite add_small in Hy by (unfold int_min, int_max; lia).
  rewrite mul_small by (unfold int_min, int_max; lia).
  rewrite add_small by (unfold int_min, int_max; lia).
  lia.
Qed.

(** The terminal display reads the frame through [At(x, y)] for
    [0 <= x < Dx] and [0 <= y < Dy] only, whatever [Bounds().Min] is: two
    frames of the same size that agree there give the same text and leave
    the display in the same state. *)
Theorem Ansi_frame_reads_window (f : AnsiDisplay) (img img' : Image) :
  Dx (Bounds img') = Dx (Bounds img) ->
  Dy (Bounds img') = Dy (Bounds img) ->
  0 <= Dy (Bounds img) ->
  (forall x y, 0 <= x < Dx (Bounds img) -> 0 <= y < Dy (Bounds img) ->
               At img' x y = At img x y) ->
  Ansi_frame f img' = Ansi_frame f img.
Proof.
  intros HDx HDy Hpos Hat.
  assert (Hr : int_min <= Dy (Bounds img) <= int_max) by apply wrap_range.
  assert (Hrows : forall buf,
            Ansi_rows img' (Dx (Bounds img)) (Dy (Bounds img)) buf
            = Ansi_rows img (Dx (Bounds img)) (Dy (Bounds img)) buf).
  { intros buf. unfold Ansi_rows. apply foldl_ext_in. intros b y Hy.
    apply elem_of_seqZ in Hy.
    destruct (Ansi_row_numbers (Dy (Bounds img)) y) as (Hm & Ha & Hy2);
      [lia | lia |].
    unfold Ansi_row. f_equal. apply foldl_ext_in. intros c x Hx.
    apply elem_of_seqZ in Hx.
    unfold Ansi_cell, Ansi_background. rewrite HDy, Ha, Hm.
    rewrite (Hat x (y * 2)) by lia.
    destruct (decide (y * 2 + 1 < Dy (Bounds img))) as [Hlow|]; [|reflexivity].
    rewrite (Hat x (y * 2 + 1)) by lia. reflexivity. }
  unfold Ansi_frame. rewrite HDx, HDy, !Hrows. reflexivity.
Qed.

Lemma Ansi_frame_reads_window_witness :
  Ansi_frame (mkAnsiDisplay false) (ImageOther (Rect 5 5 7 6) (At two_pixels))
  = Ansi_frame (mkAnsiDisplay false) two_pixels.
Proof.
  apply (Ansi_frame_reads_window (mkAnsiDisplay false) two_pixels
           (ImageOther (Rect 5 5 7 6) (At two_pixels))).
  - reflexivity.
  - reflexivity.
  - vm_compute. discriminate.
  - intros x y _ _. reflexivity.
Defined.

(** [At] of a well-formed [*image.RGBA] stays inside [Pix]: the four bytes
    of every pixel of [Rect] are there, so the read does not panic. *)
Lemma RGBA_wf_At_in_Pix (p : RGBA) (x y : Z) :
  RGBA_wf p -> In_rect x y (RGBA_Rect p) = true ->
  0 <= PixOffset p x y /\ PixOffset p x y + 3 < Z.of_nat (length (Pix p)).
Proof.
  intros [Hr Hs Hp] Hin. unfold In_rect in Hin.
  apply andb_true_iff in Hin as [Hin Hy2]. apply andb_true_iff in Hin as [Hin Hy1].
  apply andb_true_iff in Hin as [Hx1 Hx2].
  apply Z.leb_le in Hx1, Hy1. apply Z.ltb_lt in Hx2, Hy2.
  specialize (Hp ltac:(lia) ltac:(lia)). unfold PixOffset.
  set (W := X (Max (RGBA_Rect p)) - X (Min (RGBA_Rect p))) in *.
  set (H := Y (Max (RGBA_Rect p)) - Y (Min (RGBA_Rect p))) in *.
  set (dx := x - X (Min (RGBA_Rect p))). set (dy := y - Y (Min (RGBA_Rect p))).
  assert (0 <= dx < W) by (unfold dx, W; lia).
  assert (0 <= dy < H) by (unfold dy, H; lia).
  assert (dy * Stride p <= (H - 1) * Stride p) by nia.
  split; nia.
Qed.

(** The display's part of the call, on the model alone. *)
Lemma AnsiDisplay_EncodeAnimation_marks {Sink : Type}
    (Writer_Write : Sink -> list Z -> Sink * option error)
    (f : AnsiDisplay) (w : Sink) (stream : list Image) (interval : Duration) :
  exists f' w' rest err,
    AnsiDisplay_EncodeAnimation Writer_Write f w stream interval
    = Some (f', w', rest, err) /\
    match stream with
    | [] => f' = f /\ w' = w /\ err = None
    | img :: _ =>
      initDone f' = true /\
      forall img2 w2,
        fst (Ansi_frame f' img2) = f' /\
        snd (Ansi_frame f' img2) = ansi_home +:+ Ansi_body img2 /\
        exists r,
          AnsiDisplay_EncodeAnimation Writer_Write f' w2 [img2] interval = Some r
          /\ fst (fst (fst r)) = f'
    end.
Proof.
  assert (Hinit : forall stream f w f' w' rest err,
            AnsiDisplay_EncodeAnimation Writer_Write f w stream interval
            = Some (f', w', rest, err) ->
            initDone f = true -> f' = f).
  { clear. induction stream as [|img rest IH]; intros f w f' w' r err.
    - cbn. intros [= <- <- <- <-] _. reflexivity.
    - cbn [AnsiDisplay_EncodeAnimation]. rewrite Ansi_frame_text.
      intros H Hf. rewrite Hf in H. cbn [fst snd] in H.
      destruct (Writer_Write w _) as [w1 [e|]].
      + injection H as <- _ _ _. reflexivity.
      + exact (IH f w1 f' w' r err H Hf). }
  assert (Htotal : forall stream f w, exists r,
            AnsiDisplay_EncodeAnimation Writer_Write f w stream interval = Some r).
  { clear. induction stream as [|img rest IH]; intros f w; cbn.
    - eauto.
    - destruct (Writer_Write w _) as [w1 [e|]]; [eauto | apply IH]. }
  destruct (Htotal stream f w) as ([[[f' w'] rest] err] & Hrun).
  exists f', w', rest, err. split; [exact Hrun|].
  destruct stream as [|img tl].
  - cbn in Hrun. injection Hrun as <- <- _ <-. repeat split.
  - assert (Hdone : initDone f' = true).
    { cbn [AnsiDisplay_EncodeAnimation] in Hrun.
      rewrite Ansi_frame_text in Hrun.
      destruct (initDone f) eqn:Hf; cbn [fst snd] in Hrun.
      - destruct (Writer_Write w _) as [w1 [e|]].
        + injection Hrun as <- _ _ _. exact Hf.
        + rewrite (Hinit _ _ _ _ _ _ _ Hrun Hf). exact Hf.
      - destruct (Writer_Write w _) as [w1 [e|]].
        + injection Hrun as <- _ _ _. reflexivity.
        + rewrite (Hinit _ _ _ _ _ _ _ Hrun eq_refl). reflexivity. }
    split; [exact Hdone|]. intros img2 w2.
    rewrite Ansi_frame_text, Hdone. cbn [fst snd].
    split; [reflexivity|]. split; [reflexivity|].
    destruct (Htotal [img2] f' w2) as (r & Hr). exists r.
    split; [exact Hr|].
    destruct r as [[[f2 w3] rest2] err2]. cbn [fst].
    exact (Hinit _ _ _ _ _ _ _ Hr Hdone).
Qed.


(** [EncodeAnimation] of the terminal display on well-formed frames: no
    pixel read leaves [Pix], the call returns, and a display that has
    received a frame is initialised when it returns, also when the one
    [Write] of that frame failed: the clear sequence is not written again
    by a later call on the same display.  An empty stream leaves display
    and writer as they were. *)
Theorem AnsiDisplay_EncodeAnimation_initDone {Sink : Type}
    (Writer_Write : Sink -> list Z -> Sink * option error)
    (f : AnsiDisplay) (w : Sink) (stream : list Image) (interval : Duration) :
  Forall Image_wf stream ->
  (forall p x y,
      ImageRGBA p ∈ stream -> In_rect x y (RGBA_Rect p) = true ->
      0 <= PixOffset p x y /\ PixOffset p x y + 3 < Z.of_nat (length (Pix p))) /\
  exists f' w' rest err,
    AnsiDisplay_EncodeAnimation Writer_Write f w stream interval
    = Some (f', w', rest, err) /\
    match stream with
    | [] => f' = f /\ w' = w /\ err = None
    | img :: _ =>
      initDone f' = true /\
      forall img2 w2,
        Image_wf img2 ->
        fst (Ansi_frame f' img2) = f' /\
        snd (Ansi_frame f' img2) = ansi_home +:+ Ansi_body img2 /\
        exists r,
          AnsiDisplay_EncodeAnimation Writer_Write f' w2 [img2] interval = Some r
          /\ fst (fst (fst r)) = f'
    end.
Proof.
  intros Hwf. split.
  - intros p x y Hin Hrect.
    apply RGBA_wf_At_in_Pix; [|exact Hrect].
    exact (proj1 (Forall_forall _ _) Hwf (ImageRGBA p) Hin).
  - destruct (AnsiDisplay_EncodeAnimation_marks Writer_Write f w stream interval)
      as (f' & w' & rest & err & Hrun & Hend).
    exists f', w', rest, err. split; [exact Hrun |].
    destruct stream as [|img tl]; [exact Hend |].
    destruct Hend as [Hdone Hnext]. split; [exact Hdone |].
    intros img2 w2 _. apply Hnext.
Qed.

Lemma AnsiDisplay_EncodeAnimation_initDone_witness :
  Forall Image_wf [two_pixels; white_pixel] /\
  exists f' w' rest err,
    AnsiDisplay_EncodeAnimation Quota_Write (mkAnsiDisplay false) (0%nat, [])
      [two_pixels; white_pixel] 0
    = Some (f', w', rest, err) /\
    initDone f' = true /\ err = Some "short write"%string.
Proof.
  assert (Hwf : Forall Image_wf [two_pixels; white_pixel]).
  { constructor; [exact two_pixels_wf |].
    constructor; [exact white_pixel_wf | constructor]. }
  split; [exact Hwf |].
  destruct (AnsiDisplay_EncodeAnimation_initDone Quota_Write
              (mkAnsiDisplay false) (0%nat, []) [two_pixels; white_pixel] 0 Hwf)
    as (_ & f' & w' & rest & err & Hrun & Hdone & _).
  exists f', w', rest, err. split; [exact Hrun |]. split; [exact Hdone |].
  cbn in Hrun. injection Hrun as _ _ _ <-. reflexivity.
Defined.

Section GifContainer.

Variable Plan9 : list Color.
Variable draw_Over_paletted : Paletted -> Rectangle -> Image -> Point -> nat -> Z.

(** The [frame] of one turn of the loop of [GIFFormat.EncodeAnimation]. *)
Definition GIF_frame (img : Image) : Paletted :=
  draw_Draw_paletted draw_Over_paletted (NewPaletted (Bounds img) Plan9)
    (Bounds img) img (mkPoint 0 0).

Lemma GIF_collect_fields (interval : Duration) (stream : list Image) (g : GIF) :
  let g' := foldl (GIF_append Plan9 draw_Over_paletted interval) g stream in
  GIF_Image g' = GIF_Image g ++ (GIF_frame <$> stream) /\
  GIF_Disposal g' = GIF_Disposal g ++ replicate (length stream) DisposalBackground /\
  GIF_BackgroundIndex g' = GIF_BackgroundIndex g.
Proof.
  revert g. induction stream as [|img rest IH]; intros g; cbn [foldl].
  - cbn. rewrite !app_nil_r. repeat split.
  - destruct (IH (GIF_append Plan9 draw_Over_paletted interval g img))
      as (Hi & Hd & Hb).
    cbn zeta in *. rewrite Hi, Hd, Hb.
    cbn [GIF_append GIF_Image GIF_Disposal GIF_BackgroundIndex].
    rewrite <- !app_assoc. repeat split.
Qed.

(** The [gif.GIF] that [GIFFormat.EncodeAnimation] hands to [gif.EncodeAll]
    holds one paletted image and one disposal byte per frame received, in
    the order received: image [k] is a new [image.Paletted] with the bounds
    of frame [k], the Plan 9 palette, a stride of [Dx] and one index byte
    per pixel; every disposal is [DisposalBackground]; the background index
    is 0. *)
Theorem GIF_collect_frames (interval : Duration) (stream : list Image) :
  let g := GIF_collect Plan9 draw_Over_paletted stream interval in
  length (GIF_Image g) = length stream /\
  GIF_Disposal g = replicate (length (GIF_Image g)) DisposalBackground /\
  GIF_BackgroundIndex g = 0 /\
  forall k img, stream !! k = Some img ->
    exists frame,
      GIF_Image g !! k = Some frame /\
      P_Rect frame = Bounds img /\ P_Palette frame = Plan9 /\
      P_Stride frame = Dx (Bounds img) /\
      length (P_Pix frame) = Z.to_nat (Dx (Bounds img) * Dy (Bounds img)).
Proof.
  cbn zeta. unfold GIF_collect.
  destruct (GIF_collect_fields interval stream (mkGIF [] [] 0 [] 0))
    as (Hi & Hd & Hb).
  cbn zeta in *. cbn [GIF_Image GIF_Disposal GIF_BackgroundIndex app] in *.
  rewrite Hi, Hd, Hb. rewrite length_fmap.
  repeat split.
  intros k img Hk. exists (GIF_frame img).
  rewrite list_lookup_fmap, Hk. split; [reflexivity|].
  unfold GIF_frame, draw_Draw_paletted, NewPaletted.
  cbn [P_Rect P_Palette P_Stride P_Pix].
  repeat split. rewrite length_imap, length_replicate. reflexivity.
Qed.

End GifContainer.

(** *** The size of a terminal frame *)

Fixpoint count_char (c : ascii) (s : string) : nat :=
  match s with
  | EmptyString => 0
  | String a s' => ((if Ascii.eqb a c then 1 else 0) + count_char c s')%nat
  end.

(** Every character of [s] is one of [t]. *)
Definition uses_only (t s : string) : bool :=
  forallb (fun a => existsb (Ascii.eqb a) (list_ascii_of_string t))
          (list_ascii_of_string s).

(** The characters of the escape sequences, without the line feed. *)
Definition escape_chars : string := ESC +:+ "[;mJH0123456789".

Lemma count_char_app (c : ascii) (s t : string) :
  count_char c (s +:+ t) = (count_char c s + count_char c t)%nat.
Proof.
  induction s as [|a s IH]; [reflexivity|].
  rewrite append_cons. cbn [count_char]. rewrite IH. lia.
Qed.

Lemma uses_only_app (t s1 s2 : string) :
  uses_only t (s1 +:+ s2) = uses_only t s1 && uses_only t s2.
Proof.
  unfold uses_only. induction s1 as [|a s1 IH]; [reflexivity|].
  rewrite append_cons. cbn [list_ascii_of_string forallb].
  rewrite IH, andb_assoc. reflexivity.
Qed.

Lemma count_char_absent (c : ascii) (t : string) (a : ascii) :
  count_char c t = 0%nat ->
  existsb (Ascii.eqb a) (list_ascii_of_string t) = true ->
  Ascii.eqb a c = false.
Proof.
  induction t as [|b t IH]; cbn [count_char list_ascii_of_string existsb].
  - discriminate.
  - intros Hc Hex. destruct (Ascii.eqb_spec b c) as [->|Hbc]; [lia|].
    apply orb_true_iff in Hex as [Hab|Hex]; [|apply IH; [lia|exact Hex]].
    apply Ascii.eqb_eq in Hab as ->. apply Ascii.eqb_neq. exact Hbc.
Qed.

Lemma count_char_uses_only (c : ascii) (t s : string) :
  count_char c t = 0%nat -> uses_only t s = true -> count_char c s = 0%nat.
Proof.
  intros Hc. unfold uses_only.
  induction s as [|a s IH]; [reflexivity|].
  cbn [list_ascii_of_string forallb count_char].
  intros H. apply andb_true_iff in H as [Ha Hs].
  rewrite (count_char_absent c t a Hc Ha), (IH Hs). reflexivity.
Qed.

Lemma uses_only_string_of_uint (d : Decimal.uint) :
  uses_only escape_chars (NilEmpty.string_of_uint d) = true.
Proof.
  induction d as [|d IH|d IH|d IH|d IH|d IH|d IH|d IH|d IH|d IH|d IH];
    [reflexivity|..];
    cbn [NilEmpty.string_of_uint];
    change (uses_only escape_chars (String ?a ?s))
      with (uses_only escape_chars (String a EmptyString +:+ s));
    rewrite uses_only_app, IH; reflexivity.
Qed.

Lemma uses_only_fmt_d (v : Z) : uses_only escape_chars (fmt_d v) = true.
Proof.
  rewrite Geometry.fmt_d_NilEmpty. apply uses_only_string_of_uint.
Qed.

Lemma uses_only_ansi_fg (r g b : Z) :
  uses_only escape_chars (ansi_fg r g b) = true.
Proof.
  unfold ansi_fg. rewrite !uses_only_app, !uses_only_fmt_d. reflexivity.
Qed.

Lemma uses_only_ansi_bg (r g b : Z) :
  uses_only escape_chars (ansi_bg r g b) = true.
Proof.
  unfold ansi_bg. rewrite !uses_only_app, !uses_only_fmt_d. reflexivity.
Qed.

Lemma uses_only_Ansi_background (img : Image) (y x : Z) :
  uses_only escape_chars (Ansi_background img y x) = true.
Proof.
  unfold Ansi_background. destruct (decide _); [apply uses_only_ansi_bg|].
  reflexivity.
Qed.

Section Counting.

Variable c : ascii.
Hypothesis c_plain : count_char c escape_chars = 0%nat.

Lemma count_Ansi_cell (img : Image) (y x : Z) (buf : string) :
  count_char c (Ansi_cell img y x buf)
  = (count_char c buf + count_char c upper_half_block)%nat.
Proof.
  unfold Ansi_cell. rewrite !count_char_app.
  rewrite (count_char_uses_only c escape_chars (ansi_fg _ _ _) c_plain)
    by apply uses_only_ansi_fg.
  rewrite (count_char_uses_only c escape_chars (Ansi_background _ _ _) c_plain)
    by apply uses_only_Ansi_background.
  lia.
Qed.

Lemma count_Ansi_cells (img : Image) (y : Z) (xs : list Z) (buf : string) :
  count_char c (foldl (fun b x => Ansi_cell img y x b) buf xs)
  = (count_char c buf + length xs * count_char c upper_half_block)%nat.
Proof.
  revert buf. induction xs as [|x xs IH]; intros buf; cbn [foldl length].
  - lia.
  - rewrite IH, count_Ansi_cell. lia.
Qed.

Lemma count_Ansi_row (img : Image) (width y : Z) (buf : string) :
  count_char c (Ansi_row img width y buf)
  = (count_char c buf
     + (Z.to_nat width * count_char c upper_half_block
        + count_char c ansi_reset))%nat.
Proof.
  unfold Ansi_row. rewrite count_char_app, count_Ansi_cells, length_seqZ. lia.
Qed.

Lemma count_Ansi_rows_list (img : Image) (width : Z) (ys : list Z)
    (buf : string) :
  count_char c (foldl (fun b y => Ansi_row img width y b) buf ys)
  = (count_char c buf
     + length ys * (Z.to_nat width * count_char c upper_half_block
                    + count_char c ansi_reset))%nat.
Proof.
  revert buf. induction ys as [|y ys IH]; intros buf; cbn [foldl length].
  - lia.
  - rewrite IH, count_Ansi_row. lia.
Qed.

Lemma count_Ansi_frame (f : AnsiDisplay) (img : Image) :
  0 <= Dy (Bounds img) ->
  count_char c (snd (Ansi_frame f img))
  = (Z.to_nat ((Dy (Bounds img) + 1) / 2)
     * (Z.to_nat (Dx (Bounds img)) * count_char c upper_half_block
        + count_char c ansi_reset))%nat.
Proof.
  intros Hpos.
  assert (Hr : int_min <= Dy (Bounds img) <= int_max) by apply wrap_range.
  set (h := Dy (Bounds img)) in *. unfold int_max in Hr.
  assert (Hrows : add (div h 2) (Z.land h 1) = (h + 1) / 2).
  { assert (Hl : Z.land h 1 = h mod 2) by (apply (Z.land_ones h 1); lia).
    pose proof (Z.div_mod h 2 ltac:(lia)) as Hdm.
    pose proof (Z.mod_pos_bound h 2 ltac:(lia)) as Hm.
    assert (Hq : div h 2 = h / 2).
    { unfold div. rewrite Z.quot_div_nonneg by lia.
      apply wrap_small. unfold int_min, int_max. lia. }
    rewrite Hq, Hl. rewrite add_small by (unfold int_min, int_max; lia).
    pose proof (Z.div_mod (h + 1) 2 ltac:(lia)) as Hdm'.
    pose proof (Z.mod_pos_bound (h + 1) 2 ltac:(lia)) as Hm'.
    lia. }
  assert (Hstart : forall s, uses_only escape_chars s = true ->
            count_char c (Ansi_rows img (Dx (Bounds img)) h s)
            = (Z.to_nat ((h + 1) / 2)
               * (Z.to_nat (Dx (Bounds img)) * count_char c upper_half_block
                  + count_char c ansi_reset))%nat).
  { intros s Hs. unfold Ansi_rows.
    rewrite count_Ansi_rows_list, length_seqZ, Hrows.
    rewrite (count_char_uses_only c escape_chars s c_plain Hs). lia. }
  unfold Ansi_frame. fold h.
  destruct (negb (initDone f)); cbn [snd]; apply Hstart; reflexivity.
Qed.

End Counting.

Definition line_feed : ascii := ascii_of_nat 10.
(** The first byte of U+2580 in UTF-8; each block has it once. *)
Definition block_lead : ascii := ascii_of_nat 226.

(** The text of a frame of [Dx] by [Dy] pixels is [(Dy+1)/2] terminal
    lines of [Dx] half blocks each: it has that many line feeds and
    [Dx * ((Dy+1)/2)] block characters, whatever the colours are and
    whether it starts with the clear or the home sequence. *)
Theorem Ansi_frame_size (f : AnsiDisplay) (img : Image) :
  0 <= Dx (Bounds img) -> 0 <= Dy (Bounds img) ->
  Z.of_nat (count_char line_feed (snd (Ansi_frame f img)))
  = (Dy (Bounds img) + 1) / 2 /\
  Z.of_nat (count_char block_lead (snd (Ansi_frame f img)))
  = Dx (Bounds img) * ((Dy (Bounds img) + 1) / 2).
Proof.
  intros HW HH.
  assert (0 <= (Dy (Bounds img) + 1) / 2) by (apply Z.div_pos; lia).
  rewrite !count_Ansi_frame by (reflexivity || exact HH).
  change (count_char line_feed upper_half_block) with 0%nat.
  change (count_char line_feed ansi_reset) with 1%nat.
  change (count_char block_lead upper_half_block) with 1%nat.
  change (count_char block_lead ansi_reset) with 0%nat.
  split; nia.
Qed.

Lemma Ansi_frame_size_witness :
  Z.of_nat (count_char line_feed (snd (Ansi_frame (mkAnsiDisplay false) two_pixels)))
  = (Dy (Bounds two_pixels) + 1) / 2 /\
  Z.of_nat (count_char block_lead (snd (Ansi_frame (mkAnsiDisplay false) two_pixels)))
  = Dx (Bounds two_pixels) * ((Dy (Bounds two_pixels) + 1) / 2).
Proof.
  apply (Ansi_frame_size (mkAnsiDisplay false) two_pixels).
  - vm_compute. discriminate.
  - vm_compute. discriminate.
Defined.

End Animated.

(** * Package [kinect]: the frame callbacks *)

Module KinectFrames.

Import GoInt GoImage Encode.

Local Open Scope Z_scope.

(** [resolution = image.Rect(0, 0, 640, 480)]. *)
Definition resolution : Rectangle := Rect 0 0 640 480.

(** [length := resolution.Dx() * resolution.Dy()]. *)
Definition frame_length : Z := mul (Dx resolution) (Dy resolution).

(** The index expression [s[i]] read: a panic outside the slice. *)
Definition index (s : list Z) (i : Z) : option Z :=
  if decide (0 <= i) then s !! Z.to_nat i else None.

(** [rgbCallback] as a change of [kin.currentImage.Pix]; [rgb] is the
    slice of [length*3] bytes the callback builds over the driver's buffer.
    The callback runs with [currentImageLock] held from its first to its
    last statement. *)
Definition rgbCallback (pix rgb : list Z) : option (list Z) :=
  for_int 0 frame_length
    (fun i pix =>
       v0 ← index rgb (mul i 3);
       pix0 ← store pix (mul i 4) v0;
       v1 ← index rgb (add (mul i 3) 1);
       pix1 ← store pix0 (add (mul i 4) 1) v1;
       v2 ← index rgb (add (mul i 3) 2);
       store pix1 (add (mul i 4) 2) v2)
    pix.

Section Gamma.

(** The table [gamma [2048]uint8] that [init] fills. *)
Variable gamma : list Z.
Hypothesis gamma_length : length gamma = 2048%nat.

(** [depthCallback]: [for i, value := range depth] over the slice of
    [length] 16 bit values. *)
Definition depthCallback (pix depth : list Z) : option (list Z) :=
  for_int 0 (Z.of_nat (length depth))
    (fun i pix =>
       value ← index depth i;
       g ← index gamma value;
       store pix (add (mul i 4) 3) g)
    pix.

End Gamma.

Lemma frame_length_value : frame_length = 307200.
Proof. reflexivity. Qed.

Lemma index_Some (s : list Z) (i : Z) :
  0 <= i < Z.of_nat (length s) ->
  exists v, index s i = Some v /\ s !! Z.to_nat i = Some v.
Proof.
  intros Hi. unfold index. rewrite decide_True by lia.
  destruct (s !! Z.to_nat i) as [v|] eqn:E; [eauto|].
  apply lookup_ge_None in E. lia.
Qed.

Lemma index_None (s : list Z) (i : Z) :
  ~ (0 <= i < Z.of_nat (length s)) -> index s i = None.
Proof.
  intros Hi. unfold index. destruct (decide (0 <= i)); [|reflexivity].
  apply lookup_ge_None. lia.
Qed.

(** A loop over blocks of four bytes: turn [i] leaves at the positions of
    block [i] the values [F] gives and changes nothing else. *)
Lemma block_loop (n : Z) (F : nat -> option Z)
    (body : Z -> list Z -> option (list Z)) (pix0 : list Z) :
  0 <= n ->
  (forall i pix,
      0 <= i < n -> length pix = length pix0 ->
      (forall j : nat, 4 * i <= Z.of_nat j -> pix !! j = pix0 !! j) ->
      exists pix',
        body i pix = Some pix' /\ length pix' = length pix /\
        (forall j : nat, 4 * i <= Z.of_nat j < 4 * i + 4 -> pix' !! j = F j) /\
        (forall j : nat, Z.of_nat j < 4 * i \/ 4 * i + 4 <= Z.of_nat j ->
                         pix' !! j = pix !! j)) ->
  exists pix,
    for_int 0 n body pix0 = Some pix /\ length pix = length pix0 /\
    (forall j : nat, Z.of_nat j < 4 * n -> pix !! j = F j) /\
    (forall j : nat, 4 * n <= Z.of_nat j -> pix !! j = pix0 !! j).
Proof.
  intros Hn Hbody.
  apply (for_int_rule
           (fun i pix =>
              length pix = length pix0 /\
              (forall j : nat, Z.of_nat j < 4 * i -> pix !! j = F j) /\
              (forall j : nat, 4 * i <= Z.of_nat j -> pix !! j = pix0 !! j)));
    [exact Hn | |].
  - split; [reflexivity|]. split; [intros j Hj; lia | reflexivity].
  - intros i pix Hi (Hl & Hdone & Hrest).
    destruct (Hbody i pix Hi Hl Hrest) as (pix' & Hb & Hl' & Hnew & Hold).
    exists pix'. split; [exact Hb|]. split; [congruence|]. split.
    + intros j Hj. destruct (Z_lt_ge_dec (Z.of_nat j) (4 * i)) as [Hlt|Hge].
      * rewrite Hold by lia. apply Hdone. exact Hlt.
      * apply Hnew. lia.
    + intros j Hj. rewrite Hold by lia. apply Hrest. lia.
Qed.

(** The image after [rgbCallback]: colour bytes from [rgb], every fourth
    byte as it was. *)
Definition rgb_image (pix0 rgb : list Z) (j : nat) : option Z :=
  if decide (Z.of_nat j mod 4 = 3) then pix0 !! j
  else rgb !! Z.to_nat (3 * (Z.of_nat j / 4) + Z.of_nat j mod 4).

Lemma block_position (i : Z) (j : nat) :
  4 * i <= Z.of_nat j < 4 * i + 4 ->
  Z.of_nat j / 4 = i /\ Z.of_nat j mod 4 = Z.of_nat j - 4 * i.
Proof.
  intros Hj.
  pose proof (Z.div_mod (Z.of_nat j) 4 ltac:(lia)) as Hdm.
  pose proof (Z.mod_pos_bound (Z.of_nat j) 4 ltac:(lia)) as Hm.
  lia.
Qed.

Lemma rgbCallback_image (pix rgb : list Z) :
  Z.of_nat (length pix) = 4 * frame_length ->
  Z.of_nat (length rgb) = 3 * frame_length ->
  exists pix',
    rgbCallback pix rgb = Some pix' /\ length pix' = length pix /\
    forall j : nat, pix' !! j = rgb_image pix rgb j.
Proof.
  intros Hpix Hrgb. rewrite frame_length_value in *.
  destruct (block_loop 307200 (rgb_image pix rgb)
              (fun i pix =>
                 v0 ← index rgb (mul i 3);
                 pix0 ← store pix (mul i 4) v0;
                 v1 ← index rgb (add (mul i 3) 1);
                 pix1 ← store pix0 (add (mul i 4) 1) v1;
                 v2 ← index rgb (add (mul i 3) 2);
                 store pix1 (add (mul i 4) 2) v2) pix)
    as (pix' & Hrun & Hl & Hdone & Hrest); [lia | |].
  - intros i p Hi Hlp Hsame.
    rewrite !(mul_small i) by (unfold int_min, int_max; lia).
    rewrite !add_small by (unfold int_min, int_max; lia).
    destruct (index_Some rgb (i * 3)) as (v0 & -> & Hv0); [lia|].
    cbn [mbind option_bind].
    destruct (RawContent.stored_byte p (i * 4) v0)
      as (p0 & -> & Hl0 & Hn0 & Ho0); [lia|]. cbn [mbind option_bind].
    destruct (index_Some rgb (i * 3 + 1)) as (v1 & -> & Hv1); [lia|].
    cbn [mbind option_bind].
    destruct (RawContent.stored_byte p0 (i * 4 + 1) v1)
      as (p1 & -> & Hl1 & Hn1 & Ho1); [lia|]. cbn [mbind option_bind].
    destruct (index_Some rgb (i * 3 + 2)) as (v2 & -> & Hv2); [lia|].
    cbn [mbind option_bind].
    destruct (RawContent.stored_byte p1 (i * 4 + 2) v2)
      as (p2 & -> & Hl2 & Hn2 & Ho2); [lia|].
    exists p2. split; [reflexivity|]. split; [congruence|]. split.
    + intros j Hj. destruct (block_position i j Hj) as [Hq Hm].
      unfold rgb_image. rewrite Hq, Hm.
      assert (Z.of_nat j - 4 * i = 0 \/ Z.of_nat j - 4 * i = 1 \/
              Z.of_nat j - 4 * i = 2 \/ Z.of_nat j - 4 * i = 3)
        as [Hk | [Hk | [Hk | Hk]]] by lia; rewrite Hk.
      * rewrite decide_False by lia.
        rewrite Ho2, Ho1 by lia.
        replace j with (Z.to_nat (i * 4)) by lia. rewrite Hn0, <- Hv0.
        f_equal. lia.
      * rewrite decide_False by lia. rewrite Ho2 by lia.
        replace j with (Z.to_nat (i * 4 + 1)) by lia. rewrite Hn1, <- Hv1.
        f_equal. lia.
      * rewrite decide_False by lia.
        replace j with (Z.to_nat (i * 4 + 2)) by lia. rewrite Hn2, <- Hv2.
        f_equal. lia.
      * rewrite decide_True by reflexivity.
        rewrite Ho2, Ho1, Ho0 by lia. apply Hsame. lia.
    + intros j Hj. rewrite Ho2, Ho1, Ho0 by lia. reflexivity.
  - exists pix'. split; [exact Hrun|]. split; [exact Hl|].
    intros j. destruct (Z_lt_ge_dec (Z.of_nat j) (4 * 307200)) as [Hlt|Hge].
    + apply Hdone. exact Hlt.
    + rewrite Hrest by lia. unfold rgb_image.
      rewrite !(proj2 (lookup_ge_None _ _)); [destruct (decide _); reflexivity| |].
      * pose proof (Z.div_mod (Z.of_nat j) 4 ltac:(lia)).
        pose proof (Z.mod_pos_bound (Z.of_nat j) 4 ltac:(lia)). lia.
      * lia.
Qed.

Section GammaFacts.

Variable gamma : list Z.
Hypothesis gamma_length : length gamma = 2048%nat.

(** The image after [depthCallback]: every fourth byte from the table,
    the colour bytes as they were. *)
Definition depth_image (pix0 depth : list Z) (j : nat) : option Z :=
  if decide (Z.of_nat j mod 4 = 3)
  then value ← depth !! Z.to_nat (Z.of_nat j / 4); gamma !! Z.to_nat value
  else pix0 !! j.

Lemma depthCallback_image (pix depth : list Z) :
  Z.of_nat (length pix) = 4 * frame_length ->
  Z.of_nat (length depth) = frame_length ->
  Forall (fun value => 0 <= value < 2048) depth ->
  exists pix',
    depthCallback gamma pix depth = Some pix' /\ length pix' = length pix /\
    forall j : nat, pix' !! j = depth_image pix depth j.
Proof.
  intros Hpix Hdepth Hsmall. rewrite frame_length_value in *.
  unfold depthCallback. rewrite Hdepth.
  destruct (block_loop 307200 (depth_image pix depth)
              (fun i pix =>
                 value ← index depth i;
                 g ← index gamma value;
                 store pix (add (mul i 4) 3) g) pix)
    as (pix' & Hrun & Hl & Hdone & Hrest); [lia | |].
  - intros i p Hi Hlp Hsame.
    rewrite !(mul_small i) by (unfold int_min, int_max; lia).
    rewrite !add_small by (unfold int_min, int_max; lia).
    destruct (index_Some depth i) as (v & -> & Hv); [lia|].
    cbn [mbind option_bind].
    pose proof (proj1 (Forall_lookup _ _) Hsmall _ _ Hv) as Hvr. cbn in Hvr.
    destruct (index_Some gamma v) as (g & -> & Hg); [lia|].
    cbn [mbind option_bind].
    destruct (RawContent.stored_byte p (i * 4 + 3) g)
      as (p' & -> & Hl' & Hn & Ho); [lia|].
    exists p'. split; [reflexivity|]. split; [exact Hl'|]. split.
    + intros j Hj. destruct (block_position i j Hj) as [Hq Hm].
      unfold depth_image. rewrite Hq, Hm.
      destruct (decide (Z.of_nat j - 4 * i = 3)) as [Hk|Hk].
      * replace j with (Z.to_nat (i * 4 + 3)) by lia.
        rewrite Hn, Hv. cbn [mbind option_bind]. rewrite Hg. reflexivity.
      * rewrite Ho by lia. apply Hsame. lia.
    + intros j Hj. apply Ho. lia.
  - exists pix'. split; [exact Hrun|]. split; [exact Hl|].
    intros j. destruct (Z_lt_ge_dec (Z.of_nat j) (4 * 307200)) as [Hlt|Hge].
    + apply Hdone. exact Hlt.
    + rewrite Hrest by lia. unfold depth_image.
      destruct (decide _); [|reflexivity].
      rewrite !(proj2 (lookup_ge_None _ _)); [reflexivity | |].
      * pose proof (Z.div_mod (Z.of_nat j) 4 ltac:(lia)).
        pose proof (Z.mod_pos_bound (Z.of_nat j) 4 ltac:(lia)). lia.
      * lia.
Qed.

Lemma depthCallback_out_of_table (pix depth : list Z) (i : nat) (value : Z) :
  depth !! i = Some value -> ~ (0 <= value < 2048) ->
  depthCallback gamma pix depth = None.
Proof.
  intros Hv Hbig. unfold depthCallback.
  apply (RawContent.for_int_fails (fun _ => True) 0 _ (Z.of_nat i));
    [|exact I| |].
  - apply lookup_lt_Some in Hv. lia.
  - intros u t _ _. destruct (_ ≫= _) as [t'|]; [right; eauto | left; reflexivity].
  - intros t _.
    destruct (index_Some depth (Z.of_nat i)) as (v & -> & Hv').
    { apply lookup_lt_Some in Hv. lia. }
    rewrite Nat2Z.id, Hv in Hv'. injection Hv' as <-.
    cbn [mbind option_bind].
    rewrite index_None by lia. reflexivity.
Qed.

End GammaFacts.

Lemma pixel_position (i k : Z) :
  0 <= i -> 0 <= k < 4 ->
  Z.of_nat (Z.to_nat (4 * i + k)) / 4 = i /\
  Z.of_nat (Z.to_nat (4 * i + k)) mod 4 = k.
Proof.
  intros Hi Hk. rewrite Z2Nat.id by lia.
  destruct (block_position i (Z.to_nat (4 * i + k))) as [Hq Hm]; [lia|].
  rewrite Z2Nat.id in Hq, Hm by lia. split; [exact Hq | lia].
Qed.

(** [rgbCallback] on the 640 by 480 image: it runs through, writes the
    red, green and blue bytes of every pixel from the driver's buffer and
    leaves every pixel's fourth byte, the depth channel, as it was. *)
Theorem rgbCallback_keeps_depth (pix rgb : list Z) :
  Z.of_nat (length pix) = 4 * frame_length ->
  Z.of_nat (length rgb) = 3 * frame_length ->
  exists pix',
    rgbCallback pix rgb = Some pix' /\ length pix' = length pix /\
    forall i, 0 <= i < frame_length ->
      (forall k, 0 <= k < 3 ->
         pix' !! Z.to_nat (4 * i + k) = rgb !! Z.to_nat (3 * i + k)) /\
      pix' !! Z.to_nat (4 * i + 3) = pix !! Z.to_nat (4 * i + 3).
Proof.
  intros Hpix Hrgb.
  destruct (rgbCallback_image pix rgb Hpix Hrgb) as (pix' & Hrun & Hl & Himg).
  exists pix'. split; [exact Hrun|]. split; [exact Hl|].
  intros i Hi. split.
  - intros k Hk. rewrite Himg. unfold rgb_image.
    destruct (pixel_position i k) as [-> ->]; [lia | lia |].
    rewrite decide_False by lia. reflexivity.
  - rewrite Himg. unfold rgb_image.
    destruct (pixel_position i 3) as [_ ->]; [lia | lia |].
    rewrite decide_True by reflexivity. reflexivity.
Qed.

Definition blank_pix : list Z := replicate (Z.to_nat (4 * frame_length)) 0.
Definition grey_rgb : list Z := replicate (Z.to_nat (3 * frame_length)) 128.
Definition flat_depth : list Z := replicate (Z.to_nat frame_length) 1000.
Definition flat_gamma : list Z := replicate 2048 200.

Lemma blank_pix_length : Z.of_nat (length blank_pix) = 4 * frame_length.
Proof. unfold blank_pix. rewrite length_replicate. apply Z2Nat.id. discriminate. Qed.

Lemma grey_rgb_length : Z.of_nat (length grey_rgb) = 3 * frame_length.
Proof. unfold grey_rgb. rewrite length_replicate. apply Z2Nat.id. discriminate. Qed.

Lemma flat_depth_length : Z.of_nat (length flat_depth) = frame_length.
Proof. unfold flat_depth. rewrite length_replicate. apply Z2Nat.id. discriminate. Qed.

Lemma flat_depth_small : Forall (fun value => 0 <= value < 2048) flat_depth.
Proof. apply Forall_replicate. lia. Qed.

Lemma flat_gamma_length : length flat_gamma = 2048%nat.
Proof. apply length_replicate. Qed.

Lemma rgbCallback_keeps_depth_witness :
  exists pix',
    rgbCallback blank_pix grey_rgb = Some pix' /\
    length pix' = length blank_pix /\
    forall i, 0 <= i < frame_length ->
      (forall k, 0 <= k < 3 ->
         pix' !! Z.to_nat (4 * i + k) = grey_rgb !! Z.to_nat (3 * i + k)) /\
      pix' !! Z.to_nat (4 * i + 3) = blank_pix !! Z.to_nat (4 * i + 3).
Proof.
  exact (rgbCallback_keeps_depth blank_pix grey_rgb
           blank_pix_length grey_rgb_length).
Defined.

(** [depthCallback] on the 640 by 480 image: when every depth value is
    below 2048 it runs through, sets the fourth byte of pixel [i] to
    [gamma[depth[i]]] and leaves the colour bytes as they were; a depth
    value of 2048 or more indexes past the table and the callback panics. *)
Theorem depthCallback_table (gamma pix depth : list Z) :
  length gamma = 2048%nat ->
  Z.of_nat (length pix) = 4 * frame_length ->
  Z.of_nat (length depth) = frame_length ->
  (Forall (fun value => 0 <= value < 2048) depth ->
   exists pix',
     depthCallback gamma pix depth = Some pix' /\ length pix' = length pix /\
     forall i, 0 <= i < frame_length ->
       (forall k, 0 <= k < 3 ->
          pix' !! Z.to_nat (4 * i + k) = pix !! Z.to_nat (4 * i + k)) /\
       pix' !! Z.to_nat (4 * i + 3)
       = (value ← depth !! Z.to_nat i; gamma !! Z.to_nat value)) /\
  (~ Forall (fun value => 0 <= value < 2048) depth ->
   depthCallback gamma pix depth = None).
Proof.
  intros Hg Hpix Hdepth. split.
  - intros Hsmall.
    destruct (depthCallback_image gamma Hg pix depth Hpix Hdepth Hsmall)
      as (pix' & Hrun & Hl & Himg).
    exists pix'. split; [exact Hrun|]. split; [exact Hl|].
    intros i Hi. split.
    + intros k Hk. rewrite Himg. unfold depth_image.
      destruct (pixel_position i k) as [-> ->]; [lia | lia |].
      rewrite decide_False by lia. reflexivity.
    + rewrite Himg. unfold depth_image.
      destruct (pixel_position i 3) as [-> ->]; [lia | lia |].
      rewrite decide_True by reflexivity. reflexivity.
  - intros Hbig. apply not_Forall_Exists in Hbig; [|intros v; apply _].
    apply Exists_exists in Hbig as (v & Hin & Hv).
    apply list_elem_of_lookup_1 in Hin as (i & Hi).
    exact (depthCallback_out_of_table gamma Hg pix depth i v Hi Hv).
Qed.

Lemma depthCallback_table_witness :
  exists pix',
    depthCallback flat_gamma blank_pix flat_depth = Some pix' /\
    length pix' = length blank_pix /\
    forall i, 0 <= i < frame_length ->
      (forall k, 0 <= k < 3 ->
         pix' !! Z.to_nat (4 * i + k) = blank_pix !! Z.to_nat (4 * i + k)) /\
      pix' !! Z.to_nat (4 * i + 3)
      = (value ← flat_depth !! Z.to_nat i; flat_gamma !! Z.to_nat value).
Proof.
  exact (proj1 (depthCallback_table flat_gamma blank_pix flat_depth
                  flat_gamma_length blank_pix_length flat_depth_length)
               flat_depth_small).
Defined.

(** The two callbacks write disjoint bytes: run in either order on the
    same image they leave the same image, whose pixel [i] is the colour
    from the video buffer with [gamma[depth[i]]] as its fourth byte. *)
Theorem callbacks_commute (gamma pix rgb depth : list Z) :
  length gamma = 2048%nat ->
  Z.of_nat (length pix) = 4 * frame_length ->
  Z.of_nat (length rgb) = 3 * frame_length ->
  Z.of_nat (length depth) = frame_length ->
  Forall (fun value => 0 <= value < 2048) depth ->
  exists final,
    (pix1 ← rgbCallback pix rgb; depthCallback gamma pix1 depth) = Some final /\
    (pix2 ← depthCallback gamma pix depth; rgbCallback pix2 rgb) = Some final /\
    forall i, 0 <= i < frame_length ->
      (forall k, 0 <= k < 3 ->
         final !! Z.to_nat (4 * i + k) = rgb !! Z.to_nat (3 * i + k)) /\
      final !! Z.to_nat (4 * i + 3)
      = (value ← depth !! Z.to_nat i; gamma !! Z.to_nat value).
Proof.
  intros Hg Hpix Hrgb Hdepth Hsmall.
  destruct (rgbCallback_image pix rgb Hpix Hrgb) as (p1 & Hr1 & Hl1 & Hi1).
  destruct (depthCallback_image gamma Hg p1 depth ltac:(lia) Hdepth Hsmall)
    as (f1 & Hd1 & Hlf1 & Hif1).
  destruct (depthCallback_image gamma Hg pix depth Hpix Hdepth Hsmall)
    as (p2 & Hd2 & Hl2 & Hi2).
  destruct (rgbCallback_image p2 rgb ltac:(lia) Hrgb) as (f2 & Hr2 & Hlf2 & Hif2).
  assert (Hsame : f2 = f1).
  { apply list_eq. intros j. rewrite Hif1, Hif2.
    unfold depth_image, rgb_image.
    destruct (decide (Z.of_nat j mod 4 = 3)) as [Hm|Hm].
    - rewrite Hi2. unfold depth_image. rewrite decide_True by exact Hm.
      reflexivity.
    - rewrite Hi1. unfold rgb_image. rewrite decide_False by exact Hm.
      reflexivity. }
  subst f2. exists f1. rewrite Hr1, Hd2. cbn [mbind option_bind].
  split; [exact Hd1|]. split; [exact Hr2|].
  intros i Hi. split.
  - intros k Hk. rewrite Hif2. unfold rgb_image.
    destruct (pixel_position i k) as [-> ->]; [lia | lia |].
    rewrite decide_False by lia. reflexivity.
  - rewrite Hif1. unfold depth_image.
    destruct (pixel_position i 3) as [-> ->]; [lia | lia |].
    rewrite decide_True by reflexivity. reflexivity.
Qed.

Lemma callbacks_commute_witness :
  exists final,
    (pix1 ← rgbCallback blank_pix grey_rgb;
     depthCallback flat_gamma pix1 flat_depth) = Some final /\
    (pix2 ← depthCallback flat_gamma blank_pix flat_depth;
     rgbCallback pix2 grey_rgb) = Some final /\
    forall i, 0 <= i < frame_length ->
      (forall k, 0 <= k < 3 ->
         final !! Z.to_nat (4 * i + k) = grey_rgb !! Z.to_nat (3 * i + k)) /\
      final !! Z.to_nat (4 * i + 3)
      = (value ← flat_depth !! Z.to_nat i; flat_gamma !! Z.to_nat value).
Proof.
  exact (callbacks_commute flat_gamma blank_pix grey_rgb flat_depth
           flat_gamma_length blank_pix_length grey_rgb_length
           flat_depth_length flat_depth_small).
Defined.

End KinectFrames.

(** * Package [imu]: what reaches the shader *)

Module IMUSnapshot.

Import Encode IMU.

Section Snapshot.

Variable float32 : Type.
Variable zero32 : float32.

Local Abbreviation imuDataType := (imuDataType float32).
Local Abbreviation Response := (Response float32).
Local Abbreviation state := (state float32).
Local Abbreviation turn := (turn float32).

(** The loop's one [imuReading], allocated before the loop and handed to
    every [getJson]: what it holds after the fetches that got the responses
    [h], in that order.  A fetch that fails in [Decode] leaves in it what
    [Decode] wrote before the error. *)
Definition reading_after (h : list Response) : imuDataType :=
  foldl (fun target r => fst (getJson float32 r target))
        (imuData_zero float32 zero32) h.

(** The response a turn consumes: the loop's turn at [getJson]. *)
Definition fetch_of (t : turn) (st : state) : list Response :=
  match t, loop_at float32 st with
  | TLoop _ r, LFetch => [r]
  | _, _ => []
  end.

(** The responses the fetches of a run got, in order. *)
Fixpoint fetched (schedule : list turn) (st : state) : list Response :=
  match schedule with
  | [] => []
  | t :: ts =>
      fetch_of t st ++ fetched ts (default st (step float32 t st))
  end.

(** The readings the loop publishes: the first one, from
    [newIMUPeripheral], and the state of [imuReading] right after a fetch
    of the history that returned no error. *)
Definition published (h : list Response) (first v : imuDataType) : Prop :=
  v = first \/
  exists pre r post,
    h = pre ++ r :: post /\
    snd (getJson float32 r (reading_after pre)) = None /\
    v = fst (getJson float32 r (reading_after pre)).

Definition snapshot_inv (first : imuDataType) (h : list Response)
    (st : state) : Prop :=
  imuReading float32 st = reading_after h /\
  published h first (currentValue float32 (imu float32 st)) /\
  (match loop_at float32 st with
   | LLock | LAssign =>
       exists pre r,
         h = pre ++ [r] /\ snd (getJson float32 r (reading_after pre)) = None
   | _ => True
   end) /\
  (forall v, rendered float32 st = Some v -> published h first v).

Lemma reading_after_snoc (h : list Response) (r : Response) :
  reading_after (h ++ [r]) = fst (getJson float32 r (reading_after h)).
Proof. unfold reading_after. rewrite foldl_snoc. reflexivity. Qed.

Lemma published_app (h h' : list Response) (first v : imuDataType) :
  published h first v -> published (h ++ h') first v.
Proof.
  intros [-> | (pre & r & post & -> & Hok & Hv)]; [left; reflexivity |].
  right. exists pre, r, (post ++ h'). rewrite <- app_assoc. repeat split; assumption.
Qed.

Lemma step_snapshot_inv (first : imuDataType) (h : list Response)
    (t : turn) (st st' : state) :
  snapshot_inv first h st -> step float32 t st = Some st' ->
  snapshot_inv first (h ++ fetch_of t st) st'.
Proof.
  unfold snapshot_inv, fetch_of.
  destruct st as [[p a v l c lc] lpc rd cpc rpc seen]. cbn.
  intros (Hrd & Hv & Hlast & Hseen).
  destruct t as [r | | |]; cbn.
  - destruct lpc; cbn.
    + destruct (getJson float32 r rd) as [v' [e|]] eqn:Hget; cbn;
        intros [= <-]; cbn; rewrite reading_after_snoc, <- Hrd, Hget; cbn.
      * split; [reflexivity |]. split; [apply published_app, Hv |].
        split; [exact I |]. intros u Hu. apply published_app, Hseen, Hu.
      * split; [reflexivity |]. split; [apply published_app, Hv |].
        split; [| intros u Hu; apply published_app, Hseen, Hu].
        exists h, r. split; [reflexivity |]. rewrite <- Hrd, Hget. reflexivity.
    + destruct l; cbn; [discriminate |].
      intros [= <-]; cbn. rewrite app_nil_r. repeat split; assumption.
    + intros [= <-]; cbn. rewrite app_nil_r.
      split; [exact Hrd |]. split; [| split; [exact I | exact Hseen]].
      destruct Hlast as (pre & r0 & -> & Hok). right.
      exists pre, r0, []. split; [reflexivity |]. split; [exact Hok |].
      rewrite Hrd. apply reading_after_snoc.
    + intros [= <-]; cbn. rewrite app_nil_r. repeat split; assumption.
    + intros [= <-]; cbn. rewrite app_nil_r. repeat split; assumption.
  - rewrite app_nil_r.
    destruct cpc; cbn; try destruct c as [[|]|]; try destruct lc as [[|]|];
      cbn; try discriminate; intros [= <-]; cbn; repeat split; assumption.
  - rewrite app_nil_r.
    destruct rpc; cbn; try destruct l; cbn; try discriminate;
      intros [= <-]; cbn; repeat split; try assumption.
    all: intros v' [= <-]; exact Hv.
  - rewrite app_nil_r.
    destruct rpc; cbn; try discriminate; intros [= <-]; cbn;
      repeat split; assumption.
Qed.

Lemma blocked_fetches_nothing (t : turn) (st : state) :
  step float32 t st = None -> fetch_of t st = [].
Proof.
  unfold fetch_of. destruct t as [r | | |]; try reflexivity.
  destruct st as [i lpc rd cpc rpc seen]. cbn.
  destruct lpc; [discriminate | reflexivity ..].
Qed.

Lemma run_snapshot_inv (first : imuDataType) (schedule : list turn) :
  forall h st,
    snapshot_inv first h st ->
    snapshot_inv first (h ++ fetched schedule st) (run float32 schedule st).
Proof.
  induction schedule as [|t ts IH]; intros h st Hst.
  - cbn. rewrite app_nil_r. exact Hst.
  - cbn [run foldl fetched]. rewrite app_assoc.
    destruct (step float32 t st) as [st'|] eqn:Hstep; cbn [default].
    + apply IH. unfold id.
      exact (step_snapshot_inv first h t st st' Hst Hstep).
    + rewrite (blocked_fetches_nothing t st Hstep), app_nil_r.
      apply IH. exact Hst.
Qed.

End Snapshot.

(** What [PreRender] hands to the shader.  Under every schedule of the
    polling loop, [Close] and [PreRender], the provider's [currentValue]
    and every snapshot [PreRender] has read are the reading of
    [newIMUPeripheral] or the state of the loop's [imuReading] right after
    a fetch that returned no error; so while every fetch fails the snapshot
    stays the first reading.  But [imuReading] is one value reused by every
    fetch: after a fetch whose [Decode] failed having written [d1] into it,
    the next fetch without error publishes its own decoding [d2] of that
    value, and what the failed fetch wrote and [d2] leaves alone reaches
    the shader. *)
Theorem IMU_snapshot_sources (float32 : Type) (zero32 : float32)
    (provider : IMU_values float32) (schedule : list (turn float32)) :
  let st := run float32 schedule (started float32 zero32 provider) in
  let h := fetched float32 schedule (started float32 zero32 provider) in
  let first := currentValue float32 provider in
  (imuReading float32 st = reading_after float32 zero32 h /\
   published float32 zero32 h first (currentValue float32 (imu float32 st)) /\
   (forall v, rendered float32 st = Some v ->
              published float32 zero32 h first v)) /\
  ((forall pre r post,
       h = pre ++ r :: post ->
       snd (getJson float32 r (reading_after float32 zero32 pre)) <> None) ->
   currentValue float32 (imu float32 st) = first /\
   forall v, rendered float32 st = Some v -> v = first) /\
  (forall d1 e d2,
      currentValueLock float32 provider = false ->
      rendered float32
        (run float32
           [TLoop float32 (Body float32 d1 (Some e));
            TLoop float32 (Body float32 d1 (Some e));
            TLoop float32 (Body float32 d2 None);
            TLoop float32 (Body float32 d2 None);
            TLoop float32 (Body float32 d2 None);
            TLoop float32 (Body float32 d2 None);
            TLoop float32 (Body float32 d2 None);
            TNextFrame float32; TRender float32; TRender float32;
            TRender float32]
           (started float32 zero32 provider))
      = Some (d2 (d1 (imuData_zero float32 zero32)))).
Proof.
  cbn zeta.
  destruct (run_snapshot_inv float32 zero32 (currentValue float32 provider)
              schedule [] (started float32 zero32 provider))
    as (Hrd & Hv & _ & Hseen).
  { unfold snapshot_inv. cbn. split; [reflexivity |].
    split; [left; reflexivity |]. split; [exact I | discriminate]. }
  cbn [app] in Hrd, Hv, Hseen.
  split; [split; [exact Hrd | split; [exact Hv | exact Hseen]] |]. split.
  - intros Hfail.
    assert (Hfirst : forall v,
              published float32 zero32
                (fetched float32 schedule (started float32 zero32 provider))
                (currentValue float32 provider) v ->
              v = currentValue float32 provider).
    { intros v [-> | (pre & r & post & Hh & Hok & _)]; [reflexivity |].
      exfalso. exact (Hfail pre r post Hh Hok). }
    split; [apply Hfirst, Hv |]. intros v Hs. apply Hfirst, Hseen, Hs.
  - intros d1 e d2 Hfree. destruct provider as [p a v l c lc].
    cbn in Hfree. subst l. reflexivity.
Qed.

(** A response whose [Decode] fails after it has set [Shake], and a body
    that goes through and does not mention [Shake]. *)
Definition shake_then_fail (target : imuDataType Z) : imuDataType Z :=
  mkImuData Z (Acceleration Z target) (Gyro Z target) (Magnetometer Z target)
            (Quaternione Z target) true.

Definition only_accel (target : imuDataType Z) : imuDataType Z :=
  mkImuData Z (1, 2, 3) (Gyro Z target) (Magnetometer Z target)
            (Quaternione Z target) (Shake Z target).

Lemma IMU_snapshot_sources_witness :
  rendered Z
    (run Z
       [TLoop Z (Body Z shake_then_fail (Some "unexpected EOF"%string));
        TLoop Z (Body Z shake_then_fail (Some "unexpected EOF"%string));
        TLoop Z (Body Z only_accel None); TLoop Z (Body Z only_accel None);
        TLoop Z (Body Z only_accel None); TLoop Z (Body Z only_accel None);
        TLoop Z (Body Z only_accel None);
        TNextFrame Z; TRender Z; TRender Z; TRender Z]
       (started Z 0 sample_provider))
  = Some (mkImuData Z (1, 2, 3) (0, 0, 0) (0, 0, 0) (0, 0, 0, 0) true).
Proof.
  exact (proj2 (proj2 (IMU_snapshot_sources Z 0 sample_provider []))
           shake_then_fail "unexpected EOF"%string only_accel eq_refl).
Defined.

End IMUSnapshot.

(** * Package [kinect]: a second [Close] *)

Module KinectLifecycle.

Import IMU Kinect.

(** The owner calls [Close] once more on the same provider. *)
Definition Close_again (st : state) : state :=
  mkState (closed st) (loopClosed st) (device_log st) (released st)
          (loop_at st) CClose.

Lemma step_after_panic (t : turn) (st : state) :
  close_at st = CPanic -> loop_at st = KExited -> step t st = None.
Proof.
  intros Hc Hl. destruct t as [rc|]; cbn; [unfold step_loop|unfold step_close].
  - rewrite Hl. reflexivity.
  - rewrite Hc. reflexivity.
Qed.

Lemma run_after_panic (schedule : list turn) (st : state) :
  close_at st = CPanic -> loop_at st = KExited -> run schedule st = st.
Proof.
  intros Hc Hl. induction schedule as [|t ts IH]; [reflexivity|].
  rewrite kinect_run_cons, (step_after_panic t st Hc Hl). exact IH.
Qed.

(** [Close] can be called once.  Once a call of [Close] has returned, under
    whatever schedule it ran, a second call panics at [close(kin.closed)],
    the channel being closed already: it does not get to wait for the loop
    and releases nothing a second time, and nothing moves after it. *)
Theorem Kinect_second_Close_panics (schedule again : list turn) :
  close_at (run schedule opened) = CReturned ->
  let st := run (TClose :: again) (Close_again (run schedule opened)) in
  close_at st = CPanic /\
  released st = [instances_Delete; gl_DeleteTextures] /\
  device_log st = device_log (run schedule opened).
Proof.
  intros Hret. cbn zeta.
  pose proof (run_consistent schedule opened opened_consistent)
    as (_ & Hclosed & Hlc & Hrel_lc & _ & Hrel).
  set (st0 := run schedule opened) in *.
  assert (Hc : closed st0 = ChanClosed).
  { apply Hclosed. rewrite Hret. discriminate. }
  assert (Hl : loop_at st0 = KExited).
  { apply Hlc, Hrel_lc. right. exact Hret. }
  rewrite Hret in Hrel.
  rewrite kinect_run_cons. cbn [step]. unfold step_close, Close_again.
  cbn [close_at closed]. rewrite Hc. cbn [default]. unfold id.
  rewrite run_after_panic by (cbn; first [reflexivity | assumption]).
  cbn. repeat split. exact Hrel.
Qed.

Lemma Kinect_second_Close_panics_witness :
  close_at (run [TClose; TLoop 0; TLoop 0; TLoop 0; TLoop 0; TClose; TClose]
              opened) = CReturned /\
  close_at (run [TClose; TLoop 0]
              (Close_again
                 (run [TClose; TLoop 0; TLoop 0; TLoop 0; TLoop 0; TClose; TClose]
                    opened))) = CPanic.
Proof.
  split; [reflexivity|].
  exact (proj1 (Kinect_second_Close_panics
                  [TClose; TLoop 0; TLoop 0; TLoop 0; TLoop 0; TClose; TClose]
                  [TLoop 0] eq_refl)).
Defined.

End KinectLifecycle.

From stdpp Require Import gmap.

(** * Package [kinect]: the uniforms *)

Module KinectUniforms.

Import GoInt GoImage Encode.

Local Open Scope Z_scope.

(** The fields of [kinect] that [UniformSource] and [PreRender] read. *)
Record kinect := mkKinect {
  uniformName : string;
  textureIndex : Z;
  textureID : Z;
  currentImage : RGBA }.

(** The OpenGL calls of [PreRender], with the arguments that vary; the
    [float32] arguments are whole numbers and written as such. *)
Inductive gl_call :=
| ActiveTexture (texture : Z)
| BindTexture (texture : Z)
| TexSubImage2D (width height : Z) (pixels : list Z)
| Uniform1i (location v0 : Z)
| Uniform3f (location v0 v1 v2 : Z).

(** [gl.TEXTURE0]. *)
Definition TEXTURE0 : Z := 33984.

Definition to_uint32 (v : Z) : Z := v mod 2 ^ 32.
Definition to_int32 (v : Z) : Z := (v + 2 ^ 31) mod 2 ^ 32 - 2 ^ 31.

Definition TAB : string := String (ascii_of_nat 9) EmptyString.

(** [UniformSource]: the raw string literal with its three [%s] filled
    in. *)
Definition UniformSource (kin : kinect) : string :=
  LF +:+ TAB +:+ TAB +:+ "uniform sampler2D " +:+ uniformName kin +:+ ";"
  +:+ LF +:+ TAB +:+ TAB +:+ "uniform vec3 " +:+ uniformName kin +:+ "Size;"
  +:+ LF +:+ TAB +:+ TAB +:+ "uniform float " +:+ uniformName kin +:+ "CurTime;"
  +:+ LF +:+ TAB.

Section Render.

(** [shadertoy.IchannelNumRe.FindStringSubmatch], by the first group of
    the match; the expression is compiled in package [shadertoy]. *)
Variable IchannelNumRe : string -> option string.

(** [state.Uniforms], by the [Location] of each uniform of the program. *)
Definition Uniforms := gmap string Z.

(** [PreRender], as the OpenGL calls it makes, in order; it holds
    [currentImageLock] from its first statement to its return. *)
Definition PreRender (kin : kinect) (uniforms : Uniforms) : list gl_call :=
  let width := to_int32 (Dx KinectFrames.resolution) in
  let height := to_int32 (Dy KinectFrames.resolution) in
  (match uniforms !! uniformName kin with
   | Some loc =>
     [ActiveTexture (to_uint32 (TEXTURE0 + textureIndex kin));
      BindTexture (textureID kin);
      TexSubImage2D width height (Pix (currentImage kin));
      Uniform1i loc (to_int32 (textureIndex kin))]
   | None => []
   end)
  ++ (match IchannelNumRe (uniformName kin) with
      | Some m1 =>
        match uniforms !! ("iChannelResolution[" +:+ m1 +:+ "]") with
        | Some loc =>
          [Uniform3f loc (Dx KinectFrames.resolution)
                     (Dy KinectFrames.resolution) 1]
        | None => []
        end
      | None => []
      end)
  ++ (match uniforms !! (uniformName kin +:+ "Size") with
      | Some loc =>
        [Uniform3f loc (Dx KinectFrames.resolution)
                   (Dy KinectFrames.resolution) 1]
      | None => []
      end).

End Render.

Fixpoint last_char (s : string) : option ascii :=
  match s with
  | EmptyString => None
  | String a EmptyString => Some a
  | String _ s' => last_char s'
  end.

Lemma last_char_app (s t : string) :
  t <> EmptyString -> last_char (s +:+ t) = last_char t.
Proof.
  intros Ht. induction s as [|a s IH]; [reflexivity|].
  rewrite append_cons. cbn [last_char]. rewrite IH.
  destruct (s +:+ t) eqn:E; [|reflexivity].
  destruct s as [|b s]; [|rewrite append_cons in E; discriminate E].
  change (EmptyString +:+ t) with t in E. congruence.
Qed.

Lemma append_inj_l (s t u : string) : s +:+ t = s +:+ u -> t = u.
Proof.
  induction s as [|a s IH]; [trivial|].
  rewrite !append_cons. intros [= H]. exact (IH H).
Qed.

Lemma length_append (s t : string) :
  String.length (s +:+ t) = (String.length s + String.length t)%nat.
Proof.
  induction s as [|a s IH]; [reflexivity|].
  rewrite append_cons. cbn [String.length]. rewrite IH. reflexivity.
Qed.

(** The name [UniformSource] declares as [uniform float] is none of the
    names [PreRender] looks up. *)
Lemma CurTime_not_looked_up (name m1 : string) :
  name +:+ "CurTime" <> name /\
  name +:+ "CurTime" <> "iChannelResolution[" +:+ m1 +:+ "]" /\
  name +:+ "CurTime" <> name +:+ "Size".
Proof.
  split; [|split].
  - intros H. apply (f_equal String.length) in H.
    rewrite length_append in H. cbn in H. lia.
  - intros H. apply (f_equal last_char) in H.
    rewrite last_char_app in H by discriminate.
    rewrite <- append_assoc in H.
    rewrite last_char_app in H by discriminate.
    discriminate H.
  - intros H. apply append_inj_l in H. discriminate H.
Qed.

(** [UniformSource] declares [uniform float <name>CurTime], and
    [PreRender] never sets it: whether the program binds that uniform, and
    where, changes none of the OpenGL calls [PreRender] makes. *)
Theorem PreRender_never_sets_CurTime (IchannelNumRe : string -> option string)
    (kin : kinect) (uniforms : Uniforms) (loc : Z) :
  (exists before after,
      UniformSource kin
      = before +:+ "uniform float " +:+ uniformName kin +:+ "CurTime;"
        +:+ after) /\
  PreRender IchannelNumRe kin
    (<[uniformName kin +:+ "CurTime" := loc]> uniforms)
  = PreRender IchannelNumRe kin uniforms /\
  PreRender IchannelNumRe kin (delete (uniformName kin +:+ "CurTime") uniforms)
  = PreRender IchannelNumRe kin uniforms.
Proof.
  split; [|split].
  - exists (LF +:+ TAB +:+ TAB +:+ "uniform sampler2D " +:+ uniformName kin
            +:+ ";" +:+ LF +:+ TAB +:+ TAB +:+ "uniform vec3 "
            +:+ uniformName kin +:+ "Size;" +:+ LF +:+ TAB +:+ TAB),
           (LF +:+ TAB).
    unfold UniformSource. rewrite !append_assoc. reflexivity.
  - unfold PreRender, Uniforms in *.
    destruct (CurTime_not_looked_up (uniformName kin) EmptyString)
      as (H1 & _ & H3).
    rewrite !lookup_insert_ne by assumption.
    destruct (IchannelNumRe (uniformName kin)) as [m1|]; [|reflexivity].
    destruct (CurTime_not_looked_up (uniformName kin) m1) as (_ & H2 & _).
    rewrite lookup_insert_ne by assumption. reflexivity.
  - unfold PreRender, Uniforms in *.
    destruct (CurTime_not_looked_up (uniformName kin) EmptyString)
      as (H1 & _ & H3).
    rewrite !lookup_delete_ne by assumption.
    destruct (IchannelNumRe (uniformName kin)) as [m1|]; [|reflexivity].
    destruct (CurTime_not_looked_up (uniformName kin) m1) as (_ & H2 & _).
    rewrite lookup_delete_ne by assumption. reflexivity.
Qed.

End KinectUniforms.

(** * Package [encode]: the colours of a terminal cell *)

Module TerminalColours.

Import GoInt GoImage Encode.

Local Open Scope Z_scope.

(** Byte [k] of the pixel at (x, y) of an [image.RGBA]. *)
Definition byte_at (p : RGBA) (x y k : Z) : Z :=
  default 0 (Pix p !! Z.to_nat (PixOffset p x y + k)).

Lemma quot_widen (v : Z) : 0 <= v < 256 -> widen v `quot` 256 = v.
Proof.
  intros Hv. unfold widen.
  assert (Hn : 0 <= Z.lor v (Z.shiftl v 8)).
  { apply Z.lor_nonneg. split; [lia|]. apply Z.shiftl_nonneg. lia. }
  rewrite Z.quot_div_nonneg by lia.
  change 256 with (2 ^ 8). rewrite <- Z.shiftr_div_pow2 by lia.
  rewrite Z.shiftr_lor, Z.shiftr_shiftl_l by lia.
  rewrite Z.sub_diag, Z.shiftl_0_r.
  rewrite Z.shiftr_div_pow2 by lia.
  rewrite Z.div_small by (change (2 ^ 8) with 256; lia).
  apply Z.lor_0_l.
Qed.

Lemma RGBA_At_bytes (p : RGBA) (x y : Z) :
  RGBA_wf p -> Min (RGBA_Rect p) = mkPoint 0 0 ->
  Forall (fun b => 0 <= b < 256) (Pix p) ->
  0 <= x < Dx (RGBA_Rect p) -> 0 <= y < Dy (RGBA_Rect p) ->
  cR (RGBA_At p x y) `quot` 256 = byte_at p x y 0 /\
  cG (RGBA_At p x y) `quot` 256 = byte_at p x y 1 /\
  cB (RGBA_At p x y) `quot` 256 = byte_at p x y 2.
Proof.
  intros Hwf Hmin Hb Hx Hy.
  pose proof (wf_rect _ Hwf) as Hr. pose proof (wf_stride _ Hwf) as Hs.
  destruct (origin_dims _ Hr Hmin) as (HDx & HDy & HW & HH & Harea).
  rewrite Hmin in Hs. cbn [X Y] in Hs. rewrite Z.sub_0_r in Hs.
  unfold RGBA_At, In_rect, byte_at. rewrite Hmin. cbn [X Y].
  rewrite <- HDx, <- HDy.
  replace (0 <=? x) with true by (symmetry; apply Z.leb_le; lia).
  replace (x <? Dx (RGBA_Rect p)) with true by (symmetry; apply Z.ltb_lt; lia).
  replace (0 <=? y) with true by (symmetry; apply Z.leb_le; lia).
  replace (y <? Dy (RGBA_Rect p)) with true by (symmetry; apply Z.ltb_lt; lia).
  cbn [andb]. unfold color_RGBA. cbn [cR cG cB].
  assert (Hoff : 0 <= PixOffset p x y).
  { unfold PixOffset. rewrite Hmin. cbn [X Y]. nia. }
  rewrite !quot_widen by (apply RawContent.Pix_byte, Hb).
  rewrite Z.add_0_r.
  replace (Z.to_nat (PixOffset p x y + 1)) with (S (Z.to_nat (PixOffset p x y)))
    by lia.
  replace (Z.to_nat (PixOffset p x y + 2))
    with (S (S (Z.to_nat (PixOffset p x y)))) by lia.
  repeat split.
Qed.

(** The cell of column [x] in output row [y] of an [*image.RGBA] frame at
    the origin: the foreground escape carries the three colour bytes of the
    pixel (x, 2y) as they stand in [Pix], the background escape those of
    the pixel (x, 2y+1) when that row exists, and the short literal when it
    does not; then comes the half block. *)
Theorem Ansi_cell_RGBA (p : RGBA) (x y : Z) (buf : string) :
  RGBA_wf p -> Min (RGBA_Rect p) = mkPoint 0 0 ->
  Forall (fun b => 0 <= b < 256) (Pix p) ->
  0 <= x < Dx (RGBA_Rect p) -> 0 <= y -> 2 * y < Dy (RGBA_Rect p) ->
  Ansi_cell (ImageRGBA p) y x buf
  = buf
    +:+ ansi_fg (byte_at p x (2 * y) 0) (byte_at p x (2 * y) 1)
                (byte_at p x (2 * y) 2)
    +:+ (if decide (2 * y + 1 < Dy (RGBA_Rect p))
         then ansi_bg (byte_at p x (2 * y + 1) 0) (byte_at p x (2 * y + 1) 1)
                      (byte_at p x (2 * y + 1) 2)
         else ansi_bg_missing)
    +:+ upper_half_block.
Proof.
  intros Hwf Hmin Hb Hx Hy0 Hy.
  assert (Hr : int_min <= Dy (RGBA_Rect p) <= int_max) by apply wrap_range.
  unfold int_min, int_max in Hr.
  unfold Ansi_cell, Ansi_background. cbn [At Bounds].
  rewrite mul_small by (unfold int_min, int_max; lia).
  rewrite add_small by (unfold int_min, int_max; lia).
  replace (y * 2) with (2 * y) by lia.
  destruct (RGBA_At_bytes p x (2 * y) Hwf Hmin Hb Hx ltac:(lia))
    as (-> & -> & ->).
  destruct (decide (2 * y + 1 < Dy (RGBA_Rect p))) as [Hlow|]; [|reflexivity].
  destruct (RGBA_At_bytes p x (2 * y + 1) Hwf Hmin Hb Hx ltac:(lia))
    as (-> & -> & ->).
  reflexivity.
Qed.

Lemma Ansi_cell_RGBA_witness :
  Ansi_cell (ImageRGBA RawContent.two_pixels_RGBA) 0 1 EmptyString
  = EmptyString +:+ ansi_fg 4 5 6 +:+ ansi_bg_missing +:+ upper_half_block.
Proof.
  apply (Ansi_cell_RGBA RawContent.two_pixels_RGBA 1 0 EmptyString
           two_pixels_wf eq_refl).
  - repeat constructor; lia.
  - change (Dx (RGBA_Rect RawContent.two_pixels_RGBA)) with 2. lia.
  - lia.
  - vm_compute. reflexivity.
Defined.

End TerminalColours.
